(** * rankeval: rank normalisation and ranking metrics

    A shallow embedding of [sentence/ranking.py],
    [evaluation/ranking/segment.py] and [evaluation/ranking/set.py].

    Modelling conventions.
    - A Python float is a rational [Q]; [==] on floats is [Qeq_bool], [<] is
      [Qlt].  Every rank the normaliser produces is an integer or a
      half-integer, so float arithmetic on ranks is exact; the gains
      [(2**l - 1.0) / 2**n] are dyadic and exact as well.  NaN and infinities
      are outside the model.
    - A raised exception is the [Raise] branch of [result].
    - [**kwargs] is a finite map from keyword to value ([gmap string pyval]);
      [dict.setdefault] returns the value together with the updated map.
    - [math.log], [numpy.sqrt] and [scipy.special.erfc] are library functions
      the repository only calls; they are section variables. *)

From Stdlib Require Import QArith Qround Qabs Qpower Lqa.
From stdpp Require Import base list gmap strings.

Local Open Scope Q_scope.

(** ** Python values, exceptions, keyword arguments *)

Inductive exn : Set :=
  | TypeError | AssertionError | ZeroDivisionError | ValueError
  | IndexError | NameError.

Inductive result (A : Type) : Type :=
  | Ok (a : A)
  | Raise (e : exn).
Arguments Ok {A} a.
Arguments Raise {A} e.

#[export] Instance result_ret : MRet result := fun _ a => Ok a.
#[export] Instance result_bind : MBind result := fun _ _ f m =>
  match m with Ok a => f a | Raise e => Raise e end.

#[export] Instance result_fmap : FMap result := fun _ _ f m =>
  match m with Ok a => Ok (f a) | Raise e => Raise e end.

Inductive pyval : Type :=
  | VNone
  | VBool (b : bool)
  | VInt (z : Z)
  | VFloat (q : Q)
  | VStr (s : string).

(** Truth value of an object in a condition ([if x], [not x], [x and y]). *)
Definition truthy (v : pyval) : bool :=
  match v with
  | VNone => false
  | VBool b => b
  | VInt z => negb (z =? 0)%Z
  | VFloat q => negb (Qeq_bool q 0)
  | VStr s => negb (String.eqb s "")
  end.

(** [v == 'literal'] for a string literal. *)
Definition is_str (v : pyval) (s : string) : bool :=
  match v with VStr s' => String.eqb s' s | _ => false end.

(** [kwargs.setdefault(key, default)]: the value now stored under [key], and
    the dictionary after the call. *)
Definition setdefault (kwargs : gmap string pyval) (key : string) (default : pyval)
  : pyval * gmap string pyval :=
  match kwargs !! key with
  | Some v => (v, kwargs)
  | None => (default, <[key := default]> kwargs)
  end.

(** The keyword dictionary of a call [f(..., ties=policy)]. *)
Definition ties (policy : string) : gmap string pyval :=
  {[ "ties" := VStr policy ]}.

(** [x < y] on floats. *)
Definition Qltb (x y : Q) : bool :=
  match x ?= y with Lt => true | _ => false end.

(** [x / y] on floats. *)
Definition py_div (x y : Q) : result Q :=
  if Qeq_bool y 0 then Raise ZeroDivisionError else Ok (x / y).

(** [min(l)] and [max(l)]; both raise [ValueError] on an empty sequence. *)
Definition py_min (l : list Q) : result Q :=
  match l with
  | [] => Raise ValueError
  | x :: xs => Ok (foldl (fun m y => if Qltb y m then y else m) x xs)
  end.

Definition py_max (l : list Q) : result Q :=
  match l with
  | [] => Raise ValueError
  | x :: xs => Ok (foldl (fun m y => if Qltb m y then y else m) x xs)
  end.

(** A positional argument at a call site. *)
Inductive pyarg : Type :=
  | AList (l : list Q)
  | ADict (d : gmap string pyval).

(** ** sentence/ranking.py *)

Module ranking.

(** [indexes(ranking_list, neededrank)], the comprehension over
    [enumerate(ranking_list)] started at index [start]. *)
Fixpoint indexes_from (start : nat) (ranking_list : list Q) (neededrank : Q) : list nat :=
  match ranking_list with
  | [] => []
  | rank :: rest =>
      if Qeq_bool neededrank rank
      then start :: indexes_from (S start) rest neededrank
      else indexes_from (S start) rest neededrank
  end.

Definition indexes (ranking_list : list Q) (neededrank : Q) : list nat :=
  indexes_from 0 ranking_list neededrank.

(** [ranking_list.count(x)] *)
Fixpoint count (ranking_list : list Q) (x : Q) : nat :=
  match ranking_list with
  | [] => O
  | rank :: rest =>
      if Qeq_bool rank x then S (count rest x) else count rest x
  end.

Definition _handle_tie (ranking_list : list Q) (original_rank modified_rank : Q)
    (ties_handling : pyval) : Q * Q :=
  let count := count ranking_list original_rank in
  let cnt := inject_Z (Z.of_nat count) in
  if (count <=? 1)%nat then (modified_rank, modified_rank)
  else if is_str ties_handling "minimize" then (modified_rank, modified_rank)
  else if is_str ties_handling "floor" then (modified_rank, modified_rank + cnt - 1)
  else if is_str ties_handling "ceiling" then
    (modified_rank + cnt - 1, modified_rank + cnt - 1)
  else if is_str ties_handling "middle" then
    (modified_rank - 1 + (cnt + 1) / 2, modified_rank + cnt - 1)
  else (modified_rank, modified_rank).

(** [sorted(set(ranking_list))]: the distinct values in ascending order. *)
Fixpoint insert_rank (x : Q) (s : list Q) : list Q :=
  match s with
  | [] => [x]
  | y :: s' =>
      match x ?= y with
      | Lt => x :: s
      | Eq => s
      | Gt => y :: insert_rank x s'
      end
  end.

Definition sorted_set (ranking_list : list Q) : list Q :=
  foldr insert_rank [] ranking_list.

(** [for rank_index in rank_indexes: normalized_rank[rank_index] = new_rank] *)
Definition assign (normalized_rank : list Q) (rank_indexes : list nat) (new_rank : Q)
  : list Q :=
  foldl (fun out rank_index => <[rank_index := new_rank]> out)
        normalized_rank rank_indexes.

(** The body of the [for original_rank in sorted(set(ranking_list))] loop,
    threading [normalized_rank] and [new_rank]. *)
Fixpoint normalize_loop (ranking_list : list Q) (ties_handling : pyval)
    (todo : list Q) (normalized_rank : list Q) (new_rank : Q) : list Q :=
  match todo with
  | [] => normalized_rank
  | original_rank :: todo' =>
      let new_rank := new_rank + 1 in
      let rank_indexes := indexes ranking_list original_rank in
      let '(new_rank, next_rank) :=
        _handle_tie ranking_list original_rank new_rank ties_handling in
      let normalized_rank := assign normalized_rank rank_indexes new_rank in
      normalize_loop ranking_list ties_handling todo' normalized_rank next_rank
  end.

Definition normalize (ranking_list : list Q) (kwargs : gmap string pyval)
  : result (list Q) :=
  let '(ties_handling, kwargs) := setdefault kwargs "ties" (VStr "minimize") in
  let length := length ranking_list in
  let normalized_rank := replicate length 0 in
  let normalized_rank :=
    normalize_loop ranking_list ties_handling (sorted_set ranking_list)
                   normalized_rank 0 in
  if (count normalized_rank 0 =? 0)%nat then Ok normalized_rank
  else Raise AssertionError.

(** A call of [normalize] with positional arguments [args] against the signature
    [def normalize(ranking_list, **kwargs)]: exactly one positional argument
    is accepted, anything else is a [TypeError] raised before the body runs.
    (No call site passes a dictionary as the ranking itself; that case is
    reported as a [TypeError] too.) *)
Definition normalize_call (args : list pyarg) (kwargs : gmap string pyval)
  : result (list Q) :=
  match args with
  | [AList ranking_list] => normalize ranking_list kwargs
  | _ => Raise TypeError
  end.

(** [invert]: the keyword dictionary is handed over as a second positional
    argument ([normalize(inverted_ranking_list, kwargs)]). *)
Definition invert (ranking_list : list Q) (kwargs : gmap string pyval)
  : result (list Q) :=
  let inverted_ranking_list := map (fun item => (-1) * item) ranking_list in
  normalize_call [AList inverted_ranking_list; ADict kwargs] ∅.

(** *** class Ranking(list)

    The list of ranks together with the [normalization] tag. *)
Record Ranking : Type := mkRanking {
  ranks : list Q;
  normalization : pyval
}.

(** [round(x, 0)] followed by [int(...)]: Python 2 rounds halves away from
    zero. *)
Definition py_round (x : Q) : Z :=
  if Qle_bool 0 x then Qfloor (x + (1 # 2)) else Qceiling (x - (1 # 2)).

(** [Ranking(ranking, **kwargs)]: every item through [float(i)], or through
    [int(round(float(i), 0))] when [integers] is set. *)
Definition Ranking_init (ranking : list Q) (kwargs : gmap string pyval) : Ranking :=
  let '(integers, kwargs) := setdefault kwargs "integers" (VBool false) in
  let items :=
    map (fun i => if negb (truthy integers) then i else inject_Z (py_round i))
        ranking in
  let '(normalization, _) := setdefault kwargs "normalization" (VStr "unknown") in
  mkRanking items normalization.

(** [Ranking.normalize(self, **kwargs)] *)
Definition Ranking_normalize (self : Ranking) (kwargs : gmap string pyval)
  : result Ranking :=
  let '(ties_handling, kwargs) := setdefault kwargs "ties" (VStr "minimize") in
  normalized ← normalize (ranks self) {[ "ties" := ties_handling ]};
  mret (Ranking_init normalized {[ "normalization" := ties_handling ]}).

(** [Ranking.indexes(self, neededrank)] *)
Definition Ranking_indexes (self : Ranking) (neededrank : Q) : list nat :=
  indexes (ranks self) neededrank.

(** [Ranking.inverse(self, **kwargs)] *)
Definition Ranking_inverse (self : Ranking) (kwargs : gmap string pyval)
  : result Ranking :=
  let '(ties_handling, kwargs) := setdefault kwargs "ties" (VStr "minimize") in
  inverted ← invert (ranks self) {[ "ties" := ties_handling ]};
  mret (Ranking_init inverted {[ "normalization" := ties_handling ]}).

(** [Ranking.integers(self)], i.e. [Ranking(self, integers=True)]: every item
    through [int(round(float(i), 0))].  The items are Python integers from
    here on and are used as such (as list indices and exponents), so the
    result is kept as a list of integers; its tag is ['unknown']. *)
Definition Ranking_integers (self : Ranking) : list Z :=
  map py_round (ranks self).

End ranking.

Import ranking.

(** ** evaluation/ranking/segment.py *)

(** [itertools.combinations(l, 2)] *)
Fixpoint combinations2 {A : Type} (l : list A) : list (A * A) :=
  match l with
  | [] => []
  | x :: xs => map (pair x) xs ++ combinations2 xs
  end.

(** [sum(l)] on floats *)
Definition py_sum (l : list Q) : Q := foldl Qplus 0 l.

(** [l[i] = v] for an integer index: negative indices count from the end,
    anything out of range raises [IndexError]. *)
Definition py_setitem (l : list Q) (i : Z) (v : Q) : result (list Q) :=
  let n := Z.of_nat (length l) in
  if ((0 <=? i) && (i <? n))%Z then Ok (<[Z.to_nat i := v]> l)
  else if ((- n <=? i) && (i <? 0))%Z then Ok (<[Z.to_nat (n + i) := v]> l)
  else Raise IndexError.

(** [l[j]] for [j] taken from [range(...)] *)
Definition py_getitem {A : Type} (l : list A) (j : nat) : result A :=
  match l !! j with
  | Some v => Ok v
  | None => Raise IndexError
  end.

(** [l[:k]]: the slice bound must be an integer (a [bool] is one). *)
Definition py_slice_to (l : list Q) (k : pyval) : result (list Q) :=
  let upto (z : Z) :=
    if (0 <=? z)%Z then take (Z.to_nat z) l
    else take (Z.to_nat (Z.of_nat (length l) + z)) l in
  match k with
  | VInt z => Ok (upto z)
  | VBool b => Ok (upto (if b then 1 else 0)%Z)
  | VNone => Ok l
  | VFloat _ | VStr _ => Raise TypeError
  end.

(** [l.sort()] on floats, ascending. *)
Fixpoint insert_sorted (x : Q) (s : list Q) : list Q :=
  match s with
  | [] => [x]
  | y :: s' => if Qltb y x then y :: insert_sorted x s' else x :: s
  end.

Definition py_sort (l : list Q) : list Q := foldr insert_sorted [] l.

(** [for a in l: body(a)] where the body may raise. *)
Fixpoint for_each {S B : Type} (body : S -> B -> result S) (l : list B) (s : S)
  : result S :=
  match l with
  | [] => Ok s
  | b :: l' => s' ← body s b; for_each body l' s'
  end.

Module segment.

(** The named tuple returned by [kendall_tau]; [None] in [tau] and [prob] is
    Python's [None]. *)
Record Result : Type := mkResult {
  tau : option Q;
  prob : option Q;
  concordant_count : Z;
  discordant_count : Z;
  all_pairs_count : Z;
  original_ties : Z;
  predicted_ties : Z;
  pairs : Z
}.

(** The counters of the pair loop of [kendall_tau]. *)
Record counters : Type := mkCounters {
  c_concordant : Z;
  c_discordant : Z;
  c_original_ties : Z;
  c_predicted_ties : Z;
  c_pairs : Z
}.

(** One iteration of [for original_pair, predicted_pair in zip(...)]. *)
Definition pair_step (exclude_ties penalize_predicted_ties : pyval)
    (st : counters) (pp : (Q * Q) * (Q * Q)) : counters :=
  let '((original_i, original_j), (predicted_i, predicted_j)) := pp in
  let pairs := (c_pairs st + 1)%Z in
  let original_ties :=
    if Qeq_bool original_i original_j
    then (c_original_ties st + 1)%Z else c_original_ties st in
  let predicted_ties :=
    if Qeq_bool predicted_i predicted_j
    then (c_predicted_ties st + 1)%Z else c_predicted_ties st in
  let st := mkCounters (c_concordant st) (c_discordant st)
                       original_ties predicted_ties pairs in
  if Qeq_bool original_i (-1) || Qeq_bool original_j (-1) then st
  else if Qeq_bool original_i original_j && truthy exclude_ties then st
  else if (Qltb original_j original_i && Qltb predicted_j predicted_i)
       || (Qltb original_i original_j && Qltb predicted_i predicted_j)
       || (Qeq_bool original_i original_j && Qeq_bool predicted_i predicted_j)
  then mkCounters (c_concordant st + 1) (c_discordant st)
                  original_ties predicted_ties pairs
  else if Qeq_bool predicted_i predicted_j && negb (truthy penalize_predicted_ties)
  then st
  else mkCounters (c_concordant st) (c_discordant st + 1)
                  original_ties predicted_ties pairs.

Section library_functions.

Variable log : Q -> Q.
Variable sqrt : Q -> Q.
Variable erfc : Q -> Q.

(** [kendall_tau_prob].  The first [try] catches the division by zero for
    [pairs] 0 and 1; the division by [np.sqrt(svar)] is numpy's and does not
    raise. *)
Definition kendall_tau_prob (tau : Q) (pairs : Z) : Q :=
  let svar :=
    match py_div (4 * inject_Z pairs + 10)
                 (9 * inject_Z pairs * (inject_Z pairs - 1)) with
    | Ok svar => svar
    | Raise _ => 1
    end in
  let z := tau / sqrt svar in
  erfc (Qabs z / (14142136 # 10000000)).

Definition kendall_tau (predicted_rank_vector original_rank_vector : Ranking)
    (kwargs : gmap string pyval) : result Result :=
  let '(ties_handling, kwargs) := setdefault kwargs "ties" (VStr "ceiling") in
  predicted_rank_vector ←
    Ranking_normalize predicted_rank_vector {[ "ties" := ties_handling ]};
  original_rank_vector ←
    Ranking_normalize original_rank_vector {[ "ties" := ties_handling ]};
  let '(exclude_ties, kwargs) := setdefault kwargs "exclude_ties" (VBool true) in
  let '(penalize_predicted_ties, kwargs) :=
    setdefault kwargs "penalize_predicted_ties" (VBool true) in
  let '(invert_ranks, kwargs) := setdefault kwargs "invert_ranks" (VBool false) in
  let inv : Q := if truthy invert_ranks then -1 else 1 in
  let predicted_pairs := combinations2 (ranks predicted_rank_vector) in
  let original_pairs :=
    map (fun '(i, j) => (inv * i, inv * j))
        (combinations2 (ranks original_rank_vector)) in
  let st :=
    foldl (pair_step exclude_ties penalize_predicted_ties)
          (mkCounters 0 0 0 0 0) (zip original_pairs predicted_pairs) in
  let concordant_count := c_concordant st in
  let discordant_count := c_discordant st in
  let all_pairs_count := (concordant_count + discordant_count)%Z in
  let '(tau, prob) :=
    match py_div (1 * inject_Z (concordant_count - discordant_count))
                 (inject_Z all_pairs_count) with
    | Ok tau => (Some tau, Some (kendall_tau_prob tau all_pairs_count))
    | Raise _ => (None, None)
    end in
  mret (mkResult tau prob concordant_count discordant_count all_pairs_count
                 (c_original_ties st) (c_predicted_ties st) (c_pairs st)).

(** [_calculate_gains].  [expn = 2**n] is a positive integer, so the division
    by it cannot fail. *)
Definition _calculate_gains (predicted_rank_vector original_rank_vector : list Z)
  : result (list Q) :=
  let r := predicted_rank_vector in
  let n := length original_rank_vector in
  let l := map (fun i => (Z.of_nat n - i + 1)%Z) original_rank_vector in
  let expn := 2 ^ Z.of_nat n in
  gains ←
    for_each (fun gains j =>
                rj ← py_getitem r j;
                lj ← py_getitem l j;
                py_setitem gains (rj - 1) ((2 ^ lj - 1) / expn))
             (seq 0 n) (replicate n 0);
  m ← py_min gains;
  if Qle_bool 0 m then Ok gains else Raise AssertionError.

(** [[g/log(j+2) for (j,g) in enumerate(gains)]], the enumeration started at
    [j]. *)
Fixpoint discounted_from (j : nat) (gains : list Q) : result (list Q) :=
  match gains with
  | [] => Ok []
  | g :: rest =>
      t ← py_div g (log (inject_Z (Z.of_nat j) + 2));
      ts ← discounted_from (S j) rest;
      mret (t :: ts)
  end.

Definition idcg (gains : list Q) (k : pyval) : result Q :=
  let gains := py_sort gains in
  let gains := rev gains in
  cut ← py_slice_to gains k;
  terms ← discounted_from 0 cut;
  mret (py_sum terms).

(** The ERR loop: [r = gains[j]; err += p*r/(j+1.0); p *= 1-r], from index
    [j] on; the state is [(p, err)]. *)
Fixpoint err_loop (j : nat) (gains : list Q) (st : Q * Q) : Q * Q :=
  match gains with
  | [] => st
  | r :: rest =>
      let '(p, err) := st in
      let err := err + p * r / (inject_Z (Z.of_nat j) + 1) in
      let p := p * (1 - r) in
      err_loop (S j) rest (p, err)
  end.

Definition ndgc_err (predicted_rank_vector original_rank_vector : Ranking)
    (k : pyval) : result (Q * Q) :=
  r ← Ranking_normalize predicted_rank_vector {[ "ties" := VStr "ceiling" ]};
  let r := Ranking_integers r in
  l ← Ranking_normalize original_rank_vector {[ "ties" := VStr "ceiling" ]};
  let l := Ranking_integers l in
  let n := length l in
  let k := if negb (truthy k) then VInt (Z.of_nat n) else k in
  if negb (length r =? n)%nat then Raise AssertionError
  else
    gains ← _calculate_gains r l;
    let '(p, err) := err_loop 0 gains (1, 0) in
    cut ← py_slice_to gains k;
    terms ← discounted_from 0 cut;
    let dcg := py_sum terms in
    ideal_dcg ← idcg gains k;
    let ndcg := if truthy (VFloat ideal_dcg) then dcg / ideal_dcg else 1 in
    mret (ndcg, err).

Definition reciprocal_rank (predicted_rank_vector original_rank_vector : Ranking)
    (kwargs : gmap string pyval) : result Q :=
  let '(ties_handling, kwargs) := setdefault kwargs "ties" (VStr "ceiling") in
  predicted_rank_vector ←
    Ranking_normalize predicted_rank_vector {[ "ties" := ties_handling ]};
  original_rank_vector ←
    Ranking_normalize original_rank_vector {[ "ties" := ties_handling ]};
  best_original_rank ← py_min (ranks original_rank_vector);
  let best_original_rank_indexes :=
    Ranking_indexes original_rank_vector best_original_rank in
  predicted_values_for_best_rank ←
    for_each (fun acc index =>
                v ← py_getitem (ranks predicted_rank_vector) index;
                mret (acc ++ [v]))
             best_original_rank_indexes [];
  best_predicted_value_for_best_rank ← py_min predicted_values_for_best_rank;
  py_div 1 best_predicted_value_for_best_rank.

End library_functions.

End segment.

(** ** evaluation/ranking/set.py *)

(** [numpy.average(l)]: the mean, and [nan] (here [None]) for an empty list. *)
Definition np_average (l : list Q) : option Q :=
  match l with
  | [] => None
  | _ => Some (py_sum l / inject_Z (Z.of_nat (length l)))
  end.

(** [numpy.product(l)] *)
Definition np_product (l : list Q) : Q := foldl Qmult 1 l.

Module set.

(** The dictionary returned by [kendall_tau_set], one field per key;
    [None] in [tau_avg_seg] is [nan]. *)
Record stats : Type := mkStats {
  tau : Q;
  tau_prob : Q;
  tau_avg_seg : option Q;
  tau_avg_seg_prob : Q;
  tau_concordant : Z;
  tau_discordant : Z;
  tau_valid_pairs : Z;
  tau_all_pairs : Z;
  tau_original_ties : Z;
  tau_predicted_ties : Z;
  tau_predicted_ties_per : Q;
  tau_sentence_ties : Z;
  tau_sentence_ties_per : Q
}.

(** The local variables of [kendall_tau_set] that the segment loop updates.
    [predicted_ties] and [predicted_rank_vector] are the loop's own variables,
    unbound until the first iteration and then holding the values of the
    latest segment. *)
Record tau_state : Type := mkTauState {
  segtaus : list Q;
  segprobs : list Q;
  concordant : Z;
  discordant : Z;
  valid_pairs : Z;
  original_ties_overall : Z;
  predicted_ties_overall : Z;
  pairs_overall : Z;
  sentences_with_ties : Z;
  predicted_ties : option Z;
  predicted_rank_vector : option Ranking
}.

Section library_functions.

Variable log : Q -> Q.
Variable sqrt : Q -> Q.
Variable erfc : Q -> Q.

(** Truth value of an object that is [None] or a float. *)
Definition truthy_opt (v : option Q) : bool :=
  match v with
  | None => false
  | Some q => truthy (VFloat q)
  end.

(** One iteration of the segment loop of [kendall_tau_set].  The callee gets
    its own copy of the keyword dictionary.  In [if segtau and segprob] each
    operand is [None] (false) or a float (false when it is zero); when the
    test passes both are floats and are appended. *)
Definition tau_set_step (kwargs : gmap string pyval) (st : tau_state)
    (seg : Ranking * Ranking) : result tau_state :=
  let '(predicted_rank_vector, original_rank_vector) := seg in
  res ← segment.kendall_tau sqrt erfc predicted_rank_vector original_rank_vector kwargs;
  let segtau := segment.tau res in
  let segprob := segment.prob res in
  let keep := truthy_opt segtau && truthy_opt segprob in
  let segtaus :=
    if keep then segtaus st ++ option_list segtau else segtaus st in
  let segprobs :=
    if keep then segprobs st ++ option_list segprob else segprobs st in
  let predicted_ties := segment.predicted_ties res in
  mret (mkTauState segtaus segprobs
          (concordant st + segment.concordant_count res)
          (discordant st + segment.discordant_count res)
          (valid_pairs st + segment.all_pairs_count res)
          (original_ties_overall st + segment.original_ties res)
          (predicted_ties_overall st + predicted_ties)
          (pairs_overall st + segment.pairs res)
          (if (predicted_ties >? 0)%Z
           then sentences_with_ties st + 1 else sentences_with_ties st)
          (Some predicted_ties)
          (Some predicted_rank_vector))%Z.

Definition kendall_tau_set (predicted_rank_vectors original_rank_vectors : list Ranking)
    (kwargs : gmap string pyval) : result stats :=
  st ← for_each (tau_set_step kwargs)
                (zip predicted_rank_vectors original_rank_vectors)
                (mkTauState [] [] 0 0 0 0 0 0 0 None None);
  tau ← py_div (1 * inject_Z (concordant st - discordant st))
               (inject_Z (concordant st + discordant st));
  let prob := segment.kendall_tau_prob sqrt erfc tau (valid_pairs st) in
  let avg_seg_tau := np_average (segtaus st) in
  let avg_seg_prob := np_product (segprobs st) in
  predicted_ties ←
    match predicted_ties st with Some v => Ok v | None => Raise NameError end;
  predicted_ties_avg ←
    py_div (100 * inject_Z predicted_ties) (inject_Z (pairs_overall st));
  predicted_rank_vector ←
    match predicted_rank_vector st with Some v => Ok v | None => Raise NameError end;
  sentence_ties_avg ←
    py_div (100 * inject_Z (sentences_with_ties st))
           (inject_Z (Z.of_nat (length (ranks predicted_rank_vector))));
  mret (mkStats tau prob avg_seg_tau avg_seg_prob
          (concordant st) (discordant st) (valid_pairs st) (pairs_overall st)
          (original_ties_overall st) (predicted_ties_overall st)
          predicted_ties_avg (sentences_with_ties st) sentence_ties_avg).

(** One iteration of the segment loop of [mrr]: [reciprocal_rank] is called
    without keyword arguments, so the ones given to [mrr] are not passed
    on. *)
Definition mrr_step (reciprocal_ranks : list Q) (seg : Ranking * Ranking)
  : result (list Q) :=
  let '(predicted_rank_vector, original_rank_vector) := seg in
  reciprocal_rank ←
    segment.reciprocal_rank predicted_rank_vector original_rank_vector ∅;
  mret (reciprocal_ranks ++ [reciprocal_rank]).

(** [mrr]: the value stored under ['mrr']; [None] is [nan]. *)
Definition mrr (predicted_rank_vectors original_rank_vectors : list Ranking)
    (kwargs : gmap string pyval) : result (option Q) :=
  reciprocal_ranks ←
    for_each mrr_step (zip predicted_rank_vectors original_rank_vectors) [];
  mret (np_average reciprocal_ranks).

(** The inner loop of [avg_predicted_ranked]: the gold ranks of the items
    whose predicted rank is the best one. *)
Definition mapped_original_ranks (original_rank_vector predicted_rank_vector : list Q)
    (best_predicted_rank : Q) : list Q :=
  foldl (fun mapped_original_ranks (pair : Q * Q) =>
           let '(original_rank, predicted_rank) := pair in
           if Qeq_bool predicted_rank best_predicted_rank
           then mapped_original_ranks ++ [original_rank]
           else mapped_original_ranks)
        [] (zip original_rank_vector predicted_rank_vector).

(** One iteration of the segment loop of [avg_predicted_ranked]. *)
Definition avg_predicted_ranked_step (original_ranks : list Q)
    (seg : Ranking * Ranking) : result (list Q) :=
  let '(predicted_rank_vector, original_rank_vector) := seg in
  predicted_rank_vector ←
    Ranking_normalize predicted_rank_vector {[ "ties" := VStr "ceiling" ]};
  original_rank_vector ←
    Ranking_normalize original_rank_vector {[ "ties" := VStr "ceiling" ]};
  best_predicted_rank ← py_min (ranks predicted_rank_vector);
  worst ← py_max (mapped_original_ranks (ranks original_rank_vector)
                                        (ranks predicted_rank_vector)
                                        best_predicted_rank);
  mret (original_ranks ++ [worst]).

(** [avg_predicted_ranked]: the value stored under ['avg_predicted_ranked'];
    [None] is [nan]. *)
Definition avg_predicted_ranked
    (predicted_rank_vectors original_rank_vectors : list Ranking)
    (kwargs : gmap string pyval) : result (option Q) :=
  original_ranks ←
    for_each avg_predicted_ranked_step
             (zip predicted_rank_vectors original_rank_vectors) [];
  mret (np_average original_ranks).

(** The state of the segment loop of [avg_ndgc_err]: the function's keyword
    dictionary (which [setdefault] writes to) and the two result lists. *)
Record ndgc_state : Type := mkNdgcState {
  ndgc_kwargs : gmap string pyval;
  ndgc_list : list Q;
  err_list : list Q
}.

Definition avg_ndgc_err_step (st : ndgc_state) (seg : Ranking * Ranking)
  : result ndgc_state :=
  let '(predicted_rank_vector, original_rank_vector) := seg in
  let '(k, kwargs) :=
    setdefault (ndgc_kwargs st) "k"
               (VInt (Z.of_nat (length (ranks predicted_rank_vector)))) in
  '(ndgc, err) ← segment.ndgc_err log predicted_rank_vector original_rank_vector k;
  mret (mkNdgcState kwargs (ndgc_list st ++ [ndgc]) (err_list st ++ [err])).

(** [avg_ndgc_err]: the pair is the dictionary [{'ndgc': ..., 'err': ...}]. *)
Definition avg_ndgc_err (predicted_rank_vectors original_rank_vectors : list Ranking)
    (kwargs : gmap string pyval) : result (option Q * option Q) :=
  st ← for_each avg_ndgc_err_step
                (zip predicted_rank_vectors original_rank_vectors)
                (mkNdgcState kwargs [] []);
  let avg_ndgc := np_average (ndgc_list st) in
  let avg_err := np_average (err_list st) in
  mret (avg_ndgc, avg_err).

End library_functions.

End set.

(** ** Specification devices *)

(** The rank that the loop of [normalize], run over the groups [todo] from
    slot counter [c], leaves at a position holding the raw value [x]: the
    value computed for the last group equal to [x] ([None] when no group of
    [todo] equals [x], so the position keeps what it held). *)
Fixpoint rank_of (ranking_list : list Q) (ties_handling : pyval)
    (todo : list Q) (c : Q) (x : Q) : option Q :=
  match todo with
  | [] => None
  | g :: todo' =>
      let '(v, next) := _handle_tie ranking_list g (c + 1) ties_handling in
      match rank_of ranking_list ties_handling todo' next x with
      | Some v' => Some v'
      | None => if Qeq_bool g x then Some v else None
      end
  end.

(** The tie policy a call of [normalize] with [kwargs] works under. *)
Definition ties_of (kwargs : gmap string pyval) : pyval :=
  fst (setdefault kwargs "ties" (VStr "minimize")).

(** Item [i] is a top pick of the rank vector [v]: it holds a minimum value. *)
Definition is_top (v : list Q) (i : nat) : Prop :=
  exists x, v !! i = Some x /\ Forall (fun y => x <= y) v.

(** Two rank vectors have a top pick in common. *)
Definition top_picks_coincide (predicted original : list Q) : Prop :=
  exists i, is_top predicted i /\ is_top original i.

(** The policy [reciprocal_rank] and [kendall_tau] normalise under. *)
Definition segment_ties_of (kwargs : gmap string pyval) : pyval :=
  fst (setdefault kwargs "ties" (VStr "ceiling")).

(** C8 as the specification words it: the reciprocal rank is 1 exactly when
    the normalised vectors have a top pick in common. *)
Definition reciprocal_rank_unit_iff_top_picks_coincide
    (predicted_rank_vector original_rank_vector : Ranking)
    (kwargs : gmap string pyval) : Prop :=
  forall rr predicted original,
    segment.reciprocal_rank predicted_rank_vector original_rank_vector kwargs = Ok rr ->
    normalize (ranks predicted_rank_vector)
              {[ "ties" := segment_ties_of kwargs ]} = Ok predicted ->
    normalize (ranks original_rank_vector)
              {[ "ties" := segment_ties_of kwargs ]} = Ok original ->
    (rr == 1 <-> top_picks_coincide predicted original).

(** The discounted gains [g / log(j + 2)] from position [j] on, for a
    logarithm that is not zero there. *)
Fixpoint discount_terms (log : Q -> Q) (j : nat) (gains : list Q) : list Q :=
  match gains with
  | [] => []
  | g :: rest =>
      g / log (inject_Z (Z.of_nat j) + 2) :: discount_terms log (S j) rest
  end.

(** [NDCG] from the two cuts of the gain array, as [ndgc_err] combines them. *)
Definition ndcg_of (log : Q -> Q) (cut ideal_cut : list Q) : Q :=
  let dcg := py_sum (discount_terms log 0 cut) in
  let ideal_dcg := py_sum (discount_terms log 0 ideal_cut) in
  if truthy (VFloat ideal_dcg) then dcg / ideal_dcg else 1.

(** The cut-off [ndgc_err] works with for a vector of [n] items. *)
Definition cutoff (k : pyval) (n : nat) : pyval :=
  if negb (truthy k) then VInt (Z.of_nat n) else k.

(** [ndgc_err] on every segment with one and the same cut-off [k]. *)
Fixpoint ndgc_err_all (log : Q -> Q) (k : pyval) (segs : list (Ranking * Ranking))
  : result (list (Q * Q)) :=
  match segs with
  | [] => Ok []
  | (p, o) :: segs' =>
      r ← segment.ndgc_err log p o k;
      rs ← ndgc_err_all log k segs';
      mret (r :: rs)
  end.

(** [kendall_tau] on every segment, in order, with the same options. *)
Fixpoint kendall_tau_all (sqrt erfc : Q -> Q) (kwargs : gmap string pyval)
    (segs : list (Ranking * Ranking)) : result (list segment.Result) :=
  match segs with
  | [] => Ok []
  | (p, o) :: segs' =>
      r ← segment.kendall_tau sqrt erfc p o kwargs;
      rs ← kendall_tau_all sqrt erfc kwargs segs';
      mret (r :: rs)
  end.

(** The sum of an integer field over the per-segment results. *)
Definition total (field : segment.Result -> Z) (rs : list segment.Result) : Z :=
  foldr (fun r acc => (field r + acc)%Z) 0%Z rs.

(** The number of items of [l] that are smaller than [x], at most [x], and
    the number of distinct values of [l] smaller than [x]. *)
Fixpoint lt_count (l : list Q) (x : Q) : nat :=
  match l with
  | [] => O
  | y :: rest => if Qltb y x then S (lt_count rest x) else lt_count rest x
  end.

Fixpoint le_count (l : list Q) (x : Q) : nat :=
  match l with
  | [] => O
  | y :: rest => if Qle_bool y x then S (le_count rest x) else le_count rest x
  end.

Definition distinct_lt (l : list Q) (x : Q) : nat :=
  length (List.filter (fun g => Qltb g x) (sorted_set l)).

(** A number of items as a float. *)
Definition of_nat (n : nat) : Q := inject_Z (Z.of_nat n).

(** The policies under which a group of tied items takes as many rank slots
    as it has items. *)
Definition full_slot (ties_handling : pyval) : bool :=
  is_str ties_handling "floor" || is_str ties_handling "ceiling"
  || is_str ties_handling "middle".

(** The rank of a group of [k] items with [c] items before it, under a
    policy of [full_slot]. *)
Definition slot_rank (ties_handling : pyval) (c k : Q) : Q :=
  if is_str ties_handling "floor" then c + 1
  else if is_str ties_handling "ceiling" then c + k
  else c + (k + 1) / 2.

(** Every item of [l] equals a group of [todo] or is smaller than all of
    them. *)
Definition covers (l todo : list Q) : Prop :=
  Forall (fun y => Exists (fun g => g == y) todo \/ Forall (fun g => y < g) todo) l.

(** The number of distinct values of [l] smaller than [x], counted on the
    vector itself: an item counts when it is smaller than [x] and no later
    item equals it. *)
Fixpoint distinct_lt_rec (l : list Q) (x : Q) : nat :=
  match l with
  | [] => O
  | a :: rest =>
      ((if Qltb a x && negb (existsb (Qeq_bool a) rest) then 1 else 0)
       + distinct_lt_rec rest x)%nat
  end.

(** Two vectors of the same length rank their items alike: the items at any
    two positions compare the same way in both. *)
Definition same_order (l l' : list Q) : Prop :=
  length l = length l'
  /\ forall i j x y x' y',
       l !! i = Some x -> l !! j = Some y ->
       l' !! i = Some x' -> l' !! j = Some y' ->
       (x < y <-> x' < y').

(** The same, by rows: for each position, the comparison of every item with
    the item at that position. *)
Definition same_order_rows (l l' : list Q) : Prop :=
  Forall2 (fun x x' =>
             Forall2 (fun y y' => (y < x <-> y' < x') /\ (x < y <-> x' < y')) l l')
          l l'.

(** No two items of the vector are equal. *)
Fixpoint tie_free (l : list Q) : Prop :=
  match l with
  | [] => True
  | a :: rest => Forall (fun y => ~ a == y) rest /\ tie_free rest
  end.

(** The value of a keyword argument, or its default. *)
Definition option_of (kwargs : gmap string pyval) (key : string) (default : pyval)
  : pyval :=
  match kwargs !! key with
  | Some v => v
  | None => default
  end.

(** The pairs that [kendall_tau] classifies, from the two normalised vectors
    and the options. *)
Definition tau_pairs (kwargs : gmap string pyval) (predicted original : list Q)
  : list ((Q * Q) * (Q * Q)) :=
  let inv : Q :=
    if truthy (option_of kwargs "invert_ranks" (VBool false)) then -1 else 1 in
  zip (map (fun '(i, j) => (inv * i, inv * j)) (combinations2 original))
      (combinations2 predicted).

(** The counters of [kendall_tau] after its pair loop. *)
Definition tau_counters (kwargs : gmap string pyval) (predicted original : list Q)
  : segment.counters :=
  foldl (segment.pair_step (option_of kwargs "exclude_ties" (VBool true))
                           (option_of kwargs "penalize_predicted_ties" (VBool true)))
        (segment.mkCounters 0 0 0 0 0) (tau_pairs kwargs predicted original).

(** The number of unordered pairs of [n] items. *)
Definition pair_count (n : nat) : nat := (n * (n - 1) / 2)%nat.



(** A cut-off that is [None], a [bool] or an [int]. *)
Definition is_index (k : pyval) : bool :=
  match k with
  | VNone | VBool _ | VInt _ => true
  | VFloat _ | VStr _ => false
  end.

(** Lists of floats in ascending order, ties allowed. *)
Fixpoint nondecreasing (s : list Q) : Prop :=
  match s with
  | [] => True
  | x :: s' => Forall (Qle x) s' /\ nondecreasing s'
  end.

(** A segment whose predicted and gold vectors are non-empty and of the same
    length. *)
Definition comparable (seg : Ranking * Ranking) : Prop :=
  ranks (fst seg) <> [] /\ length (ranks (fst seg)) = length (ranks (snd seg)).

(** Two vectors of the same length rank their items in opposite order. *)
Definition reversed_order (l l' : list Q) : Prop :=
  length l = length l'
  /\ forall i j x y x' y',
       l !! i = Some x -> l !! j = Some y ->
       l' !! i = Some x' -> l' !! j = Some y' ->
       (x < y <-> y' < x').

(** A pair of compared values, gold first, that [kendall_tau] counts as
    concordant, and one that it counts as discordant, whatever the options:
    the gold values are no sentinel and differ, and the predicted values
    are in the same, respectively the opposite, order. *)
Definition concordant_pair (pp : (Q * Q) * (Q * Q)) : Prop :=
  let '((oi, oj), (pi, pj)) := pp in
  ~ oi == -1 /\ ~ oj == -1 /\ ~ oi == oj
  /\ (oi < oj <-> pi < pj) /\ (oj < oi <-> pj < pi).

Definition discordant_pair (pp : (Q * Q) * (Q * Q)) : Prop :=
  let '((oi, oj), (pi, pj)) := pp in
  ~ oi == -1 /\ ~ oj == -1 /\ ~ oi == oj
  /\ (oi < oj <-> pj < pi) /\ (oj < oi <-> pi < pj).

(** Strictly ascending lists of floats. *)
Fixpoint ascending (s : list Q) : Prop :=
  match s with
  | [] => True
  | x :: s' => Forall (Qlt x) s' /\ ascending s'
  end.

(** * Properties *)

(** ** Membership: Stdlib's [In] and stdpp's [∈] *)

Lemma In_elem {A : Type} (x : A) (l : list A) : In x l -> x ∈ l.
Proof. apply list_elem_of_In. Qed.

Lemma elem_In {A : Type} (x : A) (l : list A) : x ∈ l -> In x l.
Proof. apply list_elem_of_In. Qed.

(** ** The exception monad *)

Lemma bind_Ok {A B : Type} (a : A) (f : A -> result B) : (Ok a ≫= f) = f a.
Proof. reflexivity. Qed.

Lemma bind_Raise {A B : Type} (e : exn) (f : A -> result B) :
  (Raise e ≫= f) = Raise e.
Proof. reflexivity. Qed.

(** ** Comparisons *)

Lemma Qltb_lt x y : Qltb x y = true <-> x < y.
Proof.
  unfold Qltb. rewrite Qlt_alt. destruct (x ?= y); split; congruence.
Qed.

Lemma Qeq_bool_sym x y : Qeq_bool x y = Qeq_bool y x.
Proof.
  destruct (Qeq_bool x y) eqn:E, (Qeq_bool y x) eqn:E'; try reflexivity.
  - apply Qeq_bool_iff in E. symmetry in E. apply Qeq_bool_iff in E. congruence.
  - apply Qeq_bool_iff in E'. symmetry in E'. apply Qeq_bool_iff in E'. congruence.
Qed.

Lemma Qeq_bool_proper g x y : x == y -> Qeq_bool g x = Qeq_bool g y.
Proof.
  intros Hxy.
  destruct (Qeq_bool g x) eqn:E, (Qeq_bool g y) eqn:E'; try reflexivity.
  - apply Qeq_bool_iff in E. rewrite Hxy in E. apply Qeq_bool_iff in E. congruence.
  - apply Qeq_bool_iff in E'. rewrite <- Hxy in E'. apply Qeq_bool_iff in E'. congruence.
Qed.

(** ** The tie rule *)

Lemma handle_tie_bounds l g m t v next :
  _handle_tie l g m t = (v, next) -> m <= v /\ v <= next.
Proof.
  unfold _handle_tie.
  destruct (count l g <=? 1)%nat eqn:Hc.
  { intros [= <- <-]. split; apply Qle_refl. }
  apply Nat.leb_gt in Hc.
  assert (Hk : 2 <= inject_Z (Z.of_nat (count l g))).
  { change 2 with (inject_Z 2). rewrite <- Zle_Qle. lia. }
  revert Hk. generalize (inject_Z (Z.of_nat (count l g))). intros k Hk.
  assert (Hhalf : (k + 1) / 2 == (k + 1) * (1 # 2)) by reflexivity.
  repeat match goal with |- context [is_str ?a ?b] => destruct (is_str a b) end;
    intros [= <- <-]; rewrite ?Hhalf; split; lra.
Qed.

(** ** Assignment by index *)

Lemma assign_length out idxs v : length (assign out idxs v) = length out.
Proof.
  unfold assign. revert out.
  induction idxs as [|i idxs IH]; intros out; simpl; [reflexivity|].
  rewrite IH. apply length_insert.
Qed.

Lemma assign_below l g v : forall s out k,
  (k < s)%nat -> assign out (indexes_from s l g) v !! k = out !! k.
Proof.
  induction l as [|r rest IH]; intros s out k Hk; simpl; [reflexivity|].
  destruct (Qeq_bool g r).
  - unfold assign. simpl. fold (assign (<[s:=v]> out) (indexes_from (S s) rest g) v).
    rewrite IH by lia. apply list_lookup_insert_ne. lia.
  - apply IH. lia.
Qed.

Lemma assign_indexes_lookup l g v : forall s out i x,
  l !! i = Some x -> (s + i < length out)%nat ->
  assign out (indexes_from s l g) v !! (s + i)%nat
  = if Qeq_bool g x then Some v else out !! (s + i)%nat.
Proof.
  induction l as [|r rest IH]; intros s out i x Hl Hlen; [discriminate|].
  destruct i as [|i]; simpl in Hl.
  - injection Hl as ->. rewrite Nat.add_0_r in *. simpl.
    destruct (Qeq_bool g x).
    + unfold assign. simpl. fold (assign (<[s:=v]> out) (indexes_from (S s) rest g) v).
      rewrite assign_below by lia. apply list_lookup_insert_eq. exact Hlen.
    + apply assign_below. lia.
  - replace (s + S i)%nat with (S s + i)%nat in * by lia. cbn [indexes_from].
    destruct (Qeq_bool g r).
    + unfold assign. cbn [foldl].
      fold (assign (<[s:=v]> out) (indexes_from (S s) rest g) v).
      rewrite (IH (S s) _ i x Hl) by (rewrite length_insert; exact Hlen).
      rewrite list_lookup_insert_ne by lia. reflexivity.
    + apply IH; assumption.
Qed.

(** ** The normalisation loop *)

Lemma normalize_loop_length l t : forall todo out c,
  length (normalize_loop l t todo out c) = length out.
Proof.
  induction todo as [|g todo IH]; intros out c; simpl; [reflexivity|].
  destruct (_handle_tie l g (c + 1) t) as [v next].
  rewrite IH. apply assign_length.
Qed.

Lemma normalize_loop_lookup l t : forall todo out c i x,
  l !! i = Some x -> (i < length out)%nat ->
  normalize_loop l t todo out c !! i
  = match rank_of l t todo c x with
    | Some v => Some v
    | None => out !! i
    end.
Proof.
  induction todo as [|g todo IH]; intros out c i x Hl Hlen; simpl; [reflexivity|].
  destruct (_handle_tie l g (c + 1) t) as [v next].
  rewrite (IH _ _ i x Hl) by (rewrite assign_length; exact Hlen).
  destruct (rank_of l t todo next x); [reflexivity|].
  unfold indexes.
  pose proof (assign_indexes_lookup l g v 0 out i x Hl Hlen) as Ha.
  cbn [Nat.add] in Ha. rewrite Ha.
  destruct (Qeq_bool g x); reflexivity.
Qed.

(** ** The rank assigned to a raw value *)

Lemma rank_of_lower l t : forall todo c x v,
  rank_of l t todo c x = Some v -> c + 1 <= v.
Proof.
  induction todo as [|g todo IH]; intros c x v; simpl; [discriminate|].
  destruct (_handle_tie l g (c + 1) t) as [w next] eqn:Ht.
  apply handle_tie_bounds in Ht as [Hw Hn].
  destruct (rank_of l t todo next x) as [v'|] eqn:Hr.
  - intros [= <-]. apply IH in Hr. lra.
  - destruct (Qeq_bool g x); [|discriminate]. intros [= <-]. exact Hw.
Qed.

Lemma rank_of_elem l t : forall todo c x v,
  rank_of l t todo c x = Some v -> Exists (fun g => g == x) todo.
Proof.
  induction todo as [|g todo IH]; intros c x v; simpl; [discriminate|].
  destruct (_handle_tie l g (c + 1) t) as [w next].
  destruct (rank_of l t todo next x) as [v'|] eqn:Hr.
  - intros _. apply Exists_cons_tl. eapply IH, Hr.
  - destruct (Qeq_bool g x) eqn:E; [|discriminate].
    intros _. apply Exists_cons_hd. apply Qeq_bool_iff, E.
Qed.

Lemma rank_of_found l t : forall todo c x,
  Exists (fun g => g == x) todo -> is_Some (rank_of l t todo c x).
Proof.
  induction todo as [|g todo IH]; intros c x Hex; simpl.
  - inversion Hex.
  - destruct (_handle_tie l g (c + 1) t) as [w next].
    destruct (rank_of l t todo next x) as [v'|] eqn:Hr; [eauto|].
    apply Exists_cons in Hex as [Hg|Hex].
    + apply Qeq_bool_iff in Hg. rewrite Hg. eauto.
    + apply (IH next) in Hex. rewrite Hr in Hex. destruct Hex; discriminate.
Qed.

Lemma rank_of_proper l t : forall todo c x y,
  x == y -> rank_of l t todo c x = rank_of l t todo c y.
Proof.
  induction todo as [|g todo IH]; intros c x y Hxy; simpl; [reflexivity|].
  destruct (_handle_tie l g (c + 1) t) as [w next].
  rewrite (IH next x y Hxy), (Qeq_bool_proper g x y Hxy). reflexivity.
Qed.

Lemma rank_of_mono l t : forall todo c x y vx vy,
  ascending todo -> x < y ->
  rank_of l t todo c x = Some vx -> rank_of l t todo c y = Some vy ->
  vx < vy.
Proof.
  induction todo as [|g todo IH]; intros c x y vx vy Hasc Hxy; simpl; [discriminate|].
  destruct Hasc as [Hg Hasc].
  destruct (_handle_tie l g (c + 1) t) as [w next] eqn:Ht.
  apply handle_tie_bounds in Ht as [Hw Hn].
  destruct (rank_of l t todo next y) as [vy'|] eqn:Hy.
  - intros Hx [= <-].
    destruct (rank_of l t todo next x) as [vx'|] eqn:Hx'.
    + injection Hx as <-. eapply IH; eauto.
    + destruct (Qeq_bool g x); [|discriminate]. injection Hx as <-.
      apply rank_of_lower in Hy. lra.
  - destruct (Qeq_bool g y) eqn:Egy; [|intros _; discriminate].
    apply Qeq_bool_iff in Egy. intros Hx _. exfalso.
    destruct (rank_of l t todo next x) as [vx'|] eqn:Hx'.
    + apply rank_of_elem in Hx'. apply Exists_exists in Hx' as (g' & Hin & Hg').
      rewrite Forall_forall in Hg. apply Hg in Hin. lra.
    + destruct (Qeq_bool g x) eqn:Egx; [|discriminate].
      apply Qeq_bool_iff in Egx. lra.
Qed.

(** ** [sorted(set(...))] *)

Lemma insert_rank_elem x : forall s y,
  Exists (fun g => g == y) (insert_rank x s)
  <-> x == y \/ Exists (fun g => g == y) s.
Proof.
  induction s as [|z s IH]; intros y; simpl.
  - rewrite Exists_cons. tauto.
  - destruct (x ?= z) eqn:E.
    + apply Qeq_alt in E. rewrite !Exists_cons. split; [tauto|].
      intros [Hx|H]; [|exact H]. left. rewrite <- E. exact Hx.
    + rewrite !Exists_cons. tauto.
    + rewrite !Exists_cons, IH. tauto.
Qed.

Lemma sorted_set_elem l x :
  In x l -> Exists (fun g => g == x) (sorted_set l).
Proof.
  induction l as [|a l IH]; simpl; [tauto|].
  intros [->|Hin]; apply insert_rank_elem.
  - left. reflexivity.
  - right. apply IH, Hin.
Qed.

Lemma insert_rank_Forall a x s :
  a < x -> Forall (Qlt a) s -> Forall (Qlt a) (insert_rank x s).
Proof.
  intros Hax. induction 1 as [|z s Hz Hs IH]; simpl.
  - repeat constructor. exact Hax.
  - destruct (x ?= z); repeat constructor; assumption.
Qed.

Lemma insert_rank_ascending x : forall s,
  ascending s -> ascending (insert_rank x s).
Proof.
  induction s as [|z s IH]; simpl.
  - intros _. split; [constructor | exact I].
  - intros [Hz Hs]. destruct (x ?= z) eqn:E; simpl.
    + split; assumption.
    + apply Qlt_alt in E. split; [|split; assumption].
      constructor; [exact E|].
      eapply Forall_impl; [exact Hz|]. intros w Hw. simpl in Hw. lra.
    + apply Qgt_alt in E. split; [|apply IH, Hs].
      apply insert_rank_Forall; assumption.
Qed.

Lemma sorted_set_ascending l : ascending (sorted_set l).
Proof.
  induction l as [|a l IH]; simpl; [exact I|].
  apply insert_rank_ascending, IH.
Qed.

(** ** [normalize] *)

Lemma count_zero_ranks out :
  Forall (fun v => 1 <= v) out -> count out 0 = 0%nat.
Proof.
  induction 1 as [|v out Hv _ IH]; simpl; [reflexivity|].
  destruct (Qeq_bool v 0) eqn:E; [|exact IH].
  apply Qeq_bool_iff in E. lra.
Qed.

(** What [normalize] computes: it returns, and position [i] of the result
    holds the rank assigned to the group of the raw value at [i]. *)
Lemma normalize_spec l kwargs :
  exists out,
    normalize l kwargs = Ok out
    /\ length out = length l
    /\ forall i x, l !! i = Some x ->
         exists v, out !! i = Some v
                   /\ rank_of l (ties_of kwargs) (sorted_set l) 0 x = Some v.
Proof.
  unfold normalize, ties_of.
  destruct (setdefault kwargs "ties" (VStr "minimize")) as [t kw'].
  cbn [fst].
  set (out := normalize_loop l t (sorted_set l) (replicate (length l) 0) 0).
  assert (Hlen : length out = length l).
  { unfold out. rewrite normalize_loop_length. apply length_replicate. }
  assert (Hlook : forall i x, l !! i = Some x ->
            exists v, out !! i = Some v /\ rank_of l t (sorted_set l) 0 x = Some v).
  { intros i x Hl.
    assert (Hi : (i < length l)%nat) by (eapply lookup_lt_Some; exact Hl).
    unfold out.
    rewrite (normalize_loop_lookup l t _ _ _ i x Hl)
      by (rewrite length_replicate; exact Hi).
    destruct (rank_of_found l t (sorted_set l) 0 x) as [v Hv].
    { apply sorted_set_elem. apply elem_In.
      eapply list_elem_of_lookup_2; exact Hl. }
    rewrite Hv. eauto. }
  assert (Hpos : Forall (fun v => 1 <= v) out).
  { apply Forall_lookup. intros i v Hv.
    assert (Hi : (i < length l)%nat).
    { rewrite <- Hlen. eapply lookup_lt_Some; exact Hv. }
    destruct (lookup_lt_is_Some_2 l i Hi) as [x Hx].
    destruct (Hlook i x Hx) as (v' & Hv' & Hr).
    assert (v = v') by congruence. subst v'.
    apply rank_of_lower in Hr. lra. }
  exists out. rewrite (count_zero_ranks out Hpos). cbn. auto.
Qed.

Lemma normalize_ranks_at_least_one l kwargs out :
  normalize l kwargs = Ok out -> Forall (fun v => 1 <= v) out.
Proof.
  intros Hn. destruct (normalize_spec l kwargs) as (out' & Hn' & Hlen & Hlook).
  assert (out' = out) by congruence. subst out'.
  apply Forall_lookup. intros i v Hv.
  assert (Hi : (i < length l)%nat).
  { rewrite <- Hlen. eapply lookup_lt_Some; exact Hv. }
  destruct (lookup_lt_is_Some_2 l i Hi) as [x Hx].
  destruct (Hlook i x Hx) as (v' & Hv' & Hr).
  assert (v = v') by congruence. subst v'.
  apply rank_of_lower in Hr. lra.
Qed.

(** C10: [normalize] is total and keeps the shape: for every input vector and
    every keyword dictionary (so every tie policy) it returns a vector of the
    same length whose values are all at least 1, so that the final assertion
    [normalized_rank.count(0) == 0] holds; the empty vector is mapped to the
    empty vector. *)
Theorem normalize_total_shape_preserving :
  forall (ranking_list : list Q) (kwargs : gmap string pyval),
    (exists normalized_rank,
        normalize ranking_list kwargs = Ok normalized_rank
        /\ length normalized_rank = length ranking_list
        /\ Forall (fun v => 1 <= v) normalized_rank
        /\ count normalized_rank 0 = 0%nat)
    /\ normalize [] kwargs = Ok [].
Proof.
  intros l kwargs. split.
  - destruct (normalize_spec l kwargs) as (out & Hn & Hlen & _).
    exists out. pose proof (normalize_ranks_at_least_one l kwargs out Hn) as Hpos.
    repeat split; try assumption. apply count_zero_ranks, Hpos.
  - unfold normalize, setdefault. destruct (kwargs !! "ties"); reflexivity.
Qed.

(** C9: [normalize] preserves ties and strict order: whatever the tie policy,
    positions with equal raw values get equal ranks and a position with a
    strictly smaller raw value gets a strictly smaller rank. *)
Theorem normalize_order_preserving :
  forall (ranking_list : list Q) (kwargs : gmap string pyval)
         (normalized_rank : list Q) (i j : nat) (xi xj vi vj : Q),
    normalize ranking_list kwargs = Ok normalized_rank ->
    ranking_list !! i = Some xi -> ranking_list !! j = Some xj ->
    normalized_rank !! i = Some vi -> normalized_rank !! j = Some vj ->
    (xi == xj -> vi == vj) /\ (xi < xj -> vi < vj).
Proof.
  intros l kwargs out i j xi xj vi vj Hn Hxi Hxj Hvi Hvj.
  destruct (normalize_spec l kwargs) as (out' & Hn' & _ & Hlook).
  assert (out' = out) by congruence. subst out'.
  destruct (Hlook i xi Hxi) as (vi' & Hvi' & Hri).
  destruct (Hlook j xj Hxj) as (vj' & Hvj' & Hrj).
  assert (vi' = vi) by congruence. assert (vj' = vj) by congruence. subst.
  split.
  - intros Heq. rewrite (rank_of_proper _ _ _ _ xi xj Heq) in Hri.
    assert (vi = vj) by congruence. subst. reflexivity.
  - intros Hlt. eapply rank_of_mono; eauto using sorted_set_ascending.
Qed.

Lemma normalize_order_preserving_witness :
  normalize [3; 1; 1; 2] (ties "middle") = Ok [4; 3 # 2; 3 # 2; 3]
  /\ ((1 == 1 -> 3 # 2 == 3 # 2) /\ (1 < 2 -> 3 # 2 < 3))
  /\ ((1 == 3 -> 3 # 2 == 4) /\ (1 < 3 -> 3 # 2 < 4)).
Proof.
  split; [vm_compute; reflexivity|]. split.
  - split.
    + apply (normalize_order_preserving [3; 1; 1; 2] (ties "middle")
               [4; 3 # 2; 3 # 2; 3] 1 2 1 1 (3 # 2) (3 # 2));
        vm_compute; reflexivity.
    + apply (normalize_order_preserving [3; 1; 1; 2] (ties "middle")
               [4; 3 # 2; 3 # 2; 3] 1 3 1 2 (3 # 2) 3);
        vm_compute; reflexivity.
  - apply (normalize_order_preserving [3; 1; 1; 2] (ties "middle")
             [4; 3 # 2; 3 # 2; 3] 1 0 1 3 (3 # 2) 4);
      vm_compute; reflexivity.
Defined.

(** C7: the four tie policies on the raw vector [1,1,2,3]. *)
Theorem normalize_tie_policies_scenario :
  normalize [1; 1; 2; 3] (ties "ceiling") = Ok [2; 2; 3; 4]
  /\ normalize [1; 1; 2; 3] (ties "floor") = Ok [1; 1; 3; 4]
  /\ normalize [1; 1; 2; 3] (ties "minimize") = Ok [1; 1; 2; 3]
  /\ normalize [1; 1; 2; 3] (ties "middle") = Ok [3 # 2; 3 # 2; 3; 4].
Proof. repeat split; vm_compute; reflexivity. Qed.

(** C5 (evaluation of the code): [invert] never reaches the normaliser.  The
    keyword dictionary is passed as a second positional argument, which the
    signature of [normalize] rejects, so every call raises [TypeError];
    [Ranking.inverse] goes through [invert] and fails the same way. *)
Theorem invert_raises_TypeError :
  forall (ranking_list : list Q) (kwargs : gmap string pyval) (self : Ranking),
    invert ranking_list kwargs = Raise TypeError
    /\ Ranking_inverse self kwargs = Raise TypeError.
Proof.
  intros l kwargs self. split; [reflexivity|].
  unfold Ranking_inverse. destruct (setdefault kwargs "ties" (VStr "minimize")).
  reflexivity.
Qed.

(** ** [Ranking.normalize] *)

Lemma Ranking_init_tagged l t :
  Ranking_init l {[ "normalization" := t ]} = mkRanking l t.
Proof.
  unfold Ranking_init, setdefault.
  rewrite lookup_singleton_ne by discriminate.
  rewrite lookup_insert_ne by discriminate.
  rewrite lookup_singleton_eq. cbn [truthy negb].
  rewrite map_id. reflexivity.
Qed.

Lemma Ranking_normalize_spec self t :
  exists out,
    Ranking_normalize self {[ "ties" := t ]} = Ok (mkRanking out t)
    /\ normalize (ranks self) {[ "ties" := t ]} = Ok out
    /\ length out = length (ranks self)
    /\ Forall (fun v => 1 <= v) out.
Proof.
  destruct (normalize_spec (ranks self) {[ "ties" := t ]}) as (out & Hn & Hlen & _).
  exists out. repeat split; try assumption.
  - unfold Ranking_normalize, setdefault. rewrite lookup_singleton_eq.
    rewrite Hn, bind_Ok. cbn [mret result_ret].
    rewrite Ranking_init_tagged. reflexivity.
  - eapply normalize_ranks_at_least_one, Hn.
Qed.

(** ** [min] and [indexes] *)

Lemma foldl_min_spec xs : forall a,
  let m := foldl (fun m y => if Qltb y m then y else m) a xs in
  In m (a :: xs) /\ Forall (fun y => m <= y) (a :: xs).
Proof.
  induction xs as [|x xs IH]; intros a; simpl.
  - split; [auto|]. repeat constructor. apply Qle_refl.
  - destruct (Qltb x a) eqn:E.
    + apply Qltb_lt in E. destruct (IH x) as [Hin Hall]. simpl in Hin.
      split; [tauto|].
      apply Forall_cons in Hall as [Hx Hall].
      repeat constructor; try assumption. lra.
    + assert (a <= x).
      { destruct (Qlt_le_dec x a) as [Hlt|Hle]; [|exact Hle].
        apply Qltb_lt in Hlt. congruence. }
      destruct (IH a) as [Hin Hall]. simpl in Hin.
      split; [tauto|].
      apply Forall_cons in Hall as [Ha Hall].
      repeat constructor; try assumption. lra.
Qed.

Lemma py_min_spec l m :
  py_min l = Ok m -> In m l /\ Forall (fun y => m <= y) l.
Proof.
  destruct l as [|a xs]; [discriminate|]. intros [= <-]. apply foldl_min_spec.
Qed.

Lemma py_min_nonempty l : l <> [] -> exists m, py_min l = Ok m.
Proof. destruct l; [congruence|]. intros _. eexists. reflexivity. Qed.

Lemma indexes_from_spec l x : forall s i,
  In i (indexes_from s l x)
  <-> exists k y, i = (s + k)%nat /\ l !! k = Some y /\ Qeq_bool x y = true.
Proof.
  induction l as [|r rest IH]; intros s i; simpl.
  - split; [tauto|]. intros (k & y & _ & Hk & _). discriminate.
  - assert (Hrest : (exists k y, i = (S s + k)%nat /\ rest !! k = Some y
                                 /\ Qeq_bool x y = true)
                    <-> (exists k y, i = (s + S k)%nat /\ rest !! k = Some y
                                     /\ Qeq_bool x y = true)).
    { split; intros (k & y & -> & H); exists k, y; split; (lia || exact H). }
    destruct (Qeq_bool x r) eqn:E; simpl; rewrite IH, Hrest; split.
    + intros [<-|(k & y & -> & Hk & Hy)].
      * exists 0%nat, r. rewrite Nat.add_0_r. auto.
      * exists (S k), y. auto.
    + intros ([|k] & y & -> & Hk & Hy); simpl in Hk.
      * left. lia.
      * right. eauto.
    + intros (k & y & -> & Hk & Hy). exists (S k), y. auto.
    + intros ([|k] & y & -> & Hk & Hy); simpl in Hk.
      * injection Hk as ->. congruence.
      * eauto.
Qed.

Lemma indexes_spec l x i :
  In i (indexes l x) <-> exists y, l !! i = Some y /\ Qeq_bool x y = true.
Proof.
  unfold indexes. rewrite indexes_from_spec. split.
  - intros (k & y & -> & H). eauto.
  - intros (y & H). exists i, y. auto.
Qed.

Lemma py_getitem_Some {A : Type} (l : list A) (j : nat) (x : A) :
  l !! j = Some x -> py_getitem l j = Ok x.
Proof. unfold py_getitem. intros ->. reflexivity. Qed.

(** The comprehension [[v[index] for index in idxs]] when every index is in
    range. *)
Lemma collect_in_range (v : list Q) : forall idxs acc,
  Forall (fun i => (i < length v)%nat) idxs ->
  exists vals,
    for_each (fun acc index => x ← py_getitem v index; mret (acc ++ [x])) idxs acc
    = Ok (acc ++ vals)
    /\ Forall2 (fun i x => v !! i = Some x) idxs vals.
Proof.
  induction idxs as [|i idxs IH]; intros acc Hall; simpl.
  - exists []. rewrite app_nil_r. split; [reflexivity | constructor].
  - apply Forall_cons in Hall as [Hi Hall].
    destruct (lookup_lt_is_Some_2 v i Hi) as [x Hx].
    rewrite (py_getitem_Some v i x Hx). cbn.
    destruct (IH (acc ++ [x]) Hall) as (vals & Hrun & Hvals).
    exists (x :: vals). rewrite Hrun, <- app_assoc. split; [reflexivity|].
    constructor; assumption.
Qed.

(** ** [reciprocal_rank] *)

Lemma reciprocal_of_rank bp :
  1 <= bp ->
  py_div 1 bp = Ok (1 / bp)
  /\ 0 < 1 / bp /\ 1 / bp <= 1 /\ (1 / bp == 1 <-> bp == 1).
Proof.
  intros Hbp.
  assert (Hne : ~ bp == 0) by lra.
  split; [|split; [|split]].
  - unfold py_div. destruct (Qeq_bool bp 0) eqn:E; [|reflexivity].
    apply Qeq_bool_iff in E. contradiction.
  - apply Qlt_shift_div_l; lra.
  - apply Qle_shift_div_r; lra.
  - split; intros H.
    + pose proof (Qmult_div_r 1 bp Hne) as Hm. rewrite H in Hm. lra.
    + rewrite H. reflexivity.
Qed.

Lemma Forall2_lookup_value (v : list Q) idxs vals x :
  Forall2 (fun i y => v !! i = Some y) idxs vals ->
  In x vals -> exists i, In i idxs /\ v !! i = Some x.
Proof.
  induction 1 as [|i y idxs vals Hy _ IH]; simpl; [tauto|].
  intros [->|Hin]; [eauto|].
  destruct (IH Hin) as (j & Hj & Hv). eauto.
Qed.

Lemma Forall2_value_lookup (v : list Q) idxs vals i x :
  Forall2 (fun i y => v !! i = Some y) idxs vals ->
  In i idxs -> v !! i = Some x -> In x vals.
Proof.
  induction 1 as [|j y idxs vals Hy _ IH]; simpl; [tauto|].
  intros [->|Hin] Hv; [left; congruence | right; auto].
Qed.

(** What [reciprocal_rank] returns on non-empty vectors of equal length. *)
Lemma reciprocal_rank_spec :
  forall (predicted_rank_vector original_rank_vector : Ranking)
         (kwargs : gmap string pyval),
    ranks predicted_rank_vector <> [] ->
    length (ranks predicted_rank_vector) = length (ranks original_rank_vector) ->
    exists rr predicted original,
      segment.reciprocal_rank predicted_rank_vector original_rank_vector kwargs = Ok rr
      /\ normalize (ranks predicted_rank_vector)
                   {[ "ties" := segment_ties_of kwargs ]} = Ok predicted
      /\ normalize (ranks original_rank_vector)
                   {[ "ties" := segment_ties_of kwargs ]} = Ok original
      /\ 0 < rr /\ rr <= 1
      /\ (rr == 1 <->
          top_picks_coincide predicted original
          /\ Exists (fun v => v == 1) predicted).
Proof.
  intros p o kwargs Hne Hlen.
  unfold segment.reciprocal_rank, segment_ties_of.
  destruct (setdefault kwargs "ties" (VStr "ceiling")) as [t kw']. cbn [fst].
  destruct (Ranking_normalize_spec p t) as (pn & HRp & Hnp & Hlp & Hposp).
  destruct (Ranking_normalize_spec o t) as (on & HRo & Hno & Hlo & Hposo).
  rewrite HRp, !bind_Ok, HRo, !bind_Ok. cbn [ranks].
  assert (Hon : on <> []).
  { intros ->. simpl in Hlo. rewrite <- Hlen in Hlo.
    destruct (ranks p); [congruence | discriminate]. }
  destruct (py_min_nonempty on Hon) as [best Hbest]. rewrite Hbest, bind_Ok.
  apply py_min_spec in Hbest as [Hbin Hbmin].
  unfold Ranking_indexes. cbn [ranks].
  assert (Hrange : Forall (fun i => (i < length pn)%nat) (indexes on best)).
  { apply Forall_forall. intros i Hi. apply elem_In, indexes_spec in Hi.
    destruct Hi as (y & Hy & _). apply lookup_lt_Some in Hy. lia. }
  destruct (collect_in_range pn (indexes on best) [] Hrange) as (vals & Hrun & Hvals).
  rewrite Hrun, bind_Ok. cbn [app].
  assert (Hvne : vals <> []).
  { apply In_elem, list_elem_of_lookup in Hbin as [k Hk].
    assert (Hkin : In k (indexes on best)).
    { apply indexes_spec. exists best. split; [exact Hk|].
      apply Qeq_bool_iff. reflexivity. }
    intros ->. inversion Hvals as [Hnil|]. rewrite <- Hnil in Hkin. exact Hkin. }
  destruct (py_min_nonempty vals Hvne) as [bp Hbp]. rewrite Hbp, bind_Ok.
  apply py_min_spec in Hbp as [Hpin Hpmin].
  destruct (Forall2_lookup_value pn _ _ bp Hvals Hpin) as (ib & Hib & Hpb).
  assert (Hbp1 : 1 <= bp).
  { rewrite Forall_lookup in Hposp. exact (Hposp ib bp Hpb). }
  destruct (reciprocal_of_rank bp Hbp1) as (Hdiv & Hpos & Hle & Hone).
  exists (1 / bp), pn, on. rewrite Hdiv.
  repeat split; try assumption.
  - (* the value is 1: the best predicted rank among the gold-best items is 1 *)
    apply indexes_spec in Hib as (y & Hy & Hby). apply Qeq_bool_iff in Hby.
    exists ib. split.
    + exists bp. split; [exact Hpb|].
      eapply Forall_impl; [exact Hposp|]. intros w Hw. simpl in Hw.
      apply Hone in H. lra.
    + exists y. split; [exact Hy|].
      eapply Forall_impl; [exact Hbmin|]. intros w Hw. simpl in Hw. lra.
  - apply Exists_exists. exists bp. split.
    + eapply list_elem_of_lookup_2; exact Hpb.
    + apply Hone. assumption.
  - intros [(i & (x & Hx & Hxmin) & (y & Hy & Hymin)) Hex].
    apply Hone.
    apply Exists_exists in Hex as (u & Hu & Hu1).
    rewrite Forall_forall in Hxmin. pose proof (Hxmin u Hu) as Hxu.
    assert (Hx1 : 1 <= x).
    { rewrite Forall_lookup in Hposp. exact (Hposp i x Hx). }
    assert (Hyb : best == y).
    { rewrite Forall_forall in Hymin, Hbmin.
      pose proof (Hymin best (In_elem _ _ Hbin)) as H1.
      assert (Hyin : y ∈ on) by (eapply list_elem_of_lookup_2; exact Hy).
      pose proof (Hbmin y Hyin) as H2. simpl in H1, H2. lra. }
    assert (Hiin : In i (indexes on best)).
    { apply indexes_spec. exists y. split; [exact Hy|].
      apply Qeq_bool_iff. exact Hyb. }
    pose proof (Forall2_value_lookup pn _ _ i x Hvals Hiin Hx) as Hxin.
    rewrite Forall_forall in Hpmin.
    pose proof (Hpmin x (In_elem _ _ Hxin)) as Hbx. simpl in Hbx.
    lra.
Qed.

(** C8, as the code has it: on non-empty vectors of equal length
    [reciprocal_rank] returns a value in (0, 1], and the value is 1 exactly
    when predicted and gold share a top pick and that pick's normalised
    predicted rank is 1. *)
Theorem reciprocal_rank_bounds_and_unit :
  forall (predicted_rank_vector original_rank_vector : Ranking)
         (kwargs : gmap string pyval),
    ranks predicted_rank_vector <> [] ->
    length (ranks predicted_rank_vector) = length (ranks original_rank_vector) ->
    exists rr predicted original,
      segment.reciprocal_rank predicted_rank_vector original_rank_vector kwargs = Ok rr
      /\ normalize (ranks predicted_rank_vector)
                   {[ "ties" := segment_ties_of kwargs ]} = Ok predicted
      /\ normalize (ranks original_rank_vector)
                   {[ "ties" := segment_ties_of kwargs ]} = Ok original
      /\ 0 < rr /\ rr <= 1
      /\ (rr == 1 <->
          top_picks_coincide predicted original
          /\ Exists (fun v => v == 1) predicted).
Proof.
  intros p o kwargs Hne Hlen.
  destruct (reciprocal_rank_spec p o kwargs Hne Hlen)
    as (rr & pn & on & Hrr & Hp & Ho & Hpos & Hle & Hunit).
  exists rr, pn, on. auto 10.
Qed.

Lemma reciprocal_rank_bounds_and_unit_witness :
  ranks (Ranking_init [2; 1; 3] ∅) <> []
  /\ length (ranks (Ranking_init [2; 1; 3] ∅))
     = length (ranks (Ranking_init [3; 1; 2] ∅))
  /\ exists rr predicted original,
      segment.reciprocal_rank (Ranking_init [2; 1; 3] ∅) (Ranking_init [3; 1; 2] ∅) ∅
      = Ok rr
      /\ normalize (ranks (Ranking_init [2; 1; 3] ∅))
                   {[ "ties" := segment_ties_of ∅ ]} = Ok predicted
      /\ normalize (ranks (Ranking_init [3; 1; 2] ∅))
                   {[ "ties" := segment_ties_of ∅ ]} = Ok original
      /\ 0 < rr /\ rr <= 1
      /\ (rr == 1 <->
          top_picks_coincide predicted original
          /\ Exists (fun v => v == 1) predicted).
Proof.
  split; [discriminate|]. split; [reflexivity|].
  apply (reciprocal_rank_bounds_and_unit
           (Ranking_init [2; 1; 3] ∅) (Ranking_init [3; 1; 2] ∅) ∅).
  - discriminate.
  - reflexivity.
Defined.

(** C8, counterexample: predicted [1,1,2] against gold [1,2,3] under the
    default policy.  Item 0 is a top pick of both normalised vectors
    ([2,2,3] and [1,2,3]), yet the reciprocal rank is 1/2: the two items tied
    for the best predicted value share rank 2 under [ceiling]. *)
Lemma reciprocal_rank_tied_top_pick :
  ~ reciprocal_rank_unit_iff_top_picks_coincide
      (Ranking_init [1; 1; 2] ∅) (Ranking_init [1; 2; 3] ∅) ∅.
Proof.
  intros Hclaim.
  assert (Hrr : segment.reciprocal_rank (Ranking_init [1; 1; 2] ∅)
                  (Ranking_init [1; 2; 3] ∅) ∅ = Ok (1 # 2))
    by (vm_compute; reflexivity).
  assert (Hp : normalize (ranks (Ranking_init [1; 1; 2] ∅))
                 {[ "ties" := segment_ties_of ∅ ]} = Ok [2; 2; 3])
    by (vm_compute; reflexivity).
  assert (Ho : normalize (ranks (Ranking_init [1; 2; 3] ∅))
                 {[ "ties" := segment_ties_of ∅ ]} = Ok [1; 2; 3])
    by (vm_compute; reflexivity).
  destruct (Hclaim _ _ _ Hrr Hp Ho) as [_ Hback].
  assert (Hone : 1 # 2 == 1); [|discriminate Hone].
  apply Hback. exists 0%nat. split.
  - exists 2. split; [reflexivity|]. repeat constructor; discriminate.
  - exists 1. split; [reflexivity|]. repeat constructor; discriminate.
Qed.

(** ** [kendall_tau] *)


(** C1 (evaluation of the code): predicted [1,2,3] against gold [-1,1,2] with
    the default options.  The gold vector is normalised before the pairs are
    formed, so the sentinel -1 becomes rank 1 and the test for -1 never sees
    it: the two pairs that contain item 0 are counted as concordant. *)
Theorem kendall_tau_sentinel_pairs_counted :
  forall sqrt erfc : Q -> Q,
    let res := segment.kendall_tau sqrt erfc
                 (Ranking_init [1; 2; 3] ∅) (Ranking_init [-1; 1; 2] ∅) ∅ in
    Ranking_normalize (Ranking_init [-1; 1; 2] ∅) (ties "ceiling")
    = Ok (mkRanking [1; 2; 3] (VStr "ceiling"))
    /\ segment.concordant_count <$> res = Ok 3%Z
    /\ segment.discordant_count <$> res = Ok 0%Z
    /\ segment.all_pairs_count <$> res = Ok 3%Z
    /\ segment.pairs <$> res = Ok 3%Z.
Proof. intros sqrt erfc. repeat split; vm_compute; reflexivity. Qed.

(** ** [kendall_tau_set] *)

(** C3 (evaluation of the code): one segment, predicted [1,3,2] against gold
    [1,1,2].  Its tau is defined (two valid pairs, one concordant and one
    discordant, tau = 0), but [if segtau and segprob] reads the float 0.0 as
    false, so the segment is left out of the average, which is then the mean
    of an empty list. *)
Theorem kendall_tau_set_zero_tau_skipped :
  forall sqrt erfc : Q -> Q,
    let seg := segment.kendall_tau sqrt erfc
                 (Ranking_init [1; 3; 2] ∅) (Ranking_init [1; 1; 2] ∅) ∅ in
    let stats := set.kendall_tau_set sqrt erfc
                   [Ranking_init [1; 3; 2] ∅] [Ranking_init [1; 1; 2] ∅] ∅ in
    segment.all_pairs_count <$> seg = Ok 2%Z
    /\ segment.tau <$> seg = Ok (Some (0 # 2))
    /\ set.tau_avg_seg <$> stats = Ok None
    /\ set.tau_concordant <$> stats = Ok 1%Z
    /\ set.tau_discordant <$> stats = Ok 1%Z
    /\ set.tau <$> stats = Ok (0 # 2).
Proof. intros sqrt erfc. repeat split; vm_compute; reflexivity. Qed.

(** C4 (evaluation of the code): two segments, ([1,1],[1,1]) and
    ([1,3,2],[1,1,2]).  One of the four pairs is a predicted tie and one of
    the two segments has a predicted tie, so the claim gives 25 and 50.  The
    code divides the tie count of the last segment (0) by the pair total, and
    the number of segments with ties by the length of the last vector (3). *)
Theorem kendall_tau_set_tie_percentages :
  forall sqrt erfc : Q -> Q,
    let stats := set.kendall_tau_set sqrt erfc
                   [Ranking_init [1; 1] ∅; Ranking_init [1; 3; 2] ∅]
                   [Ranking_init [1; 1] ∅; Ranking_init [1; 1; 2] ∅] ∅ in
    set.tau_predicted_ties <$> stats = Ok 1%Z
    /\ set.tau_all_pairs <$> stats = Ok 4%Z
    /\ set.tau_sentence_ties <$> stats = Ok 1%Z
    /\ set.tau_predicted_ties_per <$> stats = Ok (0 # 4)
    /\ set.tau_sentence_ties_per <$> stats = Ok (100 # 3).
Proof. intros sqrt erfc. repeat split; vm_compute; reflexivity. Qed.

(** ** [ndgc_err] *)

Lemma py_div_ok x y : ~ y == 0 -> py_div x y = Ok (x / y).
Proof.
  intros Hy. unfold py_div. destruct (Qeq_bool y 0) eqn:E; [|reflexivity].
  apply Qeq_bool_iff in E. contradiction.
Qed.

Section positive_logarithm.

Variable log : Q -> Q.
Hypothesis log_pos : forall x, 1 < x -> 0 < log x.

Lemma log_position_pos (j : nat) : 0 < log (inject_Z (Z.of_nat j) + 2).
Proof.
  apply log_pos.
  assert (0 <= inject_Z (Z.of_nat j)).
  { change 0 with (inject_Z 0). rewrite <- Zle_Qle. lia. }
  lra.
Qed.

Lemma discounted_from_ok : forall gains j,
  segment.discounted_from log j gains = Ok (discount_terms log j gains).
Proof.
  induction gains as [|g rest IH]; intros j; simpl; [reflexivity|].
  rewrite py_div_ok by (pose proof (log_position_pos j); lra).
  rewrite bind_Ok, IH, bind_Ok. reflexivity.
Qed.

(** [ndgc_err] step by step, for a logarithm positive above 1. *)
Lemma ndgc_err_eval p o k rp ro gains cut ideal_cut :
  Ranking_normalize p (ties "ceiling") = Ok rp ->
  Ranking_normalize o (ties "ceiling") = Ok ro ->
  length (Ranking_integers rp) = length (Ranking_integers ro) ->
  segment._calculate_gains (Ranking_integers rp) (Ranking_integers ro) = Ok gains ->
  py_slice_to gains (cutoff k (length (Ranking_integers ro))) = Ok cut ->
  py_slice_to (rev (py_sort gains)) (cutoff k (length (Ranking_integers ro)))
  = Ok ideal_cut ->
  segment.ndgc_err log p o k
  = Ok (ndcg_of log cut ideal_cut, snd (segment.err_loop 0 gains (1, 0))).
Proof.
  intros Hp Ho Hlen Hg Hcut Hicut.
  unfold segment.ndgc_err. fold (ties "ceiling").
  rewrite Hp, bind_Ok, Ho, bind_Ok.
  fold (cutoff k (length (Ranking_integers ro))).
  rewrite Hlen, Nat.eqb_refl. cbn [negb].
  rewrite Hg, bind_Ok.
  destruct (segment.err_loop 0 gains (1, 0)) as [pstop err].
  rewrite Hcut, bind_Ok, discounted_from_ok, bind_Ok.
  unfold segment.idcg. rewrite Hicut, bind_Ok, discounted_from_ok, !bind_Ok.
  reflexivity.
Qed.

End positive_logarithm.

Lemma truthy_positive q : 0 < q -> truthy (VFloat q) = true.
Proof.
  intros Hq. cbn. destruct (Qeq_bool q 0) eqn:E; [|reflexivity].
  apply Qeq_bool_iff in E. lra.
Qed.

(** C2 (evaluation of the code): predicted [1,1] against gold [1,2].  The
    normalised integer predicted ranks are [2,2], not a permutation of 1..2;
    both gains are written to slot 1 and slot 0 keeps its initial 0.  The
    assertion [min(gains) >= 0] accepts the 0, and [ndgc_err] returns a value
    (with ERR = 1/8) instead of raising. *)
Theorem ndgc_err_duplicate_ranks_silent :
  forall log : Q -> Q,
    (forall x, 1 < x -> 0 < log x) ->
    Ranking_integers <$> Ranking_normalize (Ranking_init [1; 1] ∅) (ties "ceiling")
    = Ok [2; 2]%Z
    /\ segment._calculate_gains [2; 2]%Z [1; 2]%Z = Ok [0; 1 # 4]
    /\ exists ndcg err,
         segment.ndgc_err log (Ranking_init [1; 1] ∅) (Ranking_init [1; 2] ∅) VNone
         = Ok (ndcg, err)
         /\ err == 1 # 8.
Proof.
  intros log Hlog.
  split; [vm_compute; reflexivity|]. split; [vm_compute; reflexivity|].
  eexists _, _. split.
  - apply (ndgc_err_eval log Hlog _ _ VNone
             (mkRanking [2; 2] (VStr "ceiling")) (mkRanking [1; 2] (VStr "ceiling"))
             [0; 1 # 4] [0; 1 # 4] [1 # 4; 0]); vm_compute; reflexivity.
  - vm_compute. reflexivity.
Qed.

Lemma ndgc_err_duplicate_ranks_silent_witness :
  (forall x, 1 < x -> 0 < x - 1)
  /\ (Ranking_integers <$> Ranking_normalize (Ranking_init [1; 1] ∅) (ties "ceiling")
      = Ok [2; 2]%Z
      /\ segment._calculate_gains [2; 2]%Z [1; 2]%Z = Ok [0; 1 # 4]
      /\ exists ndcg err,
           segment.ndgc_err (fun x => x - 1)
             (Ranking_init [1; 1] ∅) (Ranking_init [1; 2] ∅) VNone
           = Ok (ndcg, err)
           /\ err == 1 # 8).
Proof.
  split; [intros x Hx; lra|].
  apply (ndgc_err_duplicate_ranks_silent (fun x => x - 1)).
  intros x Hx. lra.
Defined.

(** ** [avg_ndgc_err] *)

Lemma avg_ndgc_err_step_stored log kw nl el p o k0 :
  kw !! "k" = Some k0 ->
  set.avg_ndgc_err_step log (set.mkNdgcState kw nl el) (p, o)
  = r ← segment.ndgc_err log p o k0;
    mret (set.mkNdgcState kw (nl ++ [fst r]) (el ++ [snd r])).
Proof.
  intros Hk. unfold set.avg_ndgc_err_step, setdefault.
  cbn [set.ndgc_kwargs set.ndgc_list set.err_list]. rewrite Hk.
  destruct (segment.ndgc_err log p o k0) as [[n e]|ex]; reflexivity.
Qed.

Lemma avg_ndgc_err_step_default log kw nl el p o :
  kw !! "k" = None ->
  let k0 := VInt (Z.of_nat (length (ranks p))) in
  set.avg_ndgc_err_step log (set.mkNdgcState kw nl el) (p, o)
  = r ← segment.ndgc_err log p o k0;
    mret (set.mkNdgcState (<["k" := k0]> kw) (nl ++ [fst r]) (el ++ [snd r])).
Proof.
  intros Hk. unfold set.avg_ndgc_err_step, setdefault.
  cbn [set.ndgc_kwargs set.ndgc_list set.err_list]. rewrite Hk.
  cbn zeta.
  destruct (segment.ndgc_err log p o _) as [[n e]|ex]; reflexivity.
Qed.

(** Once the keyword dictionary holds [k], every further segment is evaluated
    with that value and the dictionary no longer changes. *)
Lemma avg_ndgc_err_loop_fixed_k log k0 : forall segs kw nl el,
  kw !! "k" = Some k0 ->
  for_each (set.avg_ndgc_err_step log) segs (set.mkNdgcState kw nl el)
  = rs ← ndgc_err_all log k0 segs;
    mret (set.mkNdgcState kw (nl ++ map fst rs) (el ++ map snd rs)).
Proof.
  induction segs as [|[p o] segs IH]; intros kw nl el Hk; cbn [for_each ndgc_err_all].
  - rewrite bind_Ok. cbn [map]. rewrite !app_nil_r. reflexivity.
  - rewrite (avg_ndgc_err_step_stored log kw nl el p o k0 Hk).
    destruct (segment.ndgc_err log p o k0) as [[n e]|ex]; [|reflexivity].
    rewrite !bind_Ok. rewrite (IH kw _ _ Hk).
    destruct (ndgc_err_all log k0 segs) as [rs|ex]; [|reflexivity].
    rewrite !bind_Ok. cbn [map fst snd]. rewrite <- !app_assoc. reflexivity.
Qed.

(** Without an explicit [k], [setdefault] stores the length of the first
    segment in the dictionary on the first iteration, and every segment of the
    sequence is then evaluated with that cut-off. *)
Lemma avg_ndgc_err_cutoff_of_first_segment log p0 o0 ps os kwargs :
  kwargs !! "k" = None ->
  set.avg_ndgc_err log (p0 :: ps) (o0 :: os) kwargs
  = rs ← ndgc_err_all log (VInt (Z.of_nat (length (ranks p0))))
                      (zip (p0 :: ps) (o0 :: os));
    mret (np_average (map fst rs), np_average (map snd rs)).
Proof.
  intros Hk. unfold set.avg_ndgc_err.
  change (zip (p0 :: ps) (o0 :: os)) with ((p0, o0) :: zip ps os).
  cbn [for_each ndgc_err_all].
  rewrite (avg_ndgc_err_step_default log kwargs [] [] p0 o0 Hk).
  set (k0 := VInt (Z.of_nat (length (ranks p0)))).
  destruct (segment.ndgc_err log p0 o0 k0) as [[n e]|ex]; [|reflexivity].
  rewrite !bind_Ok.
  rewrite (avg_ndgc_err_loop_fixed_k log k0) by apply lookup_insert_eq.
  destruct (ndgc_err_all log k0 (zip ps os)) as [rs|ex]; [|reflexivity].
  rewrite !bind_Ok. reflexivity.
Qed.

Section positive_logarithm_values.

Variable log : Q -> Q.
Hypothesis log_pos : forall x, 1 < x -> 0 < log x.

(** With at most two positions in each cut, [ndcg_of] is the quotient of the
    two discounted sums, the ideal one being positive. *)
Lemma ndcg_of_one a b :
  0 < b -> ndcg_of log [a] [b] == a / b.
Proof.
  intros Hb. unfold ndcg_of. cbn [discount_terms py_sum foldl].
  pose proof (log_position_pos log log_pos 0) as HL.
  revert HL. generalize (log (inject_Z (Z.of_nat 0) + 2)). intros L HL.
  assert (Hpos : 0 < 0 + b / L).
  { assert (0 < b / L) by (apply Qlt_shift_div_l; lra). lra. }
  rewrite (truthy_positive _ Hpos). field. split; lra.
Qed.

Lemma ndcg_of_two_lower a1 a2 b1 b2 c :
  0 < b1 -> 0 <= b2 ->
  c * b1 <= a1 -> c * b2 < a2 ->
  c < ndcg_of log [a1; a2] [b1; b2].
Proof.
  intros Hb1 Hb2 H1 H2. unfold ndcg_of. cbn [discount_terms py_sum foldl].
  pose proof (log_position_pos log log_pos 0) as HL.
  pose proof (log_position_pos log log_pos 1) as HM.
  revert HL HM.
  generalize (log (inject_Z (Z.of_nat 0) + 2)), (log (inject_Z (Z.of_nat 1) + 2)).
  intros L M HL HM.
  pose proof (Qinv_lt_0_compat L HL) as Hl.
  pose proof (Qinv_lt_0_compat M HM) as Hm.
  set (dcg := 0 + a1 / L + a2 / M).
  set (ideal := 0 + b1 / L + b2 / M).
  assert (Hdcg : dcg == a1 * / L + a2 * / M) by (unfold dcg, Qdiv; ring).
  assert (Hideal : ideal == b1 * / L + b2 * / M) by (unfold ideal, Qdiv; ring).
  revert Hl Hm Hdcg Hideal. generalize (/ L), (/ M). intros l m Hl Hm Hdcg Hideal.
  assert (Hpos : 0 < ideal) by nra.
  rewrite (truthy_positive _ Hpos).
  apply Qlt_shift_div_l; [exact Hpos|]. nra.
Qed.

End positive_logarithm_values.

(** C6 (evaluation of the code): two segments of lengths 1 and 2,
    ([1],[1]) and ([1,2],[2,1]), no explicit [k].  The second segment is
    evaluated with cut-off 1, the length of the first one: its NDCG enters the
    average as 1/3 (average 2/3), whereas with its own length 2 as cut-off it
    is greater than 1/3. *)
Theorem avg_ndgc_err_first_length_sticks :
  forall log : Q -> Q,
    (forall x, 1 < x -> 0 < log x) ->
    exists avg_ndgc avg_err n2 e2 n2' e2',
      set.avg_ndgc_err log
        [Ranking_init [1] ∅; Ranking_init [1; 2] ∅]
        [Ranking_init [1] ∅; Ranking_init [2; 1] ∅] ∅
      = Ok (Some avg_ndgc, Some avg_err)
      /\ avg_ndgc == 2 # 3
      /\ segment.ndgc_err log (Ranking_init [1; 2] ∅) (Ranking_init [2; 1] ∅) (VInt 1)
         = Ok (n2, e2)
      /\ n2 == 1 # 3
      /\ segment.ndgc_err log (Ranking_init [1; 2] ∅) (Ranking_init [2; 1] ∅) (VInt 2)
         = Ok (n2', e2')
      /\ 1 # 3 < n2'.
Proof.
  intros log Hlog.
  assert (E1 : segment.ndgc_err log (Ranking_init [1] ∅) (Ranking_init [1] ∅) (VInt 1)
               = Ok (ndcg_of log [1 # 2] [1 # 2],
                     snd (segment.err_loop 0 [1 # 2] (1, 0)))).
  { apply (ndgc_err_eval log Hlog _ _ (VInt 1)
             (mkRanking [1] (VStr "ceiling")) (mkRanking [1] (VStr "ceiling")));
      vm_compute; reflexivity. }
  assert (E2 : segment.ndgc_err log (Ranking_init [1; 2] ∅) (Ranking_init [2; 1] ∅)
                 (VInt 1)
               = Ok (ndcg_of log [1 # 4] [3 # 4],
                     snd (segment.err_loop 0 [1 # 4; 3 # 4] (1, 0)))).
  { apply (ndgc_err_eval log Hlog _ _ (VInt 1)
             (mkRanking [1; 2] (VStr "ceiling")) (mkRanking [2; 1] (VStr "ceiling")));
      vm_compute; reflexivity. }
  assert (E3 : segment.ndgc_err log (Ranking_init [1; 2] ∅) (Ranking_init [2; 1] ∅)
                 (VInt 2)
               = Ok (ndcg_of log [1 # 4; 3 # 4] [3 # 4; 1 # 4],
                     snd (segment.err_loop 0 [1 # 4; 3 # 4] (1, 0)))).
  { apply (ndgc_err_eval log Hlog _ _ (VInt 2)
             (mkRanking [1; 2] (VStr "ceiling")) (mkRanking [2; 1] (VStr "ceiling")));
      vm_compute; reflexivity. }
  pose proof (ndcg_of_one log Hlog (1 # 2) (1 # 2) eq_refl) as N1.
  pose proof (ndcg_of_one log Hlog (1 # 4) (3 # 4) eq_refl) as N2.
  eexists _, _, _, _, _, _.
  split; [|split; [|split; [exact E2|split; [rewrite N2; reflexivity|split; [exact E3|]]]]].
  - rewrite avg_ndgc_err_cutoff_of_first_segment by apply lookup_empty.
    change (VInt (Z.of_nat (length (ranks (Ranking_init [1] ∅))))) with (VInt 1).
    cbn [zip zip_with ndgc_err_all].
    rewrite E1, bind_Ok, E2, !bind_Ok. reflexivity.
  - cbn [map fst py_sum foldl length]. rewrite N1, N2. reflexivity.
  - apply (ndcg_of_two_lower log Hlog); lra.
Qed.

Lemma avg_ndgc_err_first_length_sticks_witness :
  (forall x, 1 < x -> 0 < x - 1)
  /\ exists avg_ndgc avg_err n2 e2 n2' e2',
      set.avg_ndgc_err (fun x => x - 1)
        [Ranking_init [1] ∅; Ranking_init [1; 2] ∅]
        [Ranking_init [1] ∅; Ranking_init [2; 1] ∅] ∅
      = Ok (Some avg_ndgc, Some avg_err)
      /\ avg_ndgc == 2 # 3
      /\ segment.ndgc_err (fun x => x - 1)
           (Ranking_init [1; 2] ∅) (Ranking_init [2; 1] ∅) (VInt 1)
         = Ok (n2, e2)
      /\ n2 == 1 # 3
      /\ segment.ndgc_err (fun x => x - 1)
           (Ranking_init [1; 2] ∅) (Ranking_init [2; 1] ∅) (VInt 2)
         = Ok (n2', e2')
      /\ 1 # 3 < n2'.
Proof.
  split; [intros x Hx; lra|].
  apply (avg_ndgc_err_first_length_sticks (fun x => x - 1)).
  intros x Hx. lra.
Defined.

(** ** Pooled counts of [kendall_tau_set] *)

Lemma tau_set_step_totals sqrt erfc kwargs st p o st' :
  set.tau_set_step sqrt erfc kwargs st (p, o) = Ok st' ->
  exists r,
    segment.kendall_tau sqrt erfc p o kwargs = Ok r
    /\ set.concordant st' = (set.concordant st + segment.concordant_count r)%Z
    /\ set.discordant st' = (set.discordant st + segment.discordant_count r)%Z
    /\ set.valid_pairs st' = (set.valid_pairs st + segment.all_pairs_count r)%Z
    /\ set.pairs_overall st' = (set.pairs_overall st + segment.pairs r)%Z
    /\ set.predicted_ties_overall st'
       = (set.predicted_ties_overall st + segment.predicted_ties r)%Z.
Proof.
  unfold set.tau_set_step.
  destruct (segment.kendall_tau sqrt erfc p o kwargs) as [r|e]; [|discriminate].
  rewrite bind_Ok. intros [= <-]. exists r. cbn. auto 10.
Qed.

Lemma tau_set_loop_totals sqrt erfc kwargs : forall segs st st',
  for_each (set.tau_set_step sqrt erfc kwargs) segs st = Ok st' ->
  exists rs,
    kendall_tau_all sqrt erfc kwargs segs = Ok rs
    /\ set.concordant st'
       = (set.concordant st + total segment.concordant_count rs)%Z
    /\ set.discordant st'
       = (set.discordant st + total segment.discordant_count rs)%Z
    /\ set.valid_pairs st'
       = (set.valid_pairs st + total segment.all_pairs_count rs)%Z
    /\ set.pairs_overall st'
       = (set.pairs_overall st + total segment.pairs rs)%Z
    /\ set.predicted_ties_overall st'
       = (set.predicted_ties_overall st + total segment.predicted_ties rs)%Z.
Proof.
  induction segs as [|[p o] segs IH]; intros st st'; cbn [for_each kendall_tau_all].
  - intros [= <-]. exists []. cbn. repeat split; lia.
  - destruct (set.tau_set_step sqrt erfc kwargs st (p, o)) as [st1|e] eqn:Hstep;
      [|discriminate].
    rewrite bind_Ok. intros Hrun.
    apply tau_set_step_totals in Hstep as (r & Hr & Hc1 & Hd1 & Hv1 & Hp1 & Ht1).
    apply IH in Hrun as (rs & Hrs & Hc & Hd & Hv & Hp & Ht).
    exists (r :: rs). rewrite Hr, bind_Ok, Hrs, bind_Ok.
    unfold total in *. cbn [foldr].
    split; [reflexivity | lia].
Qed.

(** ** The rank of the best item under [floor] and [minimize] *)

Lemma insert_rank_sound x : forall s g,
  In g (insert_rank x s) -> g = x \/ In g s.
Proof.
  induction s as [|z s IH]; intros g; simpl.
  - intros [->|[]]. left. reflexivity.
  - destruct (x ?= z); simpl; [tauto | intuition congruence |].
    intros [->|Hin]; [tauto|]. apply IH in Hin. tauto.
Qed.

Lemma sorted_set_sound l g : In g (sorted_set l) -> In g l.
Proof.
  induction l as [|a l IH]; simpl; [tauto|].
  intros Hin. apply insert_rank_sound in Hin as [->|Hin]; auto.
Qed.

Lemma rank_of_head l t g rest c x :
  ascending (g :: rest) -> g == x ->
  rank_of l t (g :: rest) c x = Some (fst (_handle_tie l g (c + 1) t)).
Proof.
  intros [Hg _] Hx. cbn [rank_of].
  destruct (_handle_tie l g (c + 1) t) as [v next].
  destruct (rank_of l t rest next x) as [v'|] eqn:Hr.
  - exfalso. apply rank_of_elem in Hr.
    apply Exists_exists in Hr as (g' & Hin & Hg').
    rewrite Forall_forall in Hg. apply Hg in Hin. lra.
  - apply Qeq_bool_iff in Hx. rewrite Hx. reflexivity.
Qed.

Lemma handle_tie_floor_minimize l g m t :
  t = VStr "floor" \/ t = VStr "minimize" ->
  fst (_handle_tie l g m t) = m.
Proof.
  intros [-> | ->]; unfold _handle_tie;
    destruct (count l g <=? 1)%nat; reflexivity.
Qed.

Lemma normalize_best_rank_one l kwargs out :
  l <> [] ->
  ties_of kwargs = VStr "floor" \/ ties_of kwargs = VStr "minimize" ->
  normalize l kwargs = Ok out ->
  Exists (fun v => v == 1) out.
Proof.
  intros Hne Ht Hn.
  destruct (normalize_spec l kwargs) as (out' & Hn' & _ & Hlook).
  assert (out' = out) by congruence. subst out'.
  pose proof (sorted_set_ascending l) as Hasc.
  destruct (sorted_set l) as [|g rest] eqn:Hs.
  { destruct l as [|a l]; [congruence|].
    assert (Hex : Exists (fun g => g == a) (sorted_set (a :: l)))
      by (apply sorted_set_elem; left; reflexivity).
    rewrite Hs in Hex. inversion Hex. }
  assert (Hin : In g l) by (apply sorted_set_sound; rewrite Hs; left; reflexivity).
  apply In_elem, list_elem_of_lookup in Hin as [i Hi].
  destruct (Hlook i g Hi) as (v & Hv & Hr).
  rewrite (rank_of_head l _ g rest 0 g Hasc) in Hr by reflexivity.
  rewrite (handle_tie_floor_minimize _ _ _ _ Ht) in Hr. injection Hr as <-.
  apply Exists_exists. exists (0 + 1). split.
  - eapply list_elem_of_lookup_2; exact Hv.
  - reflexivity.
Qed.

(** X5: under the [floor] and [minimize] policies the best predicted rank is
    always 1, so there the reciprocal rank is 1 exactly when the top picks
    coincide. *)
Theorem reciprocal_rank_unit_floor_minimize :
  forall (predicted_rank_vector original_rank_vector : Ranking)
         (kwargs : gmap string pyval),
    ranks predicted_rank_vector <> [] ->
    length (ranks predicted_rank_vector) = length (ranks original_rank_vector) ->
    segment_ties_of kwargs = VStr "floor"
    \/ segment_ties_of kwargs = VStr "minimize" ->
    exists rr predicted original,
      segment.reciprocal_rank predicted_rank_vector original_rank_vector kwargs = Ok rr
      /\ normalize (ranks predicted_rank_vector)
                   {[ "ties" := segment_ties_of kwargs ]} = Ok predicted
      /\ normalize (ranks original_rank_vector)
                   {[ "ties" := segment_ties_of kwargs ]} = Ok original
      /\ (rr == 1 <-> top_picks_coincide predicted original).
Proof.
  intros p o kwargs Hne Hlen Ht.
  destruct (reciprocal_rank_spec p o kwargs Hne Hlen)
    as (rr & pn & on & Hrr & Hp & Ho & _ & _ & Hunit).
  exists rr, pn, on. repeat split; try assumption.
  - intros H. apply Hunit in H. tauto.
  - intros H. apply Hunit. split; [exact H|].
    apply (normalize_best_rank_one _ _ _ Hne) in Hp; [exact Hp|].
    unfold ties_of, setdefault. rewrite lookup_singleton_eq. exact Ht.
Qed.

Lemma reciprocal_rank_unit_floor_minimize_witness :
  ranks (Ranking_init [1; 1; 2] ∅) <> []
  /\ length (ranks (Ranking_init [1; 1; 2] ∅))
     = length (ranks (Ranking_init [1; 2; 3] ∅))
  /\ (segment_ties_of (ties "floor") = VStr "floor"
      \/ segment_ties_of (ties "floor") = VStr "minimize")
  /\ exists rr predicted original,
      segment.reciprocal_rank (Ranking_init [1; 1; 2] ∅) (Ranking_init [1; 2; 3] ∅)
        (ties "floor") = Ok rr
      /\ normalize (ranks (Ranking_init [1; 1; 2] ∅))
                   {[ "ties" := segment_ties_of (ties "floor") ]} = Ok predicted
      /\ normalize (ranks (Ranking_init [1; 2; 3] ∅))
                   {[ "ties" := segment_ties_of (ties "floor") ]} = Ok original
      /\ (rr == 1 <-> top_picks_coincide predicted original).
Proof.
  split; [discriminate|]. split; [reflexivity|]. split; [left; reflexivity|].
  apply (reciprocal_rank_unit_floor_minimize
           (Ranking_init [1; 1; 2] ∅) (Ranking_init [1; 2; 3] ∅) (ties "floor")).
  - discriminate.
  - reflexivity.
  - left. reflexivity.
Defined.

(** ** Aggregation consistency *)

Lemma py_div_value x y v : py_div x y = Ok v -> v = x / y /\ ~ y == 0.
Proof.
  unfold py_div. destruct (Qeq_bool y 0) eqn:E; [discriminate|].
  intros [= <-]. split; [reflexivity|].
  intros Hy. apply Qeq_bool_iff in Hy. congruence.
Qed.

(** X1: whenever [kendall_tau_set] returns, every segment has been evaluated, the
    reported counts are the sums of the per-segment counts (segments without
    valid pairs included), and the pooled tau is
    (concordant - discordant) / (concordant + discordant) of those sums. *)
Theorem kendall_tau_set_pooled :
  forall (sqrt erfc : Q -> Q) (predicted_rank_vectors original_rank_vectors : list Ranking)
         (kwargs : gmap string pyval) (stats : set.stats),
    set.kendall_tau_set sqrt erfc predicted_rank_vectors original_rank_vectors kwargs
    = Ok stats ->
    exists rs,
      kendall_tau_all sqrt erfc kwargs
        (zip predicted_rank_vectors original_rank_vectors) = Ok rs
      /\ set.tau_concordant stats = total segment.concordant_count rs
      /\ set.tau_discordant stats = total segment.discordant_count rs
      /\ set.tau_valid_pairs stats = total segment.all_pairs_count rs
      /\ set.tau_all_pairs stats = total segment.pairs rs
      /\ set.tau_predicted_ties stats = total segment.predicted_ties rs
      /\ set.tau stats
         == inject_Z (set.tau_concordant stats - set.tau_discordant stats)
            / inject_Z (set.tau_concordant stats + set.tau_discordant stats).
Proof.
  intros sqrt erfc ps os kwargs stats. unfold set.kendall_tau_set.
  destruct (for_each _ _ _) as [st|e] eqn:Hloop; [|discriminate].
  rewrite (bind_Ok st).
  destruct (py_div _ _) as [tau|e] eqn:Htau; [|discriminate].
  rewrite (bind_Ok tau).
  destruct (set.predicted_ties st) as [pt|]; [|discriminate].
  rewrite (bind_Ok pt).
  destruct (py_div (100 * inject_Z pt) _) as [pta|e] eqn:Hpta; [|discriminate].
  rewrite (bind_Ok pta).
  destruct (set.predicted_rank_vector st) as [prv|]; [|discriminate].
  rewrite (bind_Ok prv).
  destruct (py_div (100 * inject_Z (set.sentences_with_ties st)) _)
    as [sta|e] eqn:Hsta; [|discriminate].
  rewrite (bind_Ok sta). intros [= <-].
  apply tau_set_loop_totals in Hloop as (rs & Hrs & Hc & Hd & Hv & Hp & Ht).
  cbn in Hc, Hd, Hv, Hp, Ht.
  exists rs. cbn [set.tau_concordant set.tau_discordant set.tau_valid_pairs
                  set.tau_all_pairs set.tau_predicted_ties set.tau].
  repeat split; try assumption.
  apply py_div_value in Htau as [-> _].
  rewrite Qmult_1_l. reflexivity.
Qed.

Lemma kendall_tau_set_pooled_witness :
  exists stats,
    set.kendall_tau_set (fun x => x) (fun x => x)
      [Ranking_init [1; 2] ∅; Ranking_init [1; 3; 2] ∅]
      [Ranking_init [1; 1] ∅; Ranking_init [1; 2; 3] ∅] ∅ = Ok stats
    /\ exists rs,
      kendall_tau_all (fun x => x) (fun x => x) ∅
        (zip [Ranking_init [1; 2] ∅; Ranking_init [1; 3; 2] ∅]
             [Ranking_init [1; 1] ∅; Ranking_init [1; 2; 3] ∅]) = Ok rs
      /\ set.tau_concordant stats = total segment.concordant_count rs
      /\ set.tau_discordant stats = total segment.discordant_count rs
      /\ set.tau_valid_pairs stats = total segment.all_pairs_count rs
      /\ set.tau_all_pairs stats = total segment.pairs rs
      /\ set.tau_predicted_ties stats = total segment.predicted_ties rs
      /\ set.tau stats
         == inject_Z (set.tau_concordant stats - set.tau_discordant stats)
            / inject_Z (set.tau_concordant stats + set.tau_discordant stats).
Proof.
  eexists. split; [vm_compute; reflexivity|].
  apply (kendall_tau_set_pooled (fun x => x) (fun x => x)
           [Ranking_init [1; 2] ∅; Ranking_init [1; 3; 2] ∅]
           [Ranking_init [1; 1] ∅; Ranking_init [1; 2; 3] ∅] ∅).
  vm_compute. reflexivity.
Defined.

(** ** Concrete scenarios *)

(** Scenarios A and B: identical rankings give tau 1 with 6 concordant pairs
    and reciprocal rank 1; reversed rankings give tau -1 with 6 discordant
    pairs. *)
Theorem kendall_tau_scenarios_A_B :
  forall sqrt erfc : Q -> Q,
    let a := segment.kendall_tau sqrt erfc
               (Ranking_init [1; 2; 3; 4] ∅) (Ranking_init [1; 2; 3; 4] ∅) ∅ in
    let b := segment.kendall_tau sqrt erfc
               (Ranking_init [1; 2; 3; 4] ∅) (Ranking_init [4; 3; 2; 1] ∅) ∅ in
    segment.tau <$> a = Ok (Some (6 # 6))
    /\ segment.concordant_count <$> a = Ok 6%Z
    /\ segment.discordant_count <$> a = Ok 0%Z
    /\ segment.reciprocal_rank
         (Ranking_init [1; 2; 3; 4] ∅) (Ranking_init [1; 2; 3; 4] ∅) ∅ = Ok 1
    /\ segment.tau <$> b = Ok (Some (-6 # 6))
    /\ segment.concordant_count <$> b = Ok 0%Z
    /\ segment.discordant_count <$> b = Ok 6%Z.
Proof. intros sqrt erfc. repeat split; vm_compute; reflexivity. Qed.


(** X4: without an explicit [k] in the keyword dictionary, [avg_ndgc_err]
    evaluates every segment with the length of the first segment's predicted
    vector as cut-off. *)
Theorem avg_ndgc_err_default_cutoff :
  forall (log : Q -> Q) (p0 o0 : Ranking) (ps os : list Ranking)
         (kwargs : gmap string pyval),
    kwargs !! "k" = None ->
    set.avg_ndgc_err log (p0 :: ps) (o0 :: os) kwargs
    = rs ← ndgc_err_all log (VInt (Z.of_nat (length (ranks p0))))
                        (zip (p0 :: ps) (o0 :: os));
      mret (np_average (map fst rs), np_average (map snd rs)).
Proof.
  intros log p0 o0 ps os kwargs Hk.
  apply avg_ndgc_err_cutoff_of_first_segment, Hk.
Qed.

Lemma avg_ndgc_err_default_cutoff_witness :
  (∅ : gmap string pyval) !! "k" = None
  /\ set.avg_ndgc_err (fun x => x - 1)
       [Ranking_init [1] ∅; Ranking_init [1; 2] ∅]
       [Ranking_init [1] ∅; Ranking_init [2; 1] ∅] ∅
     = rs ← ndgc_err_all (fun x => x - 1)
                         (VInt (Z.of_nat (length (ranks (Ranking_init [1] ∅)))))
                         (zip [Ranking_init [1] ∅; Ranking_init [1; 2] ∅]
                              [Ranking_init [1] ∅; Ranking_init [2; 1] ∅]);
       mret (np_average (map fst rs), np_average (map snd rs)).
Proof.
  split; [reflexivity|].
  apply (avg_ndgc_err_default_cutoff (fun x => x - 1)
           (Ranking_init [1] ∅) (Ranking_init [1] ∅)
           [Ranking_init [1; 2] ∅] [Ranking_init [2; 1] ∅] ∅).
  reflexivity.
Defined.

(** ** Counting items *)

Lemma of_nat_S n : of_nat (S n) == of_nat n + 1.
Proof.
  unfold of_nat. rewrite Nat2Z.inj_succ, <- Z.add_1_r, inject_Z_plus. reflexivity.
Qed.

Lemma of_nat_add n m : of_nat (n + m) == of_nat n + of_nat m.
Proof. unfold of_nat. rewrite Nat2Z.inj_add, inject_Z_plus. reflexivity. Qed.

Lemma of_nat_le n m : (n <= m)%nat -> of_nat n <= of_nat m.
Proof. intros H. unfold of_nat. rewrite <- Zle_Qle. lia. Qed.

Lemma of_nat_nonneg n : 0 <= of_nat n.
Proof. apply (of_nat_le 0 n). lia. Qed.

Lemma Qltb_false x y : Qltb x y = false <-> y <= x.
Proof.
  split; intros H.
  - destruct (Qlt_le_dec x y) as [Hlt|Hle]; [|exact Hle].
    apply Qltb_lt in Hlt. congruence.
  - destruct (Qltb x y) eqn:E; [|reflexivity]. apply Qltb_lt in E. lra.
Qed.

Lemma Qltb_proper x x' y y' : x == x' -> y == y' -> Qltb x y = Qltb x' y'.
Proof.
  intros Hx Hy. destruct (Qltb x y) eqn:E; symmetry.
  - apply Qltb_lt. apply Qltb_lt in E. lra.
  - apply Qltb_false. apply Qltb_false in E. lra.
Qed.

Lemma Qle_bool_false x y : Qle_bool x y = false <-> y < x.
Proof.
  split; intros H.
  - destruct (Qlt_le_dec y x) as [Hlt|Hle]; [exact Hlt|].
    apply Qle_bool_iff in Hle. congruence.
  - destruct (Qle_bool x y) eqn:E; [|reflexivity]. apply Qle_bool_iff in E. lra.
Qed.

Lemma count_proper l x y : x == y -> count l x = count l y.
Proof.
  intros Hxy. induction l as [|r l IH]; simpl; [reflexivity|].
  rewrite (Qeq_bool_proper r x y Hxy), IH. reflexivity.
Qed.

Lemma lt_count_proper l x y : x == y -> lt_count l x = lt_count l y.
Proof.
  intros Hxy. induction l as [|r l IH]; simpl; [reflexivity|].
  rewrite (Qltb_proper r r x y (Qeq_refl r) Hxy), IH. reflexivity.
Qed.

Lemma le_count_split l x : le_count l x = (lt_count l x + count l x)%nat.
Proof.
  induction l as [|r l IH]; simpl; [reflexivity|].
  destruct (Qle_bool r x) eqn:Ele, (Qltb r x) eqn:Elt, (Qeq_bool r x) eqn:Eeq;
    rewrite IH; try lia; exfalso;
    rewrite ?Qle_bool_iff, ?Qle_bool_false, ?Qltb_lt, ?Qltb_false in *;
    try (apply Qeq_bool_iff in Eeq); try (apply Qeq_bool_neq in Eeq); lra.
Qed.

Lemma le_count_length l x : (le_count l x <= length l)%nat.
Proof.
  induction l as [|r l IH]; simpl; [lia|]. destruct (Qle_bool r x); lia.
Qed.

Lemma count_In_pos l x : In x l -> (1 <= count l x)%nat.
Proof.
  induction l as [|r l IH]; simpl; [tauto|].
  intros [->|Hin].
  - rewrite (proj2 (Qeq_bool_iff x x) (Qeq_refl x)). lia.
  - destruct (Qeq_bool r x); [lia | auto].
Qed.

(** Between one group and the next there is no item. *)
Lemma lt_count_next l g g' :
  Forall (fun y => y < g' <-> (y < g \/ y == g)) l ->
  lt_count l g' = (lt_count l g + count l g)%nat.
Proof.
  induction 1 as [|y l Hy _ IH]; simpl; [reflexivity|].
  destruct Hy as [H1 H2].
  destruct (Qltb y g') eqn:E', (Qltb y g) eqn:E, (Qeq_bool y g) eqn:Eq;
    rewrite IH; try lia; exfalso;
    rewrite ?Qltb_lt, ?Qltb_false in *;
    try (apply Qeq_bool_iff in Eq); try (apply Qeq_bool_neq in Eq);
    first [ lra
          | destruct (H1 E'); (lra || contradiction)
          | specialize (H2 (or_introl E)); lra
          | specialize (H2 (or_intror Eq)); lra ].
Qed.

(** ** The tie rule, policy by policy *)

Lemma is_str_true t s : is_str t s = true -> t = VStr s.
Proof.
  destruct t; simpl; try discriminate.
  intros H. apply String.eqb_eq in H. congruence.
Qed.

Lemma full_slot_cases t :
  full_slot t = true ->
  t = VStr "floor" \/ t = VStr "ceiling" \/ t = VStr "middle".
Proof.
  unfold full_slot. rewrite !orb_true_iff.
  intros [[H|H]|H]; apply is_str_true in H; auto.
Qed.

Lemma handle_tie_full_slot l g m t v next :
  full_slot t = true -> (1 <= count l g)%nat ->
  _handle_tie l g m t = (v, next) ->
  v == slot_rank t (m - 1) (of_nat (count l g))
  /\ next == m - 1 + of_nat (count l g).
Proof.
  intros Ht Hc. unfold _handle_tie.
  destruct (count l g <=? 1)%nat eqn:E.
  - apply Nat.leb_le in E. assert (Hone : count l g = 1%nat) by lia.
    rewrite Hone. intros [= <- <-].
    assert (H1 : of_nat 1 == 1) by reflexivity.
    assert (Hhalf : (of_nat 1 + 1) / 2 == 1) by reflexivity.
    destruct (full_slot_cases t Ht) as [->|[->| ->]];
      unfold slot_rank; cbn [is_str String.eqb Ascii.eqb Bool.eqb];
      rewrite ?Hhalf, ?H1; split; ring.
  - fold (of_nat (count l g)).
    assert (Hhalf : forall k, (m - 1 + (k + 1) / 2) == m - 1 + (k + 1) / 2)
      by (intros; reflexivity).
    destruct (full_slot_cases t Ht) as [->|[->| ->]];
      unfold slot_rank; cbn [is_str String.eqb Ascii.eqb Bool.eqb];
      intros [= <- <-]; split; ring.
Qed.

Lemma handle_tie_slotless l g m t :
  full_slot t = false -> _handle_tie l g m t = (m, m).
Proof.
  unfold full_slot, _handle_tie. rewrite !orb_false_iff. intros [[Hf Hc] Hm].
  rewrite Hf, Hc, Hm.
  destruct (count l g <=? 1)%nat, (is_str t "minimize"); reflexivity.
Qed.

Lemma slot_rank_proper t c c' k k' :
  c == c' -> k == k' -> slot_rank t c k == slot_rank t c' k'.
Proof.
  intros Hc Hk. unfold slot_rank.
  destruct (is_str t "floor"), (is_str t "ceiling"); rewrite Hc, ?Hk; reflexivity.
Qed.

(** ** Groups and the items they cover *)

Lemma covers_tail l g rest :
  ascending (g :: rest) -> covers l (g :: rest) -> covers l rest.
Proof.
  intros [Hg _] Hcov. unfold covers in *.
  eapply Forall_impl; [exact Hcov|]. intros y [Hex|Hall]; cbn beta in *.
  - apply Exists_cons in Hex as [Hy|Hex]; [right|left; exact Hex].
    eapply Forall_impl; [exact Hg|]. intros h Hh. cbn beta in Hh. lra.
  - right. apply Forall_cons in Hall as [_ Hall]. exact Hall.
Qed.

Lemma covers_next l g g' rest :
  ascending (g :: g' :: rest) -> covers l (g :: g' :: rest) ->
  Forall (fun y => y < g' <-> (y < g \/ y == g)) l.
Proof.
  intros [Hg [Hg' _]] Hcov. unfold covers in Hcov.
  apply Forall_cons in Hg as [Hgg' Hg].
  eapply Forall_impl; [exact Hcov|]. intros y Hy. cbn beta in *. split.
  - intros Hlt. destruct Hy as [Hex|Hall].
    + apply Exists_cons in Hex as [Hy|Hex]; [right; lra|].
      apply Exists_cons in Hex as [Hy|Hex]; [lra|].
      apply Exists_exists in Hex as (h & Hin & Hh).
      rewrite Forall_forall in Hg'. apply Hg' in Hin. lra.
    + apply Forall_cons in Hall as [Hyg _]. left. exact Hyg.
  - intros [H|H]; lra.
Qed.

Lemma head_least l g rest :
  ascending (g :: rest) ->
  Forall (fun y => Exists (fun h => h == y) (g :: rest)) l ->
  lt_count l g = 0%nat.
Proof.
  intros [Hg _]. induction 1 as [|y l Hy _ IH]; simpl; [reflexivity|].
  destruct (Qltb y g) eqn:E; [|exact IH].
  exfalso. apply Qltb_lt in E.
  apply Exists_cons in Hy as [Hy|Hex]; [lra|].
  apply Exists_exists in Hex as (h & Hin & Hh).
  rewrite Forall_forall in Hg. apply Hg in Hin. lra.
Qed.

Lemma sorted_set_covers l : covers l (sorted_set l).
Proof.
  unfold covers. apply Forall_forall. intros y Hy. left.
  apply sorted_set_elem, elem_In, Hy.
Qed.

(** ** The rank of a value, in closed form *)

Lemma rank_of_full_slot l t :
  full_slot t = true ->
  forall todo c x v,
    ascending todo -> covers l todo -> Forall (fun g => In g l) todo ->
    (forall g rest, todo = g :: rest -> c == of_nat (lt_count l g)) ->
    rank_of l t todo c x = Some v ->
    v == slot_rank t (of_nat (lt_count l x)) (of_nat (count l x)).
Proof.
  intros Ht. induction todo as [|g todo IH]; intros c x v Hasc Hcov Hin Hc;
    cbn [rank_of]; [discriminate|].
  destruct (_handle_tie l g (c + 1) t) as [w next] eqn:Hh.
  apply Forall_cons in Hin as [Hg Hin].
  apply (handle_tie_full_slot l g (c + 1) t w next Ht (count_In_pos l g Hg)) in Hh
    as [Hw Hnext].
  specialize (Hc g todo eq_refl).
  destruct (rank_of l t todo next x) as [v'|] eqn:Hr.
  - intros [= <-]. apply (IH next x v'); try assumption.
    + apply Hasc.
    + eapply covers_tail; eassumption.
    + intros g' rest ->.
      rewrite (lt_count_next l g g' (covers_next l g g' rest Hasc Hcov)).
      rewrite of_nat_add, Hnext, Hc. ring.
  - destruct (Qeq_bool g x) eqn:E; [|discriminate]. intros [= <-].
    apply Qeq_bool_iff in E.
    rewrite Hw, <- (count_proper l g x E), <- (lt_count_proper l g x E).
    apply slot_rank_proper; [rewrite Hc; ring | reflexivity].
Qed.

Lemma rank_of_slotless l t :
  full_slot t = false ->
  forall todo c x v,
    ascending todo ->
    rank_of l t todo c x = Some v ->
    v == c + 1 + of_nat (length (List.filter (fun g => Qltb g x) todo)).
Proof.
  intros Ht. induction todo as [|g todo IH]; intros c x v Hasc;
    cbn [rank_of]; [discriminate|].
  rewrite (handle_tie_slotless l g (c + 1) t Ht).
  destruct Hasc as [Hg Hasc].
  destruct (rank_of l t todo (c + 1) x) as [v'|] eqn:Hr.
  - intros [= <-]. pose proof (rank_of_elem _ _ _ _ _ _ Hr) as Hex.
    apply Exists_exists in Hex as (h & Hin & Hh).
    rewrite Forall_forall in Hg. apply Hg in Hin.
    assert (Hgx : Qltb g x = true) by (apply Qltb_lt; lra).
    cbn [List.filter]. rewrite Hgx. cbn [length].
    rewrite (IH _ _ _ Hasc Hr), of_nat_S. ring.
  - destruct (Qeq_bool g x) eqn:E; [|discriminate]. intros [= <-].
    apply Qeq_bool_iff in E.
    assert (Hgx : Qltb g x = false) by (apply Qltb_false; lra).
    cbn [List.filter]. rewrite Hgx.
    assert (Hnone : List.filter (fun g0 => Qltb g0 x) todo = []).
    { clear -Hg E. induction Hg as [|h todo Hh _ IH]; [reflexivity|].
      cbn [List.filter].
      assert (Hhx : Qltb h x = false) by (apply Qltb_false; lra).
      rewrite Hhx. exact IH. }
    rewrite Hnone. cbn [length]. unfold of_nat. cbn. ring.
Qed.

Lemma sorted_set_length l : (length (sorted_set l) <= length l)%nat.
Proof.
  induction l as [|a l IH]; simpl; [lia|].
  assert (Hins : forall s, (length (insert_rank a s) <= S (length s))%nat).
  { induction s as [|z s IHs]; simpl; [lia|].
    destruct (a ?= z); simpl; lia. }
  specialize (Hins (sorted_set l)). lia.
Qed.

Lemma filter_misses_one (P : Q -> bool) s :
  Exists (fun g => P g = false) s ->
  (S (length (List.filter P s)) <= length s)%nat.
Proof.
  induction 1 as [g s Hg|g s _ IH]; simpl.
  - rewrite Hg. pose proof (List.filter_length_le P s). lia.
  - destruct (P g); simpl; lia.
Qed.

Lemma distinct_lt_bound l x :
  In x l -> (S (distinct_lt l x) <= length l)%nat.
Proof.
  intros Hin. unfold distinct_lt.
  pose proof (sorted_set_length l).
  assert (Hex : Exists (fun g => Qltb g x = false) (sorted_set l)).
  { pose proof (sorted_set_elem l x Hin) as Hex.
    eapply Exists_impl; [exact Hex|]. intros g Hg. cbn beta in *.
    apply Qltb_false. lra. }
  apply filter_misses_one in Hex. lia.
Qed.

(** The rank [normalize] gives to the item at position [i], in terms of
    counts over the input vector. *)
Lemma normalize_rank l kwargs out i x v :
  normalize l kwargs = Ok out -> l !! i = Some x -> out !! i = Some v ->
  (full_slot (ties_of kwargs) = true ->
   v == slot_rank (ties_of kwargs) (of_nat (lt_count l x)) (of_nat (count l x)))
  /\ (full_slot (ties_of kwargs) = false -> v == of_nat (distinct_lt l x) + 1).
Proof.
  intros Hn Hx Hv.
  destruct (normalize_spec l kwargs) as (out' & Hn' & _ & Hlook).
  assert (out' = out) by congruence. subst out'.
  destruct (Hlook i x Hx) as (v' & Hv' & Hr).
  assert (v' = v) by congruence. subst v'.
  split; intros Ht.
  - apply (rank_of_full_slot l _ Ht (sorted_set l) 0 x v); try assumption.
    + apply sorted_set_ascending.
    + apply sorted_set_covers.
    + apply Forall_forall. intros g Hg. apply sorted_set_sound, elem_In, Hg.
    + intros g rest Hs.
      rewrite (head_least l g rest).
      * reflexivity.
      * rewrite <- Hs. apply sorted_set_ascending.
      * rewrite <- Hs. apply Forall_forall. intros y Hy.
        apply sorted_set_elem, elem_In, Hy.
  - rewrite (rank_of_slotless l _ Ht (sorted_set l) 0 x v
               (sorted_set_ascending l) Hr).
    unfold distinct_lt. ring.
Qed.

(** X6: the rank of an item after [normalize], policy by policy: under
    [ceiling] the number of items with a value at most its own, under [floor]
    one more than the number of items with a smaller value, under [middle] the
    number of smaller items plus half of (the number of items tied with it,
    itself included, plus one), and under [minimize] (and any unrecognised
    policy) one more than the number of distinct smaller values. *)
Theorem normalize_closed_form :
  forall (ranking_list : list Q) (kwargs : gmap string pyval)
         (normalized_rank : list Q) (i : nat) (x v : Q),
    normalize ranking_list kwargs = Ok normalized_rank ->
    ranking_list !! i = Some x -> normalized_rank !! i = Some v ->
    (ties_of kwargs = VStr "ceiling" -> v == of_nat (le_count ranking_list x))
    /\ (ties_of kwargs = VStr "floor" -> v == of_nat (lt_count ranking_list x) + 1)
    /\ (ties_of kwargs = VStr "middle" ->
        v == of_nat (lt_count ranking_list x)
             + (of_nat (count ranking_list x) + 1) / 2)
    /\ (full_slot (ties_of kwargs) = false ->
        v == of_nat (distinct_lt ranking_list x) + 1).
Proof.
  intros l kwargs out i x v Hn Hx Hv.
  destruct (normalize_rank l kwargs out i x v Hn Hx Hv) as [Hfull Hless].
  repeat split; try exact Hless; intros Ht; rewrite Ht in Hfull;
    rewrite (Hfull eq_refl); unfold slot_rank;
    cbn [is_str String.eqb Ascii.eqb Bool.eqb]; try reflexivity.
  rewrite le_count_split, of_nat_add. reflexivity.
Qed.

Lemma normalize_closed_form_witness :
  normalize [3; 1; 1; 2] (ties "ceiling") = Ok [4; 2; 2; 3]
  /\ [3; 1; 1; 2] !! 1%nat = Some 1
  /\ [4; 2; 2; 3] !! 1%nat = Some 2
  /\ ((ties_of (ties "ceiling") = VStr "ceiling" -> 2 == of_nat (le_count [3; 1; 1; 2] 1))
      /\ (ties_of (ties "ceiling") = VStr "floor" ->
          2 == of_nat (lt_count [3; 1; 1; 2] 1) + 1)
      /\ (ties_of (ties "ceiling") = VStr "middle" ->
          2 == of_nat (lt_count [3; 1; 1; 2] 1)
               + (of_nat (count [3; 1; 1; 2] 1) + 1) / 2)
      /\ (full_slot (ties_of (ties "ceiling")) = false ->
          2 == of_nat (distinct_lt [3; 1; 1; 2] 1) + 1)).
Proof.
  split; [vm_compute; reflexivity|].
  split; [reflexivity|]. split; [reflexivity|].
  apply (normalize_closed_form [3; 1; 1; 2] (ties "ceiling") [4; 2; 2; 3] 1 1 2);
    vm_compute; reflexivity.
Defined.

(** ** The range of the ranks *)

Lemma normalize_lookup_raw l kwargs out i v :
  normalize l kwargs = Ok out -> out !! i = Some v ->
  exists x, l !! i = Some x /\ In x l.
Proof.
  intros Hn Hv.
  destruct (normalize_spec l kwargs) as (out' & Hn' & Hlen & _).
  assert (out' = out) by congruence. subst out'.
  assert (Hi : (i < length l)%nat).
  { rewrite <- Hlen. eapply lookup_lt_Some; exact Hv. }
  destruct (lookup_lt_is_Some_2 l i Hi) as [x Hx].
  exists x. split; [exact Hx|]. apply elem_In. eapply list_elem_of_lookup_2; exact Hx.
Qed.

Lemma normalize_rank_le l kwargs out i v :
  normalize l kwargs = Ok out -> out !! i = Some v -> v <= of_nat (length l).
Proof.
  intros Hn Hv.
  destruct (normalize_lookup_raw l kwargs out i v Hn Hv) as (x & Hx & Hin).
  destruct (normalize_rank l kwargs out i x v Hn Hx Hv) as [Hfull Hless].
  destruct (full_slot (ties_of kwargs)) eqn:Ht.
  - rewrite (Hfull eq_refl).
    pose proof (of_nat_le _ _ (le_count_length l x)) as Hle.
    rewrite le_count_split, of_nat_add in Hle.
    pose proof (of_nat_le _ _ (count_In_pos l x Hin)) as Hc.
    change (of_nat 1) with 1 in Hc.
    revert Hle Hc. generalize (of_nat (lt_count l x)), (of_nat (count l x)),
      (of_nat (length l)). intros a k n Hle Hc.
    assert (Hhalf : (k + 1) / 2 == (k + 1) * (1 # 2)) by reflexivity.
    unfold slot_rank.
    destruct (is_str (ties_of kwargs) "floor"), (is_str (ties_of kwargs) "ceiling");
      rewrite ?Hhalf; lra.
  - rewrite (Hless eq_refl).
    pose proof (of_nat_le _ _ (distinct_lt_bound l x Hin)) as Hle.
    rewrite of_nat_S in Hle. exact Hle.
Qed.

Lemma normalize_rank_whole l kwargs out i v :
  ties_of kwargs <> VStr "middle" ->
  normalize l kwargs = Ok out -> out !! i = Some v ->
  exists n : nat, v == of_nat n.
Proof.
  intros Hmid Hn Hv.
  destruct (normalize_lookup_raw l kwargs out i v Hn Hv) as (x & Hx & Hin).
  destruct (normalize_rank l kwargs out i x v Hn Hx Hv) as [Hfull Hless].
  destruct (full_slot (ties_of kwargs)) eqn:Ht.
  - specialize (Hfull eq_refl).
    destruct (full_slot_cases _ Ht) as [Hf|[Hc|Hm]]; [| |contradiction].
    + exists (S (lt_count l x)). rewrite Hfull, Hf, of_nat_S. reflexivity.
    + exists (lt_count l x + count l x)%nat. rewrite Hfull, Hc, of_nat_add. reflexivity.
  - exists (S (distinct_lt l x)). rewrite (Hless eq_refl), of_nat_S. reflexivity.
Qed.

Lemma Qfloor_eq q z :
  inject_Z z <= q -> q < inject_Z (z + 1) -> Qfloor q = z.
Proof.
  intros Hlo Hhi.
  pose proof (Qfloor_le q) as H1. pose proof (Qlt_floor q) as H2.
  assert (Ha : (Qfloor q < z + 1)%Z).
  { rewrite Zlt_Qlt. lra. }
  assert (Hb : (z < Qfloor q + 1)%Z).
  { rewrite Zlt_Qlt. lra. }
  lia.
Qed.

Lemma py_round_whole v z : v == inject_Z z -> (0 <= z)%Z -> py_round v = z.
Proof.
  intros Hv Hz. unfold py_round.
  assert (H0 : 0 <= v).
  { rewrite Hv. change 0 with (inject_Z 0). rewrite <- Zle_Qle. exact Hz. }
  apply Qle_bool_iff in H0. rewrite H0.
  apply Qfloor_eq; rewrite ?inject_Z_plus; change (inject_Z 1) with 1; lra.
Qed.

(** X7: every rank that [normalize] produces lies between 1 and the number
    of items, whatever the tie policy. *)
Theorem normalize_rank_range :
  forall (ranking_list : list Q) (kwargs : gmap string pyval)
         (normalized_rank : list Q) (i : nat) (v : Q),
    normalize ranking_list kwargs = Ok normalized_rank ->
    normalized_rank !! i = Some v ->
    1 <= v /\ v <= of_nat (length ranking_list).
Proof.
  intros l kwargs out i v Hn Hv. split.
  - pose proof (normalize_ranks_at_least_one l kwargs out Hn) as Hpos.
    rewrite Forall_lookup in Hpos. exact (Hpos i v Hv).
  - eapply normalize_rank_le; eassumption.
Qed.

Lemma normalize_rank_range_witness :
  normalize [3; 1; 1; 2] (ties "middle") = Ok [4; 3 # 2; 3 # 2; 3]
  /\ [4; 3 # 2; 3 # 2; 3] !! 1%nat = Some (3 # 2)
  /\ 1 <= 3 # 2 /\ 3 # 2 <= of_nat (length [3; 1; 1; 2]).
Proof.
  split; [vm_compute; reflexivity|]. split; [reflexivity|].
  apply (normalize_rank_range [3; 1; 1; 2] (ties "middle") [4; 3 # 2; 3 # 2; 3] 1);
    vm_compute; reflexivity.
Defined.

Lemma normalized_integers (self r : Ranking) (t : pyval) :
  t <> VStr "middle" ->
  Ranking_normalize self {[ "ties" := t ]} = Ok r ->
  Forall2 (fun (z : Z) (v : Q) =>
             inject_Z z == v /\ (1 <= z <= Z.of_nat (length (ranks self)))%Z)
          (Ranking_integers r) (ranks r).
Proof.
  intros Hmid Hr.
  destruct (Ranking_normalize_spec self t) as (out & Hr' & Hn & Hlen & Hpos).
  assert (r = mkRanking out t) by congruence. subst r.
  unfold Ranking_integers. cbn [ranks].
  assert (Ht : ties_of {[ "ties" := t ]} = t).
  { unfold ties_of, setdefault. rewrite lookup_singleton_eq. reflexivity. }
  apply Forall2_fmap_l, Forall_Forall2_diag, Forall_lookup.
  intros i v Hv.
  destruct (normalize_rank_whole (ranks self) {[ "ties" := t ]} out i v) as [n Hvn];
    [rewrite Ht; exact Hmid | exact Hn | exact Hv |].
  pose proof (normalize_rank_le (ranks self) {[ "ties" := t ]} out i v Hn Hv) as Hle.
  rewrite Forall_lookup in Hpos. pose proof (Hpos i v Hv) as H1.
  unfold compose. cbn beta. rewrite (py_round_whole v (Z.of_nat n)) by (exact Hvn || lia).
  split; [symmetry; exact Hvn|].
  rewrite Hvn in H1, Hle. unfold of_nat in H1, Hle.
  change 1 with (inject_Z 1) in H1. rewrite <- Zle_Qle in H1, Hle. lia.
Qed.

(** X8: [Ranking.normalize] followed by [Ranking.integers], as [ndgc_err]
    chains them: under every policy but [middle] the normalised ranks are
    whole numbers, so [integers] returns them unchanged, each between 1 and
    the number of items. *)
Theorem integers_of_normalized :
  forall (self normalized : Ranking) (t : pyval),
    t <> VStr "middle" ->
    Ranking_normalize self {[ "ties" := t ]} = Ok normalized ->
    Forall2 (fun (z : Z) (v : Q) =>
               inject_Z z == v /\ (1 <= z <= Z.of_nat (length (ranks self)))%Z)
            (Ranking_integers normalized) (ranks normalized).
Proof. intros self r t. apply normalized_integers. Qed.

Lemma integers_of_normalized_witness :
  VStr "ceiling" <> VStr "middle"
  /\ Ranking_normalize (Ranking_init [3; 1; 1; 2] ∅) {[ "ties" := VStr "ceiling" ]}
     = Ok (mkRanking [4; 2; 2; 3] (VStr "ceiling"))
  /\ Forall2 (fun (z : Z) (v : Q) =>
                inject_Z z == v
                /\ (1 <= z
                    <= Z.of_nat (length (ranks (Ranking_init [3; 1; 1; 2]%Q ∅))))%Z)
             (Ranking_integers (mkRanking [4; 2; 2; 3] (VStr "ceiling")))
             (ranks (mkRanking [4; 2; 2; 3] (VStr "ceiling"))).
Proof.
  split; [discriminate|]. split; [vm_compute; reflexivity|].
  apply (integers_of_normalized (Ranking_init [3; 1; 1; 2] ∅)
           (mkRanking [4; 2; 2; 3] (VStr "ceiling")) (VStr "ceiling")).
  - discriminate.
  - vm_compute. reflexivity.
Defined.

(** ** Distinct values, counted on the vector *)

Lemma existsb_above a s :
  Forall (fun g => a < g) s -> existsb (Qeq_bool a) s = false.
Proof.
  induction 1 as [|g s Hg _ IH]; simpl; [reflexivity|].
  rewrite IH, orb_false_r. apply not_true_is_false. intros E.
  apply Qeq_bool_iff in E. lra.
Qed.

Lemma existsb_Exists a s :
  existsb (Qeq_bool a) s = true <-> Exists (fun g => g == a) s.
Proof.
  induction s as [|g s IH]; simpl.
  - split; [discriminate | intros H; inversion H].
  - rewrite orb_true_iff, Exists_cons, IH, Qeq_bool_iff.
    split; (intros [H|H]; [left; symmetry; exact H | right; exact H]).
Qed.

Lemma filter_insert_rank a x : forall s,
  ascending s ->
  length (List.filter (fun g => Qltb g x) (insert_rank a s))
  = ((if Qltb a x && negb (existsb (Qeq_bool a) s) then 1 else 0)
     + length (List.filter (fun g => Qltb g x) s))%nat.
Proof.
  induction s as [|z s IH]; intros Hasc.
  - simpl. destruct (Qltb a x); reflexivity.
  - destruct Hasc as [Hz Hasc]. cbn [insert_rank].
    destruct (a ?= z) eqn:E.
    + apply Qeq_alt in E. cbn [existsb].
      rewrite (proj2 (Qeq_bool_iff a z) E). cbn [orb negb].
      rewrite andb_false_r. reflexivity.
    + apply Qlt_alt in E.
      assert (Hnone : existsb (Qeq_bool a) (z :: s) = false).
      { apply existsb_above. constructor; [exact E|].
        eapply Forall_impl; [exact Hz|]. intros g Hg. cbn beta in Hg. lra. }
      rewrite Hnone. cbn [negb]. rewrite andb_true_r.
      change (List.filter (fun g => Qltb g x) (a :: z :: s))
        with (if Qltb a x then a :: List.filter (fun g => Qltb g x) (z :: s)
              else List.filter (fun g => Qltb g x) (z :: s)).
      destruct (Qltb a x); reflexivity.
    + apply Qgt_alt in E.
      assert (Hne : Qeq_bool a z = false).
      { apply not_true_is_false. intros H. apply Qeq_bool_iff in H. lra. }
      cbn [existsb List.filter]. rewrite Hne. cbn [orb].
      destruct (Qltb z x); cbn [length]; rewrite (IH Hasc); lia.
Qed.

Lemma existsb_sorted_set a l :
  existsb (Qeq_bool a) (sorted_set l) = existsb (Qeq_bool a) l.
Proof.
  destruct (existsb (Qeq_bool a) l) eqn:E.
  - apply existsb_Exists. apply existsb_Exists in E.
    apply Exists_exists in E as (g & Hin & Hg).
    pose proof (sorted_set_elem l g (elem_In _ _ Hin)) as Hex.
    eapply Exists_impl; [exact Hex|]. intros h Hh. cbn beta in *. lra.
  - apply not_true_is_false. intros E'. apply existsb_Exists in E'.
    apply Exists_exists in E' as (g & Hin & Hg).
    apply elem_In, sorted_set_sound in Hin.
    assert (existsb (Qeq_bool a) l = true); [|congruence].
    apply existsb_Exists, Exists_exists. exists g. split; [apply In_elem, Hin | exact Hg].
Qed.

Lemma distinct_lt_unfold l x : distinct_lt l x = distinct_lt_rec l x.
Proof.
  unfold distinct_lt. induction l as [|a l IH]; [reflexivity|].
  cbn [sorted_set foldr distinct_lt_rec]. fold (sorted_set l).
  rewrite (filter_insert_rank a x _ (sorted_set_ascending l)).
  rewrite existsb_sorted_set, IH. reflexivity.
Qed.

(** ** Vectors in the same order *)

Lemma same_order_rows_of l l' : same_order l l' -> same_order_rows l l'.
Proof.
  intros [Hlen Hord]. unfold same_order_rows.
  apply Forall2_same_length_lookup_2; [exact Hlen|]. intros i x x' Hx Hx'.
  apply Forall2_same_length_lookup_2; [exact Hlen|]. intros j y y' Hy Hy'.
  split; eauto.
Qed.

Lemma same_order_rows_tail a a' l l' :
  same_order_rows (a :: l) (a' :: l') -> same_order_rows l l'.
Proof.
  unfold same_order_rows. intros H. apply Forall2_cons_1 in H as [_ H].
  eapply Forall2_impl; [exact H|]. intros x x' Hrow. cbn beta in *.
  apply Forall2_cons_1 in Hrow as [_ Hrow]. exact Hrow.
Qed.

Lemma same_order_rows_head a a' l l' :
  same_order_rows (a :: l) (a' :: l') ->
  Forall2 (fun y y' => a == y <-> a' == y') l l'.
Proof.
  unfold same_order_rows. intros H. apply Forall2_cons_1 in H as [_ H].
  eapply Forall2_impl; [exact H|]. intros y y' Hrow. cbn beta in *.
  apply Forall2_cons_1 in Hrow as [[H1 H2] _].
  split; intros He.
  - destruct (Q_dec a' y') as [[Hlt|Hgt]|Heq]; [| |exact Heq].
    + apply H1 in Hlt. lra.
    + apply H2 in Hgt. lra.
  - destruct (Q_dec a y) as [[Hlt|Hgt]|Heq]; [| |exact Heq].
    + apply H1 in Hlt. lra.
    + apply H2 in Hgt. lra.
Qed.

Lemma lt_count_same l l' x x' :
  Forall2 (fun y y' => y < x <-> y' < x') l l' ->
  lt_count l x = lt_count l' x'.
Proof.
  induction 1 as [|y y' l l' Hy _ IH]; simpl; [reflexivity|].
  rewrite IH. destruct (Qltb y x) eqn:E, (Qltb y' x') eqn:E'; try reflexivity;
    exfalso; rewrite ?Qltb_lt, ?Qltb_false in *.
  - apply Hy in E. lra.
  - apply Hy in E'. lra.
Qed.

Lemma Qeq_bool_same x y x' y' :
  (x == y <-> x' == y') -> Qeq_bool x y = Qeq_bool x' y'.
Proof.
  intros H. destruct (Qeq_bool x y) eqn:E, (Qeq_bool x' y') eqn:E';
    try reflexivity; exfalso.
  - apply Qeq_bool_iff, H, Qeq_bool_iff in E. congruence.
  - apply Qeq_bool_iff, H, Qeq_bool_iff in E'. congruence.
Qed.

Lemma count_same l l' x x' :
  Forall2 (fun y y' => y == x <-> y' == x') l l' ->
  count l x = count l' x'.
Proof.
  induction 1 as [|y y' l l' Hy _ IH]; simpl; [reflexivity|].
  rewrite IH, (Qeq_bool_same y x y' x' Hy). reflexivity.
Qed.

Lemma existsb_same a a' l l' :
  Forall2 (fun y y' => a == y <-> a' == y') l l' ->
  existsb (Qeq_bool a) l = existsb (Qeq_bool a') l'.
Proof.
  induction 1 as [|y y' l l' Hy _ IH]; simpl; [reflexivity|].
  rewrite IH, (Qeq_bool_same a y a' y' Hy). reflexivity.
Qed.

Lemma distinct_lt_rec_same x x' : forall l l',
  same_order_rows l l' ->
  Forall2 (fun y y' => y < x <-> y' < x') l l' ->
  distinct_lt_rec l x = distinct_lt_rec l' x'.
Proof.
  induction l as [|a l IH]; intros l' Hrows Hx.
  - apply Forall2_nil_inv_l in Hx. subst. reflexivity.
  - apply Forall2_cons_inv_l in Hx as (a' & r' & Ha & Hx & ->).
    cbn [distinct_lt_rec].
    rewrite (IH r' (same_order_rows_tail _ _ _ _ Hrows) Hx).
    rewrite (existsb_same a a' l r' (same_order_rows_head _ _ _ _ Hrows)).
    assert (Hlt : Qltb a x = Qltb a' x').
    { destruct (Qltb a x) eqn:E, (Qltb a' x') eqn:E'; try reflexivity;
        exfalso; rewrite ?Qltb_lt, ?Qltb_false in *.
      - apply Ha in E. lra.
      - apply Ha in E'. lra. }
    rewrite Hlt. reflexivity.
Qed.

Lemma same_order_row l l' i x x' :
  same_order_rows l l' -> l !! i = Some x -> l' !! i = Some x' ->
  Forall2 (fun y y' => y < x <-> y' < x') l l'
  /\ Forall2 (fun y y' => y == x <-> y' == x') l l'.
Proof.
  intros Hrows Hx Hx'.
  pose proof (Forall2_lookup_lr _ _ _ _ _ _ Hrows Hx Hx') as Hrow. cbn beta in Hrow.
  split; (eapply Forall2_impl; [exact Hrow|]); intros y y' [H1 H2]; cbn beta.
  - exact H1.
  - split; intros He.
    + destruct (Q_dec y' x') as [[Hlt|Hgt]|Heq]; [| |exact Heq].
      * apply H1 in Hlt. lra.
      * apply H2 in Hgt. lra.
    + destruct (Q_dec y x) as [[Hlt|Hgt]|Heq]; [| |exact Heq].
      * apply H1 in Hlt. lra.
      * apply H2 in Hgt. lra.
Qed.

Lemma normalize_same_order_pointwise l l' kwargs out out' :
  same_order l l' ->
  normalize l kwargs = Ok out -> normalize l' kwargs = Ok out' ->
  Forall2 Qeq out out'.
Proof.
  intros Hord Hn Hn'.
  pose proof (same_order_rows_of l l' Hord) as Hrows.
  destruct (normalize_spec l kwargs) as (o1 & Ho1 & Hlen1 & _).
  destruct (normalize_spec l' kwargs) as (o2 & Ho2 & Hlen2 & _).
  assert (o1 = out) by congruence. assert (o2 = out') by congruence. subst.
  apply Forall2_same_length_lookup_2.
  { rewrite Hlen1, Hlen2. apply Hord. }
  intros i v v' Hv Hv'.
  destruct (normalize_lookup_raw l kwargs out i v Hn Hv) as (x & Hx & _).
  destruct (normalize_lookup_raw l' kwargs out' i v' Hn' Hv') as (x' & Hx' & _).
  destruct (same_order_row l l' i x x' Hrows Hx Hx') as [Hlt Heq].
  destruct (normalize_rank l kwargs out i x v Hn Hx Hv) as [Hfull Hless].
  destruct (normalize_rank l' kwargs out' i x' v' Hn' Hx' Hv') as [Hfull' Hless'].
  destruct (full_slot (ties_of kwargs)).
  - rewrite (Hfull eq_refl), (Hfull' eq_refl).
    rewrite (lt_count_same l l' x x' Hlt), (count_same l l' x x' Heq). reflexivity.
  - rewrite (Hless eq_refl), (Hless' eq_refl), !distinct_lt_unfold.
    rewrite (distinct_lt_rec_same x x' l l' Hrows Hlt). reflexivity.
Qed.

Lemma normalize_keeps_order l kwargs out :
  normalize l kwargs = Ok out -> same_order out l.
Proof.
  intros Hn.
  destruct (normalize_spec l kwargs) as (out' & Hn' & Hlen & Hlook).
  assert (out' = out) by congruence. subst out'.
  split; [exact Hlen|].
  intros i j vi vj xi xj Hvi Hvj Hxi Hxj.
  destruct (Hlook i xi Hxi) as (vi' & Hvi' & Hri).
  destruct (Hlook j xj Hxj) as (vj' & Hvj' & Hrj).
  assert (vi' = vi) by congruence. assert (vj' = vj) by congruence. subst.
  assert (Hmono : forall a b va vb,
             rank_of l (ties_of kwargs) (sorted_set l) 0 a = Some va ->
             rank_of l (ties_of kwargs) (sorted_set l) 0 b = Some vb ->
             a < b -> va < vb).
  { intros a b va vb Ha Hb Hab.
    eapply rank_of_mono; eauto using sorted_set_ascending. }
  split.
  - intros Hv. destruct (Q_dec xi xj) as [[Hlt|Hgt]|Heq]; [exact Hlt| |].
    + pose proof (Hmono _ _ _ _ Hrj Hri Hgt). lra.
    + rewrite (rank_of_proper _ _ _ _ xi xj Heq) in Hri.
      assert (vi = vj) by congruence. subst. lra.
  - apply (Hmono _ _ _ _ Hri Hrj).
Qed.

Lemma same_order_sym l l' : same_order l l' -> same_order l' l.
Proof.
  intros [Hlen Hord]. split; [symmetry; exact Hlen|].
  intros i j x y x' y' Hx Hy Hx' Hy'. symmetry. eauto.
Qed.

(** X9: [normalize] looks at the order of the values only: two vectors whose
    items compare alike position by position get the same ranks, under the
    same options. *)
Theorem normalize_depends_on_order_only :
  forall (ranking_list ranking_list' : list Q) (kwargs : gmap string pyval)
         (normalized_rank normalized_rank' : list Q),
    same_order ranking_list ranking_list' ->
    normalize ranking_list kwargs = Ok normalized_rank ->
    normalize ranking_list' kwargs = Ok normalized_rank' ->
    Forall2 Qeq normalized_rank normalized_rank'.
Proof.
  intros l l' kwargs out out' Hord Hn Hn'.
  eapply normalize_same_order_pointwise; eassumption.
Qed.

(** X10: [normalize] is idempotent: normalising a normalised vector again,
    under the same options, returns the same ranks. *)
Theorem normalize_idempotent :
  forall (ranking_list : list Q) (kwargs : gmap string pyval)
         (normalized_rank : list Q),
    normalize ranking_list kwargs = Ok normalized_rank ->
    exists again,
      normalize normalized_rank kwargs = Ok again
      /\ Forall2 Qeq again normalized_rank.
Proof.
  intros l kwargs out Hn.
  destruct (normalize_spec out kwargs) as (again & Ha & _ & _).
  exists again. split; [exact Ha|].
  apply (normalize_same_order_pointwise out l kwargs again out);
    [apply (normalize_keeps_order l kwargs out Hn) | exact Ha | exact Hn].
Qed.

(** ** Vectors without ties *)

Lemma count_absent l y : Forall (fun z => ~ y == z) l -> count l y = 0%nat.
Proof.
  induction 1 as [|z l Hz _ IH]; simpl; [reflexivity|].
  destruct (Qeq_bool z y) eqn:E; [|exact IH].
  apply Qeq_bool_iff in E. exfalso. apply Hz. symmetry. exact E.
Qed.

Lemma tie_free_count l : forall i x,
  tie_free l -> l !! i = Some x -> count l x = 1%nat.
Proof.
  induction l as [|a l IH]; intros i x Hfree Hx; [discriminate|].
  destruct Hfree as [Ha Hfree].
  destruct i as [|i]; simpl in Hx.
  - injection Hx as ->. simpl.
    rewrite (proj2 (Qeq_bool_iff x x) (Qeq_refl x)), (count_absent l x Ha). reflexivity.
  - simpl. destruct (Qeq_bool a x) eqn:E.
    + apply Qeq_bool_iff in E. rewrite Forall_forall in Ha.
      exfalso. apply (Ha x); [eapply list_elem_of_lookup_2; exact Hx | exact E].
    + eapply IH; eassumption.
Qed.

Lemma tie_free_distinct_lt l x :
  tie_free l -> distinct_lt_rec l x = lt_count l x.
Proof.
  induction l as [|a l IH]; intros Hfree; [reflexivity|].
  destruct Hfree as [Ha Hfree]. cbn [distinct_lt_rec lt_count].
  assert (Hnone : existsb (Qeq_bool a) l = false).
  { apply not_true_is_false. intros E. apply existsb_Exists in E.
    apply Exists_exists in E as (g & Hin & Hg).
    rewrite Forall_forall in Ha. apply (Ha g Hin). symmetry. exact Hg. }
  rewrite Hnone, (IH Hfree). cbn [negb]. rewrite andb_true_r.
  destruct (Qltb a x); reflexivity.
Qed.

(** X11: on a vector without ties the tie policy is irrelevant: under every
    keyword dictionary the rank of an item is one more than the number of
    items with a smaller value, so all policies return the same ranks. *)
Theorem normalize_tie_free :
  forall (ranking_list : list Q) (kwargs : gmap string pyval)
         (normalized_rank : list Q) (i : nat) (x v : Q),
    tie_free ranking_list ->
    normalize ranking_list kwargs = Ok normalized_rank ->
    ranking_list !! i = Some x -> normalized_rank !! i = Some v ->
    v == of_nat (lt_count ranking_list x) + 1.
Proof.
  intros l kwargs out i x v Hfree Hn Hx Hv.
  destruct (normalize_rank l kwargs out i x v Hn Hx Hv) as [Hfull Hless].
  destruct (full_slot (ties_of kwargs)).
  - rewrite (Hfull eq_refl), (tie_free_count l i x Hfree Hx).
    change (of_nat 1) with 1. unfold slot_rank.
    assert (Hhalf : (1 + 1) / 2 == 1) by reflexivity.
    destruct (is_str (ties_of kwargs) "floor"), (is_str (ties_of kwargs) "ceiling");
      rewrite ?Hhalf; reflexivity.
  - rewrite (Hless eq_refl), distinct_lt_unfold, (tie_free_distinct_lt l x Hfree).
    reflexivity.
Qed.

Lemma normalize_depends_on_order_only_witness :
  same_order [10; 20; 20] [1; 5; 5]
  /\ normalize [10; 20; 20] (ties "ceiling") = Ok [1; 3; 3]
  /\ normalize [1; 5; 5] (ties "ceiling") = Ok [1; 3; 3]
  /\ Forall2 Qeq [1; 3; 3] [1; 3; 3].
Proof.
  assert (Hord : same_order [10; 20; 20] [1; 5; 5]).
  { split; [reflexivity|].
    intros [|[|[|i]]] [|[|[|j]]] x y x' y' Hx Hy Hx' Hy'; simpl in *;
      try discriminate;
      injection Hx as <-; injection Hy as <-; injection Hx' as <-; injection Hy' as <-;
      split; intros H; solve [exact eq_refl | discriminate H]. }
  split; [exact Hord|].
  split; [vm_compute; reflexivity|]. split; [vm_compute; reflexivity|].
  apply (normalize_depends_on_order_only [10; 20; 20] [1; 5; 5] (ties "ceiling")
           [1; 3; 3] [1; 3; 3] Hord); vm_compute; reflexivity.
Defined.

Lemma normalize_idempotent_witness :
  normalize [1; 1; 2; 3] (ties "middle") = Ok [3 # 2; 3 # 2; 3; 4]
  /\ exists again,
       normalize [3 # 2; 3 # 2; 3; 4] (ties "middle") = Ok again
       /\ Forall2 Qeq again [3 # 2; 3 # 2; 3; 4].
Proof.
  split; [vm_compute; reflexivity|].
  apply (normalize_idempotent [1; 1; 2; 3] (ties "middle") [3 # 2; 3 # 2; 3; 4]).
  vm_compute. reflexivity.
Defined.

Lemma normalize_tie_free_witness :
  tie_free [30; 10; 20]
  /\ normalize [30; 10; 20] (ties "middle") = Ok [3; 1; 2]
  /\ [30; 10; 20] !! 2%nat = Some 20
  /\ [3; 1; 2] !! 2%nat = Some 2
  /\ 2 == of_nat (lt_count [30; 10; 20] 20) + 1.
Proof.
  assert (Hfree : tie_free [30; 10; 20]).
  { simpl. repeat split; repeat constructor; intros H; discriminate H. }
  split; [exact Hfree|]. split; [vm_compute; reflexivity|].
  split; [reflexivity|]. split; [reflexivity|].
  apply (normalize_tie_free [30; 10; 20] (ties "middle") [3; 1; 2] 2 20 2 Hfree);
    vm_compute; reflexivity.
Defined.

(** ** Keyword arguments *)

Lemma setdefault_fst kwargs key default :
  fst (setdefault kwargs key default) = option_of kwargs key default.
Proof. unfold setdefault, option_of. destruct (kwargs !! key); reflexivity. Qed.

Lemma setdefault_other kwargs key default key' :
  key <> key' -> snd (setdefault kwargs key default) !! key' = kwargs !! key'.
Proof.
  intros Hne. unfold setdefault. destruct (kwargs !! key); cbn [snd]; [reflexivity|].
  apply lookup_insert_ne. exact Hne.
Qed.

Lemma option_of_other kwargs key default key' default' :
  key <> key' ->
  option_of (snd (setdefault kwargs key default)) key' default'
  = option_of kwargs key' default'.
Proof.
  intros Hne. unfold option_of. rewrite (setdefault_other _ _ _ _ Hne). reflexivity.
Qed.

(** ** The pair loop of [kendall_tau] *)

Lemma combinations2_length {A : Type} (l : list A) :
  length (combinations2 l) = pair_count (length l).
Proof.
  assert (Htri : forall n, (2 * length (combinations2 (replicate n tt)) = n * (n - 1))%nat).
  { induction n as [|n IH]; [reflexivity|].
    cbn [replicate combinations2]. rewrite length_app, length_map, length_replicate.
    destruct n; [reflexivity|]. cbn [Nat.sub] in *. nia. }
  assert (Hshape : forall (l : list A),
             length (combinations2 l)
             = length (combinations2 (replicate (length l) tt))).
  { induction l0 as [|x xs IH]; [reflexivity|].
    cbn [length replicate combinations2].
    rewrite !length_app, !length_map, length_replicate, IH. reflexivity. }
  unfold pair_count. rewrite Hshape, <- (Htri (length l)).
  rewrite Nat.mul_comm, Nat.div_mul by lia. reflexivity.
Qed.

Lemma pair_step_counts e pen st pp :
  let st' := segment.pair_step e pen st pp in
  segment.c_pairs st' = (segment.c_pairs st + 1)%Z
  /\ (segment.c_concordant st <= segment.c_concordant st')%Z
  /\ (segment.c_discordant st <= segment.c_discordant st')%Z
  /\ (segment.c_concordant st' + segment.c_discordant st'
      <= segment.c_concordant st + segment.c_discordant st + 1)%Z
  /\ (segment.c_original_ties st <= segment.c_original_ties st'
      <= segment.c_original_ties st + 1)%Z
  /\ (segment.c_predicted_ties st <= segment.c_predicted_ties st'
      <= segment.c_predicted_ties st + 1)%Z.
Proof.
  destruct pp as [[oi oj] [pi pj]]. unfold segment.pair_step.
  destruct (Qeq_bool oi oj), (Qeq_bool pi pj),
    (Qeq_bool oi (-1) || Qeq_bool oj (-1)), (truthy e),
    (Qltb oj oi && Qltb pj pi || Qltb oi oj && Qltb pi pj), (truthy pen);
    cbn; lia.
Qed.

Lemma pair_loop_counts e pen : forall pps st,
  let st' := foldl (segment.pair_step e pen) st pps in
  segment.c_pairs st' = (segment.c_pairs st + Z.of_nat (length pps))%Z
  /\ (segment.c_concordant st <= segment.c_concordant st')%Z
  /\ (segment.c_discordant st <= segment.c_discordant st')%Z
  /\ (segment.c_concordant st' + segment.c_discordant st'
      <= segment.c_concordant st + segment.c_discordant st
         + Z.of_nat (length pps))%Z
  /\ (segment.c_original_ties st <= segment.c_original_ties st'
      <= segment.c_original_ties st + Z.of_nat (length pps))%Z
  /\ (segment.c_predicted_ties st <= segment.c_predicted_ties st'
      <= segment.c_predicted_ties st + Z.of_nat (length pps))%Z.
Proof.
  induction pps as [|pp pps IH]; intros st; cbn [foldl length].
  - cbn zeta. lia.
  - pose proof (pair_step_counts e pen st pp) as Hs.
    pose proof (IH (segment.pair_step e pen st pp)) as Hl.
    cbn zeta in *. lia.
Qed.

(** [kendall_tau] always returns; its result is built from the counters of
    the pair loop over the two normalised vectors. *)
Lemma kendall_tau_eval sqrt erfc p o kwargs :
  exists predicted original,
    normalize (ranks p) {[ "ties" := segment_ties_of kwargs ]} = Ok predicted
    /\ normalize (ranks o) {[ "ties" := segment_ties_of kwargs ]} = Ok original
    /\ segment.kendall_tau sqrt erfc p o kwargs
       = Ok (let st := tau_counters kwargs predicted original in
             let c := segment.c_concordant st in
             let d := segment.c_discordant st in
             let '(tau, prob) :=
               match py_div (1 * inject_Z (c - d)) (inject_Z (c + d)) with
               | Ok tau => (Some tau,
                            Some (segment.kendall_tau_prob sqrt erfc tau (c + d)))
               | Raise _ => (None, None)
               end in
             segment.mkResult tau prob c d (c + d)
               (segment.c_original_ties st) (segment.c_predicted_ties st)
               (segment.c_pairs st)).
Proof.
  unfold segment.kendall_tau, segment_ties_of.
  destruct (setdefault kwargs "ties" (VStr "ceiling")) as [t kw1] eqn:E1.
  cbn [fst].
  destruct (Ranking_normalize_spec p t) as (pn & HRp & Hnp & _).
  destruct (Ranking_normalize_spec o t) as (on & HRo & Hno & _).
  exists pn, on. split; [exact Hnp|]. split; [exact Hno|].
  rewrite HRp, (bind_Ok (mkRanking pn t)), HRo, (bind_Ok (mkRanking on t)).
  cbn [ranks].
  assert (Hkw1 : kw1 = snd (setdefault kwargs "ties" (VStr "ceiling")))
    by (rewrite E1; reflexivity).
  destruct (setdefault kw1 "exclude_ties" (VBool true)) as [e kw2] eqn:E2.
  destruct (setdefault kw2 "penalize_predicted_ties" (VBool true)) as [pen kw3] eqn:E3.
  destruct (setdefault kw3 "invert_ranks" (VBool false)) as [inv kw4] eqn:E4.
  assert (He : e = option_of kwargs "exclude_ties" (VBool true)).
  { change e with (fst (e, kw2)). rewrite <- E2, setdefault_fst, Hkw1.
    apply option_of_other. discriminate. }
  assert (Hkw2 : kw2 = snd (setdefault kw1 "exclude_ties" (VBool true)))
    by (rewrite E2; reflexivity).
  assert (Hpen : pen = option_of kwargs "penalize_predicted_ties" (VBool true)).
  { change pen with (fst (pen, kw3)). rewrite <- E3, setdefault_fst, Hkw2.
    rewrite option_of_other by discriminate. rewrite Hkw1.
    apply option_of_other. discriminate. }
  assert (Hkw3 : kw3 = snd (setdefault kw2 "penalize_predicted_ties" (VBool true)))
    by (rewrite E3; reflexivity).
  assert (Hinv : inv = option_of kwargs "invert_ranks" (VBool false)).
  { change inv with (fst (inv, kw4)). rewrite <- E4, setdefault_fst, Hkw3.
    rewrite option_of_other by discriminate. rewrite Hkw2.
    rewrite option_of_other by discriminate. rewrite Hkw1.
    apply option_of_other. discriminate. }
  unfold tau_counters, tau_pairs. rewrite <- He, <- Hpen, <- Hinv.
  cbn zeta. destruct (py_div _ _); reflexivity.
Qed.

Lemma tau_counters_facts kwargs pn on :
  let st := tau_counters kwargs pn on in
  segment.c_pairs st
  = Z.of_nat (min (pair_count (length on)) (pair_count (length pn)))
  /\ (0 <= segment.c_concordant st)%Z
  /\ (0 <= segment.c_discordant st)%Z
  /\ (segment.c_concordant st + segment.c_discordant st <= segment.c_pairs st)%Z
  /\ (0 <= segment.c_original_ties st <= segment.c_pairs st)%Z
  /\ (0 <= segment.c_predicted_ties st <= segment.c_pairs st)%Z.
Proof.
  cbn zeta. unfold tau_counters.
  pose proof (pair_loop_counts (option_of kwargs "exclude_ties" (VBool true))
                (option_of kwargs "penalize_predicted_ties" (VBool true))
                (tau_pairs kwargs pn on) (segment.mkCounters 0 0 0 0 0)) as H.
  cbn zeta in H. cbn [segment.c_pairs segment.c_concordant segment.c_discordant
                      segment.c_original_ties segment.c_predicted_ties] in H.
  assert (Hlen : length (tau_pairs kwargs pn on)
                 = min (pair_count (length on)) (pair_count (length pn))).
  { unfold tau_pairs. rewrite length_zip, length_map, !combinations2_length.
    reflexivity. }
  rewrite Hlen in H. lia.
Qed.

Lemma kendall_tau_total :
  forall (sqrt erfc : Q -> Q) (predicted_rank_vector original_rank_vector : Ranking)
         (kwargs : gmap string pyval),
    exists res,
      segment.kendall_tau sqrt erfc predicted_rank_vector original_rank_vector kwargs
      = Ok res
      /\ segment.pairs res
         = Z.of_nat (min (pair_count (length (ranks original_rank_vector)))
                         (pair_count (length (ranks predicted_rank_vector))))
      /\ (0 <= segment.concordant_count res)%Z
      /\ (0 <= segment.discordant_count res)%Z
      /\ segment.all_pairs_count res
         = (segment.concordant_count res + segment.discordant_count res)%Z
      /\ (segment.all_pairs_count res <= segment.pairs res)%Z
      /\ (0 <= segment.original_ties res <= segment.pairs res)%Z
      /\ (0 <= segment.predicted_ties res <= segment.pairs res)%Z.
Proof.
  intros sqrt erfc p o kwargs.
  destruct (kendall_tau_eval sqrt erfc p o kwargs) as (pn & on & Hp & Ho & Hk).
  eexists. split; [exact Hk|].
  destruct (normalize_spec (ranks p) {[ "ties" := segment_ties_of kwargs ]})
    as (pn' & Hp' & Hlp & _).
  destruct (normalize_spec (ranks o) {[ "ties" := segment_ties_of kwargs ]})
    as (on' & Ho' & Hlo & _).
  assert (pn' = pn) by congruence. assert (on' = on) by congruence. subst.
  pose proof (tau_counters_facts kwargs pn on) as H. cbn zeta in H.
  rewrite Hlp, Hlo in H. cbn zeta.
  destruct (py_div _ _);
    cbn [segment.pairs segment.concordant_count segment.discordant_count
         segment.all_pairs_count segment.original_ties segment.predicted_ties];
    repeat split; lia.
Qed.

(** X12: [kendall_tau] never raises, whatever the vectors and options.  The
    pair count is the number of unordered pairs of items (of the shorter
    vector when the lengths differ: the surplus is dropped silently); no count
    is negative, the valid pairs are the concordant plus the discordant ones,
    and neither they nor the tie counts exceed the pair count. *)
Theorem kendall_tau_counts :
  forall (sqrt erfc : Q -> Q) (predicted_rank_vector original_rank_vector : Ranking)
         (kwargs : gmap string pyval),
    exists res,
      segment.kendall_tau sqrt erfc predicted_rank_vector original_rank_vector kwargs
      = Ok res
      /\ segment.pairs res
         = Z.of_nat (min (pair_count (length (ranks original_rank_vector)))
                         (pair_count (length (ranks predicted_rank_vector))))
      /\ (0 <= segment.concordant_count res)%Z
      /\ (0 <= segment.discordant_count res)%Z
      /\ segment.all_pairs_count res
         = (segment.concordant_count res + segment.discordant_count res)%Z
      /\ (segment.all_pairs_count res <= segment.pairs res)%Z
      /\ (0 <= segment.original_ties res <= segment.pairs res)%Z
      /\ (0 <= segment.predicted_ties res <= segment.pairs res)%Z.
Proof. apply kendall_tau_total. Qed.

(** ** The value of tau *)

Lemma inject_Z_sub a b : inject_Z (a - b) == inject_Z a - inject_Z b.
Proof.
  unfold Z.sub. rewrite inject_Z_plus, inject_Z_opp. reflexivity.
Qed.

Lemma tau_value (c d : Z) t :
  (0 <= c)%Z -> (0 <= d)%Z -> (c + d <> 0)%Z ->
  t = 1 * inject_Z (c - d) / inject_Z (c + d) ->
  t == inject_Z (c - d) / inject_Z (c + d)
  /\ -1 <= t /\ t <= 1 /\ (t == 1 <-> d = 0%Z) /\ (t == -1 <-> c = 0%Z).
Proof.
  intros Hc Hd Hn ->.
  assert (HC : 0 <= inject_Z c) by (change 0 with (inject_Z 0); rewrite <- Zle_Qle; lia).
  assert (HD : 0 <= inject_Z d) by (change 0 with (inject_Z 0); rewrite <- Zle_Qle; lia).
  assert (HN : 0 < inject_Z c + inject_Z d).
  { rewrite <- inject_Z_plus. change 0 with (inject_Z 0). rewrite <- Zlt_Qlt. lia. }
  assert (Hzero : forall z, inject_Z z == 0 <-> z = 0%Z).
  { intros z. change 0 with (inject_Z 0). split.
    - apply inject_Z_injective.
    - intros ->. reflexivity. }
  rewrite Qmult_1_l, inject_Z_sub, inject_Z_plus.
  rewrite <- (Hzero c), <- (Hzero d).
  revert HC HD HN. generalize (inject_Z c), (inject_Z d). intros C D HC HD HN.
  assert (Hne : ~ C + D == 0) by lra.
  split; [reflexivity|]. split; [|split; [|split]].
  - apply Qle_shift_div_l; lra.
  - apply Qle_shift_div_r; lra.
  - split; intros H.
    + pose proof (Qmult_div_r (C - D) (C + D) Hne) as Hm. rewrite H in Hm. lra.
    + assert (Hcd : C - D == C + D) by lra. rewrite Hcd. field. exact Hne.
  - split; intros H.
    + pose proof (Qmult_div_r (C - D) (C + D) Hne) as Hm. rewrite H in Hm. lra.
    + assert (Hcd : C - D == - (C + D)) by lra. rewrite Hcd. field. exact Hne.
Qed.

(** X13: the tau that [kendall_tau] reports.  Without valid pairs tau and
    prob are [None]; otherwise tau is (concordant - discordant) / (concordant
    + discordant), lies between -1 and 1, is 1 exactly when no pair is
    discordant and -1 exactly when no pair is concordant, and prob is
    [kendall_tau_prob] of it. *)
Theorem kendall_tau_value :
  forall (sqrt erfc : Q -> Q) (predicted_rank_vector original_rank_vector : Ranking)
         (kwargs : gmap string pyval),
    exists res,
      segment.kendall_tau sqrt erfc predicted_rank_vector original_rank_vector kwargs
      = Ok res
      /\ (segment.all_pairs_count res = 0%Z ->
          segment.tau res = None /\ segment.prob res = None)
      /\ (segment.all_pairs_count res <> 0%Z ->
          exists t,
            segment.tau res = Some t
            /\ segment.prob res
               = Some (segment.kendall_tau_prob sqrt erfc t
                         (segment.all_pairs_count res))
            /\ t == inject_Z (segment.concordant_count res
                              - segment.discordant_count res)
                    / inject_Z (segment.concordant_count res
                                + segment.discordant_count res)
            /\ -1 <= t /\ t <= 1
            /\ (t == 1 <-> segment.discordant_count res = 0%Z)
            /\ (t == -1 <-> segment.concordant_count res = 0%Z)).
Proof.
  intros sqrt erfc p o kwargs.
  destruct (kendall_tau_eval sqrt erfc p o kwargs) as (pn & on & Hp & Ho & Hk).
  eexists. split; [exact Hk|].
  pose proof (tau_counters_facts kwargs pn on) as (_ & Hc & Hd & _).
  cbn zeta.
  set (c := segment.c_concordant (tau_counters kwargs pn on)) in *.
  set (d := segment.c_discordant (tau_counters kwargs pn on)) in *.
  destruct (py_div (1 * inject_Z (c - d)) (inject_Z (c + d))) as [t|e] eqn:Hdiv;
    cbn [segment.tau segment.prob segment.all_pairs_count
         segment.concordant_count segment.discordant_count].
  - apply py_div_value in Hdiv as [Ht Hne]. split.
    + intros Hz. exfalso. apply Hne. rewrite Hz. reflexivity.
    + intros Hnz. exists t. split; [reflexivity|]. split; [reflexivity|].
      apply tau_value; assumption.
  - split; [auto|]. intros Hnz. exfalso.
    unfold py_div in Hdiv. destruct (Qeq_bool (inject_Z (c + d)) 0) eqn:E; [|discriminate].
    apply Qeq_bool_iff in E. change 0 with (inject_Z 0) in E.
    apply (proj1 (inject_Z_injective _ _)) in E. exact (Hnz E).
Qed.

(** ** A ranking against itself *)

Lemma zip_scaled_agree (cs : list (Q * Q)) :
  Forall (fun pp : (Q * Q) * (Q * Q) =>
            fst (fst pp) == fst (snd pp) /\ snd (fst pp) == snd (snd pp))
         (zip (map (fun '(i, j) => (1 * i, 1 * j)) cs) cs).
Proof.
  induction cs as [|[a b] cs IH]; cbn [map zip zip_with]; constructor.
  - cbn. split; ring.
  - exact IH.
Qed.

Lemma pair_step_agree e pen st pp :
  fst (fst pp) == fst (snd pp) -> snd (fst pp) == snd (snd pp) ->
  segment.c_discordant (segment.pair_step e pen st pp) = segment.c_discordant st.
Proof.
  destruct pp as [[oi oj] [pi pj]]. cbn [fst snd]. intros Hi Hj.
  unfold segment.pair_step.
  assert (Hcon : Qltb oj oi && Qltb pj pi || Qltb oi oj && Qltb pi pj
                 || Qeq_bool oi oj && Qeq_bool pi pj = true).
  { destruct (Q_dec oi oj) as [[Hlt|Hgt]|Heq].
    - assert (H1 : Qltb oi oj = true) by (apply Qltb_lt; exact Hlt).
      assert (H2 : Qltb pi pj = true) by (apply Qltb_lt; lra).
      rewrite H1, H2. cbn. rewrite orb_true_r. reflexivity.
    - assert (H1 : Qltb oj oi = true) by (apply Qltb_lt; exact Hgt).
      assert (H2 : Qltb pj pi = true) by (apply Qltb_lt; lra).
      rewrite H1, H2. reflexivity.
    - assert (H1 : Qeq_bool oi oj = true) by (apply Qeq_bool_iff; exact Heq).
      assert (H2 : Qeq_bool pi pj = true) by (apply Qeq_bool_iff; lra).
      rewrite H1, H2. cbn. rewrite orb_true_r. reflexivity. }
  rewrite Hcon.
  destruct (Qeq_bool oi (-1) || Qeq_bool oj (-1)), (Qeq_bool oi oj && truthy e);
    reflexivity.
Qed.

Lemma pair_loop_agree e pen : forall pps st,
  Forall (fun pp : (Q * Q) * (Q * Q) =>
            fst (fst pp) == fst (snd pp) /\ snd (fst pp) == snd (snd pp)) pps ->
  segment.c_discordant (foldl (segment.pair_step e pen) st pps)
  = segment.c_discordant st.
Proof.
  induction pps as [|pp pps IH]; intros st Hall; cbn [foldl]; [reflexivity|].
  apply Forall_cons in Hall as [[H1 H2] Hall].
  rewrite (IH _ Hall). apply pair_step_agree; assumption.
Qed.

(** X2: a ranking compared with itself (ranks not inverted) has no discordant
    pair, under every tie policy and every setting of the other options: tau
    is 1, or undefined when no pair is valid. *)
Theorem kendall_tau_identical :
  forall (sqrt erfc : Q -> Q) (rank_vector : Ranking) (kwargs : gmap string pyval),
    truthy (option_of kwargs "invert_ranks" (VBool false)) = false ->
    exists res,
      segment.kendall_tau sqrt erfc rank_vector rank_vector kwargs = Ok res
      /\ segment.discordant_count res = 0%Z
      /\ (segment.tau res = None
          \/ exists t, segment.tau res = Some t /\ t == 1).
Proof.
  intros sqrt erfc r kwargs Hinv.
  destruct (kendall_tau_eval sqrt erfc r r kwargs) as (pn & on & Hp & Ho & Hk).
  assert (on = pn) by congruence. subst on.
  eexists. split; [exact Hk|].
  assert (Hd : segment.c_discordant (tau_counters kwargs pn pn) = 0%Z).
  { unfold tau_counters, tau_pairs. rewrite Hinv.
    rewrite pair_loop_agree; [reflexivity | apply zip_scaled_agree]. }
  pose proof (tau_counters_facts kwargs pn pn) as (_ & Hc & _).
  cbn zeta. rewrite Hd.
  set (c := segment.c_concordant (tau_counters kwargs pn pn)) in *.
  destruct (py_div (1 * inject_Z (c - 0)) (inject_Z (c + 0))) as [t|e] eqn:Hdiv;
    cbn [segment.tau segment.discordant_count].
  - split; [reflexivity|]. right. exists t. split; [reflexivity|].
    apply py_div_value in Hdiv as [Ht Hne].
    assert (Hnz : (c + 0 <> 0)%Z).
    { intros Hz. apply Hne. rewrite Hz. reflexivity. }
    destruct (tau_value c 0 t Hc (Z.le_refl 0) Hnz Ht) as (_ & _ & _ & Hone & _).
    apply Hone. reflexivity.
  - split; [reflexivity|]. left. reflexivity.
Qed.

Lemma kendall_tau_identical_witness :
  truthy (option_of (ties "floor") "invert_ranks" (VBool false)) = false
  /\ exists res,
       segment.kendall_tau (fun x => x) (fun x => x)
         (Ranking_init [2; 7; 7; 1] ∅) (Ranking_init [2; 7; 7; 1] ∅) (ties "floor")
       = Ok res
       /\ segment.discordant_count res = 0%Z
       /\ (segment.tau res = None
           \/ exists t, segment.tau res = Some t /\ t == 1).
Proof.
  split; [reflexivity|].
  apply (kendall_tau_identical (fun x => x) (fun x => x)
           (Ranking_init [2; 7; 7; 1] ∅) (ties "floor")).
  reflexivity.
Defined.

(** ** [_calculate_gains] *)








(** ** Sums, [sort] and the ideal ordering *)

Lemma foldl_Qplus_shift l : forall a, foldl Qplus a l == a + foldl Qplus 0 l.
Proof.
  induction l as [|x l IH]; intros a; cbn [foldl]; [ring|].
  rewrite (IH (a + x)), (IH (0 + x)). ring.
Qed.

Lemma py_sum_cons x l : py_sum (x :: l) == x + py_sum l.
Proof. unfold py_sum. cbn [foldl]. rewrite foldl_Qplus_shift. ring. Qed.

Lemma py_sum_app l1 l2 : py_sum (l1 ++ l2) == py_sum l1 + py_sum l2.
Proof.
  induction l1 as [|x l1 IH]; cbn [app].
  - unfold py_sum at 2. cbn [foldl]. ring.
  - rewrite !py_sum_cons, IH. ring.
Qed.

Lemma py_sum_perm l l' : l ≡ₚ l' -> py_sum l == py_sum l'.
Proof.
  induction 1 as [|x l l' _ IH|x y l|l l' l'' _ IH1 _ IH2].
  - reflexivity.
  - rewrite !py_sum_cons, IH. reflexivity.
  - rewrite !py_sum_cons. ring.
  - rewrite IH1. exact IH2.
Qed.

Lemma insert_sorted_perm x : forall s, insert_sorted x s ≡ₚ x :: s.
Proof.
  induction s as [|y s IH]; cbn [insert_sorted]; [reflexivity|].
  destruct (Qltb y x); [|reflexivity].
  rewrite IH. apply perm_swap.
Qed.

Lemma py_sort_perm l : py_sort l ≡ₚ l.
Proof.
  induction l as [|x l IH]; [reflexivity|].
  unfold py_sort in *. cbn [foldr]. rewrite insert_sorted_perm, IH. reflexivity.
Qed.

Lemma insert_sorted_nondecreasing x : forall s,
  nondecreasing s -> nondecreasing (insert_sorted x s).
Proof.
  induction s as [|y s IH]; intros Hs; cbn [insert_sorted].
  - cbn. split; [constructor | exact I].
  - destruct Hs as [Hy Hs]. destruct (Qltb y x) eqn:E.
    + apply Qltb_lt in E. cbn [nondecreasing]. split; [|apply IH, Hs].
      rewrite (insert_sorted_perm x s). constructor; [lra | exact Hy].
    + apply Qltb_false in E. cbn [nondecreasing]. split; [|split; assumption].
      constructor; [exact E|].
      eapply Forall_impl; [exact Hy|]. intros z Hz. cbn beta in Hz. lra.
Qed.

Lemma py_sort_nondecreasing l : nondecreasing (py_sort l).
Proof.
  induction l as [|x l IH]; [exact I|].
  unfold py_sort in *. cbn [foldr]. apply insert_sorted_nondecreasing, IH.
Qed.

(** No [m] items of a list sum to more than its [m] largest ones. *)
Lemma top_prefix : forall s c,
  nondecreasing s -> c ⊆+ s ->
  py_sum c <= py_sum (take (length c) (rev s)).
Proof.
  induction s as [|x s IH]; intros c Hs Hc.
  - apply submseteq_nil_r in Hc. subst c. cbn. lra.
  - destruct Hs as [Hx Hs]. cbn [rev].
    apply submseteq_cons_r in Hc as [Hc|(c' & Hperm & Hc')].
    + pose proof (submseteq_length _ _ Hc) as Hlen.
      rewrite take_app_le by (rewrite length_rev; exact Hlen).
      apply IH; assumption.
    + pose proof (submseteq_length _ _ Hc') as Hlen.
      rewrite (py_sum_perm _ _ Hperm), (Permutation_length Hperm), py_sum_cons.
      cbn [length]. pose proof (IH c' Hs Hc') as Hsum.
      destruct (decide (length c' = length s)) as [Heq|Hneq].
      * rewrite take_ge by (rewrite length_app, length_rev; cbn [length]; lia).
        rewrite take_ge in Hsum by (rewrite length_rev; lia).
        rewrite py_sum_app, py_sum_cons. cbn. lra.
      * assert (Hlt : (length c' < length (rev s))%nat) by (rewrite length_rev; lia).
        destruct (lookup_lt_is_Some_2 _ _ Hlt) as [e He].
        rewrite take_app_le by lia.
        rewrite (take_S_r _ _ _ He), py_sum_app, py_sum_cons.
        assert (Hxe : x <= e).
        { rewrite Forall_forall in Hx. apply Hx.
          apply In_elem, in_rev, elem_In. eapply list_elem_of_lookup_2, He. }
        cbn. lra.
Qed.


Section discounting.

Variable log : Q -> Q.
Hypothesis log_pos : forall x, 1 < x -> 0 < log x.
Hypothesis log_mono : forall x y, 1 < x -> x <= y -> log x <= log y.

Lemma discount_weights (j : nat) :
  0 < / log (inject_Z (Z.of_nat (S j)) + 2)
  /\ / log (inject_Z (Z.of_nat (S j)) + 2) <= / log (inject_Z (Z.of_nat j) + 2).
Proof.
  pose proof (log_position_pos log log_pos j) as Hj.
  pose proof (log_position_pos log log_pos (S j)) as HSj.
  assert (Hle : log (inject_Z (Z.of_nat j) + 2) <= log (inject_Z (Z.of_nat (S j)) + 2)).
  { assert (H0 : 0 <= inject_Z (Z.of_nat j)).
    { change 0 with (inject_Z 0). rewrite <- Zle_Qle. lia. }
    apply log_mono; [lra|].
    rewrite Nat2Z.inj_succ. unfold Z.succ. rewrite inject_Z_plus.
    change (inject_Z 1) with 1. lra. }
  revert Hj HSj Hle.
  generalize (log (inject_Z (Z.of_nat j) + 2)), (log (inject_Z (Z.of_nat (S j)) + 2)).
  intros a b Ha Hb Hab.
  split; [apply Qinv_lt_0_compat, Hb|].
  apply Qle_shift_inv_l; [exact Ha|].
  assert (E : / b * a == a / b) by (field; lra). rewrite E.
  apply Qle_shift_div_r; lra.
Qed.


(** With weights that do not increase, a list whose prefix sums dominate
    those of another list has the larger discounted sum. *)
Lemma weighted_dominance : forall a b j s,
  length a = length b ->
  (forall i, py_sum (take i a) <= s + py_sum (take i b)) ->
  py_sum (discount_terms log j a)
  <= s * / log (inject_Z (Z.of_nat j) + 2) + py_sum (discount_terms log j b).
Proof.
  induction a as [|x a IH]; intros [|y b] j s Hlen Hpre; try discriminate.
  - pose proof (Hpre 0%nat) as H0. cbn in H0. cbn [discount_terms].
    pose proof (Qinv_lt_0_compat _ (log_position_pos log log_pos j)) as Hw.
    cbn. nra.
  - cbn [discount_terms]. rewrite !py_sum_cons.
    pose proof (Hpre 1%nat) as H1. rewrite !firstn_cons, !take_0 in H1.
    rewrite !py_sum_cons in H1. change (py_sum []) with 0 in H1.
    assert (Hpre' : forall i, py_sum (take i a) <= (s + y - x) + py_sum (take i b)).
    { intros i. pose proof (Hpre (S i)) as Hi. cbn [take] in Hi.
      rewrite !py_sum_cons in Hi. lra. }
    injection Hlen as Hlen.
    pose proof (IH b (S j) (s + y - x) Hlen Hpre') as HI.
    destruct (discount_weights j) as [Hw1 Hw2].
    revert HI Hw1 Hw2.
    generalize (py_sum (discount_terms log (S j) a)),
               (py_sum (discount_terms log (S j) b)).
    unfold Qdiv.
    generalize (/ log (inject_Z (Z.of_nat (S j)) + 2)),
               (/ log (inject_Z (Z.of_nat j) + 2)).
    intros w' w A B HI Hw1 Hw2.
    assert (Hprod : 0 <= (s + y - x) * (w - w')) by (apply Qmult_le_0_compat; lra).
    nra.
Qed.



End discounting.

(** ** The ERR loop *)



(** ** [ndgc_err] on vectors of equal length *)





Lemma sorted_gains_length gains : length (rev (py_sort gains)) = length gains.
Proof. rewrite length_rev. apply Permutation_length, py_sort_perm. Qed.



(** ** Averages *)

Lemma py_sum_lower lo l :
  Forall (fun x => lo <= x) l -> of_nat (length l) * lo <= py_sum l.
Proof.
  induction 1 as [|x l Hx _ IH].
  - change (of_nat (length (@nil Q))) with 0. change (py_sum []) with 0. lra.
  - cbn [length]. rewrite of_nat_S, py_sum_cons. lra.
Qed.

Lemma py_sum_upper hi l :
  Forall (fun x => x <= hi) l -> py_sum l <= of_nat (length l) * hi.
Proof.
  induction 1 as [|x l Hx _ IH].
  - change (of_nat (length (@nil Q))) with 0. change (py_sum []) with 0. lra.
  - cbn [length]. rewrite of_nat_S, py_sum_cons. lra.
Qed.

Lemma py_sum_lower_strict lo l :
  l <> [] -> Forall (fun x => lo < x) l -> of_nat (length l) * lo < py_sum l.
Proof.
  intros Hne Hall. destruct Hall as [|x l Hx Hall]; [congruence|].
  pose proof (py_sum_lower lo l) as Hl.
  assert (Hle : Forall (fun x => lo <= x) l).
  { eapply Forall_impl; [exact Hall|]. intros y Hy. cbn beta in Hy. lra. }
  specialize (Hl Hle). cbn [length]. rewrite of_nat_S, py_sum_cons. lra.
Qed.

Lemma py_sum_upper_strict hi l :
  l <> [] -> Forall (fun x => x < hi) l -> py_sum l < of_nat (length l) * hi.
Proof.
  intros Hne Hall. destruct Hall as [|x l Hx Hall]; [congruence|].
  pose proof (py_sum_upper hi l) as Hl.
  assert (Hle : Forall (fun x => x <= hi) l).
  { eapply Forall_impl; [exact Hall|]. intros y Hy. cbn beta in Hy. lra. }
  specialize (Hl Hle). cbn [length]. rewrite of_nat_S, py_sum_cons. lra.
Qed.

Lemma of_nat_length_pos {A : Type} (l : list A) : l <> [] -> 0 < of_nat (length l).
Proof.
  intros Hne. destruct l as [|x l]; [congruence|].
  cbn [length]. rewrite of_nat_S. pose proof (of_nat_nonneg (length l)). lra.
Qed.

Lemma np_average_nonempty l :
  l <> [] -> np_average l = Some (py_sum l / of_nat (length l)).
Proof. destruct l; [congruence|]. reflexivity. Qed.

(** The mean of a non-empty list lies within any bounds of its items. *)
Lemma np_average_bounds l :
  l <> [] ->
  exists a,
    np_average l = Some a
    /\ (forall lo, Forall (fun x => lo <= x) l -> lo <= a)
    /\ (forall hi, Forall (fun x => x <= hi) l -> a <= hi)
    /\ (forall lo, Forall (fun x => lo < x) l -> lo < a)
    /\ (forall hi, Forall (fun x => x < hi) l -> a < hi).
Proof.
  intros Hne. exists (py_sum l / of_nat (length l)).
  split; [apply np_average_nonempty, Hne|].
  pose proof (of_nat_length_pos l Hne) as Hn.
  repeat split; intros b Hall.
  - apply Qle_shift_div_l; [exact Hn|]. pose proof (py_sum_lower b l Hall). lra.
  - apply Qle_shift_div_r; [exact Hn|]. pose proof (py_sum_upper b l Hall). lra.
  - apply Qlt_shift_div_l; [exact Hn|].
    pose proof (py_sum_lower_strict b l Hne Hall). lra.
  - apply Qlt_shift_div_r; [exact Hn|].
    pose proof (py_sum_upper_strict b l Hne Hall). lra.
Qed.

(** ** [mrr] *)

Lemma mrr_step_eq acc p o :
  set.mrr_step acc (p, o)
  = rr ← segment.reciprocal_rank p o ∅; mret (acc ++ [rr]).
Proof. reflexivity. Qed.

Lemma mrr_loop : forall segs acc,
  Forall comparable segs ->
  exists rrs,
    for_each set.mrr_step segs acc = Ok (acc ++ rrs)
    /\ length rrs = length segs
    /\ Forall (fun rr => 0 < rr /\ rr <= 1) rrs.
Proof.
  induction segs as [|[p o] segs IH]; intros acc Hall; cbn [for_each].
  - exists []. rewrite app_nil_r. repeat split; constructor.
  - apply Forall_cons in Hall as [[Hne Hlen] Hall]. cbn [fst snd] in Hne, Hlen.
    destruct (reciprocal_rank_spec p o ∅ Hne Hlen)
      as (rr & pn & on & Hrr & _ & _ & Hpos & Hle & _).
    rewrite mrr_step_eq, Hrr, !bind_Ok.
    destruct (IH (acc ++ [rr]) Hall) as (rrs & Hrun & Hl & Hb).
    exists (rr :: rrs). rewrite Hrun, <- app_assoc. cbn [app length].
    repeat split; [congruence|]. constructor; [split; assumption | exact Hb].
Qed.

(** X16: on a non-empty sequence of segments, each with non-empty vectors of
    equal length, [mrr] returns a value above 0 and at most 1, whatever
    keyword arguments it is given. *)
Theorem mrr_bounds :
  forall (predicted_rank_vectors original_rank_vectors : list Ranking)
         (kwargs : gmap string pyval),
    zip predicted_rank_vectors original_rank_vectors <> [] ->
    Forall comparable (zip predicted_rank_vectors original_rank_vectors) ->
    exists m,
      set.mrr predicted_rank_vectors original_rank_vectors kwargs = Ok (Some m)
      /\ 0 < m /\ m <= 1.
Proof.
  intros ps os kwargs Hne Hall. unfold set.mrr.
  destruct (mrr_loop _ [] Hall) as (rrs & Hrun & Hlen & Hb).
  rewrite Hrun, bind_Ok. cbn [app].
  assert (Hrne : rrs <> []).
  { intros ->. destruct (zip ps os); [congruence | discriminate]. }
  destruct (np_average_bounds rrs Hrne) as (a & Ha & _ & Hhi & Hlo & _).
  exists a. split; [rewrite Ha; reflexivity|]. split.
  - apply Hlo. eapply Forall_impl; [exact Hb|]. intros x [H0 _]. exact H0.
  - apply Hhi. eapply Forall_impl; [exact Hb|]. intros x [_ H1]. exact H1.
Qed.

Lemma mrr_bounds_witness :
  zip [Ranking_init [2; 1; 3] ∅; Ranking_init [1; 1] ∅]
      [Ranking_init [3; 1; 2] ∅; Ranking_init [2; 1] ∅] <> []
  /\ Forall comparable
       (zip [Ranking_init [2; 1; 3] ∅; Ranking_init [1; 1] ∅]
            [Ranking_init [3; 1; 2] ∅; Ranking_init [2; 1] ∅])
  /\ exists m,
       set.mrr [Ranking_init [2; 1; 3] ∅; Ranking_init [1; 1] ∅]
               [Ranking_init [3; 1; 2] ∅; Ranking_init [2; 1] ∅] (ties "floor")
       = Ok (Some m)
       /\ 0 < m /\ m <= 1.
Proof.
  assert (H : Forall comparable
                (zip [Ranking_init [2; 1; 3] ∅; Ranking_init [1; 1] ∅]
                     [Ranking_init [3; 1; 2] ∅; Ranking_init [2; 1] ∅])).
  { repeat constructor; discriminate. }
  split; [discriminate|]. split; [exact H|].
  apply (mrr_bounds [Ranking_init [2; 1; 3] ∅; Ranking_init [1; 1] ∅]
                    [Ranking_init [3; 1; 2] ∅; Ranking_init [2; 1] ∅] (ties "floor"));
    [discriminate | exact H].
Defined.

(** ** [avg_ndgc_err] *)

Section averaged_gains.

Variable log : Q -> Q.
Hypothesis log_pos : forall x, 1 < x -> 0 < log x.
Hypothesis log_mono : forall x y, 1 < x -> x <= y -> log x <= log y.





End averaged_gains.





(** ** The outcome of [kendall_tau_set] *)

Lemma kendall_tau_all_facts sqrt erfc kwargs : forall segs,
  exists rs,
    kendall_tau_all sqrt erfc kwargs segs = Ok rs
    /\ length rs = length segs
    /\ (0 <= total segment.concordant_count rs)%Z
    /\ (0 <= total segment.discordant_count rs)%Z
    /\ (total segment.concordant_count rs + total segment.discordant_count rs
        <= total segment.pairs rs)%Z.
Proof.
  induction segs as [|[p o] segs IH]; cbn [kendall_tau_all].
  - exists []. cbn. repeat split; lia.
  - destruct (kendall_tau_total sqrt erfc p o kwargs)
      as (r & Hr & _ & Hc & Hd & Hall & Hle & _).
    destruct IH as (rs & Hrs & Hlen & Hcs & Hds & Hles).
    exists (r :: rs). rewrite Hr, bind_Ok, Hrs, bind_Ok.
    unfold total in *. cbn [foldr length].
    split; [reflexivity|]. repeat split; lia.
Qed.

Lemma tau_set_step_eval sqrt erfc kwargs st p o :
  exists st',
    set.tau_set_step sqrt erfc kwargs st (p, o) = Ok st'
    /\ set.predicted_rank_vector st' = Some p
    /\ exists v, set.predicted_ties st' = Some v.
Proof.
  destruct (kendall_tau_total sqrt erfc p o kwargs) as (r & Hr & _).
  unfold set.tau_set_step. rewrite Hr, bind_Ok.
  eexists. split; [reflexivity|]. cbn. eauto.
Qed.

(** The segment loop never raises; after it the loop variables hold the
    values of the last segment. *)
Lemma tau_set_loop_eval sqrt erfc kwargs : forall segs st,
  exists st',
    for_each (set.tau_set_step sqrt erfc kwargs) segs st = Ok st'
    /\ (segs = [] -> st' = st)
    /\ (forall p o, last segs = Some (p, o) ->
          set.predicted_rank_vector st' = Some p
          /\ exists v, set.predicted_ties st' = Some v).
Proof.
  induction segs as [|[p o] segs IH]; intros st; cbn [for_each].
  - exists st. split; [reflexivity|]. split; [reflexivity|]. discriminate.
  - destruct (tau_set_step_eval sqrt erfc kwargs st p o) as (st1 & Hstep & Hv & Ht).
    rewrite Hstep, bind_Ok.
    destruct (IH st1) as (st' & Hrun & Hnil & Hlast).
    exists st'. split; [exact Hrun|]. split; [discriminate|].
    intros p' o' Hl. destruct segs as [|seg segs].
    + cbn in Hl. injection Hl as <- <-. rewrite (Hnil eq_refl). auto.
    + exact (Hlast p' o' Hl).
Qed.

Lemma py_div_zero x y : y == 0 -> py_div x y = Raise ZeroDivisionError.
Proof.
  intros Hy. unfold py_div. apply Qeq_bool_iff in Hy. rewrite Hy. reflexivity.
Qed.

Lemma inject_Z_nonzero z : z <> 0%Z -> ~ inject_Z z == 0.
Proof.
  intros Hz H. apply Hz. change 0 with (inject_Z 0) in H.
  exact (proj1 (inject_Z_injective z 0) H).
Qed.

(** X18: the outcome of [kendall_tau_set].  It returns exactly when the
    segments have at least one valid (concordant or discordant) pair in
    total and the predicted vector of the last segment is not empty; in every
    other case, the empty input included, it raises [ZeroDivisionError], and
    it never raises anything else. *)
Theorem kendall_tau_set_outcome :
  forall (sqrt erfc : Q -> Q) (predicted_rank_vectors original_rank_vectors : list Ranking)
         (kwargs : gmap string pyval),
    exists rs,
      kendall_tau_all sqrt erfc kwargs
        (zip predicted_rank_vectors original_rank_vectors) = Ok rs
      /\ match set.kendall_tau_set sqrt erfc predicted_rank_vectors
                 original_rank_vectors kwargs with
         | Ok stats =>
             (total segment.concordant_count rs
              + total segment.discordant_count rs <> 0)%Z
             /\ exists p o,
                  last (zip predicted_rank_vectors original_rank_vectors)
                  = Some (p, o)
                  /\ ranks p <> []
         | Raise e =>
             e = ZeroDivisionError
             /\ ((total segment.concordant_count rs
                  + total segment.discordant_count rs = 0)%Z
                 \/ exists p o,
                      last (zip predicted_rank_vectors original_rank_vectors)
                      = Some (p, o)
                      /\ ranks p = [])
         end.
Proof.
  intros sqrt erfc ps os kwargs.
  destruct (kendall_tau_all_facts sqrt erfc kwargs (zip ps os))
    as (rs & Hrs & Hlen & Hc & Hd & Hle).
  exists rs. split; [exact Hrs|].
  unfold set.kendall_tau_set.
  destruct (tau_set_loop_eval sqrt erfc kwargs (zip ps os)
              (set.mkTauState [] [] 0 0 0 0 0 0 0 None None))
    as (st & Hrun & Hnil & Hlast).
  rewrite Hrun, (bind_Ok st).
  destruct (tau_set_loop_totals sqrt erfc kwargs _ _ _ Hrun)
    as (rs' & Hrs' & Tc & Td & _ & Tp & _).
  assert (rs' = rs) by congruence. subst rs'.
  cbn [set.concordant set.discordant set.pairs_overall] in Tc, Td, Tp.
  rewrite Tc, Td, Tp, !Z.add_0_l.
  set (c := total segment.concordant_count rs) in *.
  set (d := total segment.discordant_count rs) in *.
  destruct (decide (c + d = 0)%Z) as [Hz|Hnz].
  - rewrite py_div_zero by (rewrite Hz; reflexivity).
    rewrite bind_Raise. split; [reflexivity | left; exact Hz].
  - rewrite py_div_ok by (apply inject_Z_nonzero, Hnz). rewrite bind_Ok.
    assert (Hsegs : exists p o, last (zip ps os) = Some (p, o)).
    { destruct (zip ps os) as [|seg segs] eqn:Hz.
      - destruct rs; [|discriminate]. cbn in c, d. subst c d. lia.
      - destruct (last (seg :: segs)) as [[p o]|] eqn:Hl; [eauto|].
        apply last_None in Hl. discriminate. }
    destruct Hsegs as (p & o & Hl).
    destruct (Hlast p o Hl) as (Hv & v & Ht).
    rewrite Ht, (bind_Ok v).
    rewrite py_div_ok by (apply inject_Z_nonzero; lia). rewrite bind_Ok.
    rewrite Hv, (bind_Ok p).
    destruct (ranks p) as [|x xs] eqn:Hp.
    + rewrite py_div_zero by reflexivity. rewrite bind_Raise.
      split; [reflexivity|]. right. exists p, o. split; [exact Hl | exact Hp].
    + rewrite py_div_ok.
      * rewrite bind_Ok. cbn [mret result_ret]. split; [exact Hnz|].
        exists p, o. split; [exact Hl|]. rewrite Hp. discriminate.
      * apply inject_Z_nonzero. cbn [length]. lia.
Qed.

(** ** [max] *)

Lemma foldl_max_spec xs : forall a,
  let m := foldl (fun m y => if Qltb m y then y else m) a xs in
  In m (a :: xs) /\ Forall (fun y => y <= m) (a :: xs).
Proof.
  induction xs as [|x xs IH]; intros a; cbn [foldl]; cbn zeta.
  - split; [left; reflexivity|]. repeat constructor. apply Qle_refl.
  - destruct (Qltb a x) eqn:E.
    + apply Qltb_lt in E. destruct (IH x) as [Hin Hall]. cbn zeta in Hin, Hall.
      split; [right; exact Hin|].
      apply Forall_cons in Hall as [Hx Hall].
      repeat constructor; try assumption. lra.
    + apply Qltb_false in E. destruct (IH a) as [Hin Hall]. cbn zeta in Hin, Hall.
      split; [destruct Hin as [Hin|Hin]; [left; exact Hin | right; right; exact Hin]|].
      apply Forall_cons in Hall as [Ha Hall].
      repeat constructor; try assumption. lra.
Qed.

Lemma py_max_spec l m :
  py_max l = Ok m -> In m l /\ Forall (fun y => y <= m) l.
Proof.
  destruct l as [|a xs]; [discriminate|]. intros [= <-]. apply foldl_max_spec.
Qed.

Lemma py_max_nonempty l : l <> [] -> exists m, py_max l = Ok m.
Proof. destruct l; [congruence|]. intros _. eexists. reflexivity. Qed.

(** ** [avg_predicted_ranked] *)

Lemma mapped_loop best : forall (pairs : list (Q * Q)) acc x,
  In x (foldl (fun mapped (pair : Q * Q) =>
                 let '(original_rank, predicted_rank) := pair in
                 if Qeq_bool predicted_rank best
                 then mapped ++ [original_rank] else mapped)
              acc pairs)
  <-> In x acc
      \/ exists i y, pairs !! i = Some (x, y) /\ Qeq_bool y best = true.
Proof.
  induction pairs as [|[o p] pairs IH]; intros acc x; cbn [foldl].
  - split; [auto|]. intros [H|(i & y & H & _)]; [exact H | discriminate].
  - rewrite IH. split.
    + intros [Hacc|(i & y & Hi & Hy)].
      * destruct (Qeq_bool p best) eqn:E; [|left; exact Hacc].
        apply in_app_or in Hacc as [Hacc|[<-|[]]]; [left; exact Hacc|].
        right. exists 0%nat, p. split; [reflexivity | exact E].
      * right. exists (S i), y. split; assumption.
    + intros [Hacc|(i & y & Hi & Hy)].
      * left. destruct (Qeq_bool p best); [apply in_or_app; left|]; exact Hacc.
      * destruct i as [|i].
        -- cbn in Hi. injection Hi as -> ->. rewrite Hy. left.
           apply in_or_app. right. left. reflexivity.
        -- right. exists i, y. split; assumption.
Qed.

Lemma mapped_spec o p best x :
  In x (set.mapped_original_ranks o p best)
  <-> exists i y, o !! i = Some x /\ p !! i = Some y /\ Qeq_bool y best = true.
Proof.
  unfold set.mapped_original_ranks. rewrite mapped_loop. split.
  - intros [[]|(i & y & Hi & Hy)]. apply lookup_zip_Some in Hi as [Ho Hp]. eauto.
  - intros (i & y & Ho & Hp & Hy). right. exists i, y.
    split; [apply lookup_zip_Some; auto | exact Hy].
Qed.

Lemma avg_predicted_ranked_step_eq acc p o :
  set.avg_predicted_ranked_step acc (p, o)
  = pn ← Ranking_normalize p {[ "ties" := VStr "ceiling" ]};
    on ← Ranking_normalize o {[ "ties" := VStr "ceiling" ]};
    best ← py_min (ranks pn);
    worst ← py_max (set.mapped_original_ranks (ranks on) (ranks pn) best);
    mret (acc ++ [worst]).
Proof. reflexivity. Qed.

(** One segment of [avg_predicted_ranked]: the value appended is the gold
    rank of a top pick of the system, and no top pick of the system has a
    worse gold rank. *)
Lemma avg_predicted_ranked_segment acc p o :
  comparable (p, o) ->
  exists worst predicted original,
    set.avg_predicted_ranked_step acc (p, o) = Ok (acc ++ [worst])
    /\ normalize (ranks p) (ties "ceiling") = Ok predicted
    /\ normalize (ranks o) (ties "ceiling") = Ok original
    /\ (exists i, is_top predicted i /\ original !! i = Some worst)
    /\ (forall i x, is_top predicted i -> original !! i = Some x -> x <= worst)
    /\ 1 <= worst /\ worst <= of_nat (length (ranks o)).
Proof.
  intros [Hne Hlen]. cbn [fst snd] in Hne, Hlen.
  destruct (Ranking_normalize_spec p (VStr "ceiling")) as (pn & HRp & Hnp & Hlp & _).
  destruct (Ranking_normalize_spec o (VStr "ceiling")) as (on & HRo & Hno & Hlo & Hpos).
  rewrite avg_predicted_ranked_step_eq, HRp, bind_Ok, HRo, bind_Ok. cbn [ranks].
  assert (Hpn : pn <> []).
  { intros ->. cbn in Hlp. destruct (ranks p); [congruence | discriminate]. }
  destruct (py_min_nonempty pn Hpn) as [best Hbest]. rewrite Hbest, bind_Ok.
  apply py_min_spec in Hbest as [Hbin Hbmin].
  apply In_elem, list_elem_of_lookup in Hbin as [i0 Hi0].
  assert (Hi0' : (i0 < length on)%nat).
  { apply lookup_lt_Some in Hi0. lia. }
  destruct (lookup_lt_is_Some_2 on i0 Hi0') as [x0 Hx0].
  assert (Hin0 : In x0 (set.mapped_original_ranks on pn best)).
  { apply mapped_spec. exists i0, best. repeat split; try assumption.
    apply Qeq_bool_iff. reflexivity. }
  assert (Hmne : set.mapped_original_ranks on pn best <> []).
  { intros Hnil. rewrite Hnil in Hin0. destruct Hin0. }
  destruct (py_max_nonempty _ Hmne) as [worst Hworst]. rewrite Hworst, bind_Ok.
  apply py_max_spec in Hworst as [Hwin Hwmax].
  exists worst, pn, on. split; [reflexivity|].
  split; [exact Hnp|]. split; [exact Hno|].
  apply mapped_spec in Hwin as (i & y & Hoi & Hpi & Hy).
  apply Qeq_bool_iff in Hy.
  split; [|split; [|split]].
  - exists i. split; [|exact Hoi]. exists y. split; [exact Hpi|].
    eapply Forall_impl; [exact Hbmin|]. intros z Hz. cbn beta in Hz. lra.
  - intros j x (y' & Hpj & Hmin) Hoj.
    rewrite Forall_forall in Hwmax. apply Hwmax, In_elem, mapped_spec.
    exists j, y'. repeat split; try assumption.
    apply Qeq_bool_iff.
    rewrite Forall_forall in Hmin, Hbmin.
    pose proof (Hmin best (list_elem_of_lookup_2 _ _ _ Hi0)) as H1.
    pose proof (Hbmin y' (list_elem_of_lookup_2 _ _ _ Hpj)) as H2.
    lra.
  - rewrite Forall_lookup in Hpos. exact (Hpos i worst Hoi).
  - exact (normalize_rank_le (ranks o) _ on i worst Hno Hoi).
Qed.

Lemma avg_predicted_ranked_loop (N : nat) : forall segs acc,
  Forall comparable segs ->
  Forall (fun seg : Ranking * Ranking => (length (ranks (snd seg)) <= N)%nat) segs ->
  exists ws,
    for_each set.avg_predicted_ranked_step segs acc = Ok (acc ++ ws)
    /\ length ws = length segs
    /\ Forall (fun w => 1 <= w /\ w <= of_nat N) ws.
Proof.
  induction segs as [|[p o] segs IH]; intros acc Hall HN; cbn [for_each].
  - exists []. rewrite app_nil_r. repeat split; constructor.
  - apply Forall_cons in Hall as [Hseg Hall].
    apply Forall_cons in HN as [Hn HN]. cbn [snd] in Hn.
    destruct (avg_predicted_ranked_segment acc p o Hseg)
      as (w & pn & on & Hstep & _ & _ & _ & _ & H1 & Hle).
    rewrite Hstep, bind_Ok.
    destruct (IH (acc ++ [w]) Hall HN) as (ws & Hrun & Hl & Hb).
    exists (w :: ws). rewrite Hrun, <- app_assoc. cbn [app length].
    repeat split; [congruence|]. constructor; [|exact Hb].
    split; [exact H1|]. pose proof (of_nat_le _ _ Hn). lra.
Qed.

(** X19: on a non-empty sequence of segments, each with non-empty vectors
    of equal length and at most [N] items, [avg_predicted_ranked] returns a
    value between 1 and [N]. *)
Theorem avg_predicted_ranked_bounds :
  forall (predicted_rank_vectors original_rank_vectors : list Ranking)
         (kwargs : gmap string pyval) (N : nat),
    zip predicted_rank_vectors original_rank_vectors <> [] ->
    Forall comparable (zip predicted_rank_vectors original_rank_vectors) ->
    Forall (fun seg : Ranking * Ranking => (length (ranks (snd seg)) <= N)%nat)
           (zip predicted_rank_vectors original_rank_vectors) ->
    exists a,
      set.avg_predicted_ranked predicted_rank_vectors original_rank_vectors kwargs
      = Ok (Some a)
      /\ 1 <= a /\ a <= of_nat N.
Proof.
  intros ps os kwargs N Hne Hall HN. unfold set.avg_predicted_ranked.
  destruct (avg_predicted_ranked_loop N _ [] Hall HN) as (ws & Hrun & Hlen & Hb).
  rewrite Hrun, bind_Ok. cbn [app].
  assert (Hwne : ws <> []).
  { intros ->. destruct (zip ps os); [congruence | discriminate]. }
  destruct (np_average_bounds ws Hwne) as (a & Ha & Hlo & Hhi & _ & _).
  exists a. split; [rewrite Ha; reflexivity|]. split.
  - apply Hlo. eapply Forall_impl; [exact Hb|]. intros x [H0 _]. exact H0.
  - apply Hhi. eapply Forall_impl; [exact Hb|]. intros x [_ H1]. exact H1.
Qed.

Lemma avg_predicted_ranked_bounds_witness :
  zip [Ranking_init [2; 1; 3] ∅; Ranking_init [1; 1] ∅]
      [Ranking_init [3; 1; 2] ∅; Ranking_init [2; 1] ∅] <> []
  /\ Forall comparable
       (zip [Ranking_init [2; 1; 3] ∅; Ranking_init [1; 1] ∅]
            [Ranking_init [3; 1; 2] ∅; Ranking_init [2; 1] ∅])
  /\ Forall (fun seg : Ranking * Ranking => (length (ranks (snd seg)) <= 3)%nat)
       (zip [Ranking_init [2; 1; 3] ∅; Ranking_init [1; 1] ∅]
            [Ranking_init [3; 1; 2] ∅; Ranking_init [2; 1] ∅])
  /\ exists a,
       set.avg_predicted_ranked [Ranking_init [2; 1; 3] ∅; Ranking_init [1; 1] ∅]
                                [Ranking_init [3; 1; 2] ∅; Ranking_init [2; 1] ∅] ∅
       = Ok (Some a)
       /\ 1 <= a /\ a <= of_nat 3.
Proof.
  assert (H : Forall comparable
                (zip [Ranking_init [2; 1; 3] ∅; Ranking_init [1; 1] ∅]
                     [Ranking_init [3; 1; 2] ∅; Ranking_init [2; 1] ∅])).
  { repeat constructor; discriminate. }
  assert (HN : Forall (fun seg : Ranking * Ranking =>
                         (length (ranks (snd seg)) <= 3)%nat)
                 (zip [Ranking_init [2; 1; 3] ∅; Ranking_init [1; 1] ∅]
                      [Ranking_init [3; 1; 2] ∅; Ranking_init [2; 1] ∅])).
  { repeat constructor. }
  split; [discriminate|]. split; [exact H|]. split; [exact HN|].
  apply (avg_predicted_ranked_bounds
           [Ranking_init [2; 1; 3] ∅; Ranking_init [1; 1] ∅]
           [Ranking_init [3; 1; 2] ∅; Ranking_init [2; 1] ∅] ∅ 3);
    [discriminate | exact H | exact HN].
Defined.

(** X20: [avg_predicted_ranked] on a single segment with non-empty vectors
    of equal length returns the gold rank (normalised under [ceiling]) of an
    item that the system ranks best, and no item that the system ranks best
    has a worse gold rank: among tied top picks the worst one counts. *)
Theorem avg_predicted_ranked_single :
  forall (predicted_rank_vector original_rank_vector : Ranking)
         (kwargs : gmap string pyval),
    ranks predicted_rank_vector <> [] ->
    length (ranks predicted_rank_vector) = length (ranks original_rank_vector) ->
    exists a predicted original,
      set.avg_predicted_ranked [predicted_rank_vector] [original_rank_vector] kwargs
      = Ok (Some a)
      /\ normalize (ranks predicted_rank_vector) (ties "ceiling") = Ok predicted
      /\ normalize (ranks original_rank_vector) (ties "ceiling") = Ok original
      /\ (exists i x, is_top predicted i /\ original !! i = Some x /\ a == x)
      /\ (forall i x, is_top predicted i -> original !! i = Some x -> x <= a).
Proof.
  intros p o kwargs Hne Hlen.
  destruct (avg_predicted_ranked_segment [] p o (conj Hne Hlen))
    as (w & pn & on & Hstep & Hp & Ho & (i & Htop & Hi) & Hworst & _).
  unfold set.avg_predicted_ranked.
  change (zip [p] [o]) with [(p, o)]. cbn [for_each].
  rewrite Hstep, !bind_Ok. cbn [app].
  assert (Ha : py_sum [w] / inject_Z (Z.of_nat (length [w])) == w).
  { unfold py_sum. cbn [foldl length]. change (inject_Z (Z.of_nat 1)) with 1.
    field. }
  eexists _, pn, on. split; [reflexivity|].
  split; [exact Hp|]. split; [exact Ho|]. split.
  - exists i, w. split; [exact Htop|]. split; [exact Hi | exact Ha].
  - intros j x Hj Hx. rewrite Ha. exact (Hworst j x Hj Hx).
Qed.

Lemma avg_predicted_ranked_single_witness :
  ranks (Ranking_init [1; 1; 2] ∅) <> []
  /\ length (ranks (Ranking_init [1; 1; 2] ∅))
     = length (ranks (Ranking_init [1; 3; 2] ∅))
  /\ exists a predicted original,
       set.avg_predicted_ranked [Ranking_init [1; 1; 2] ∅]
                                [Ranking_init [1; 3; 2] ∅] ∅
       = Ok (Some a)
       /\ normalize (ranks (Ranking_init [1; 1; 2] ∅)) (ties "ceiling") = Ok predicted
       /\ normalize (ranks (Ranking_init [1; 3; 2] ∅)) (ties "ceiling") = Ok original
       /\ (exists i x, is_top predicted i /\ original !! i = Some x /\ a == x)
       /\ (forall i x, is_top predicted i -> original !! i = Some x -> x <= a).
Proof.
  split; [discriminate|]. split; [reflexivity|].
  apply (avg_predicted_ranked_single (Ranking_init [1; 1; 2] ∅)
           (Ranking_init [1; 3; 2] ∅) ∅); [discriminate | reflexivity].
Defined.

(** ** Errors of [reciprocal_rank] *)

(** X21: the errors of [reciprocal_rank].  An empty gold vector raises the
    [ValueError] of [min]; an empty predicted vector against a non-empty gold
    vector raises [IndexError]. *)
Theorem reciprocal_rank_errors :
  forall (predicted_rank_vector original_rank_vector : Ranking)
         (kwargs : gmap string pyval),
    (ranks original_rank_vector = [] ->
     segment.reciprocal_rank predicted_rank_vector original_rank_vector kwargs
     = Raise ValueError)
    /\ (ranks predicted_rank_vector = [] -> ranks original_rank_vector <> [] ->
        segment.reciprocal_rank predicted_rank_vector original_rank_vector kwargs
        = Raise IndexError).
Proof.
  intros p o kwargs.
  unfold segment.reciprocal_rank.
  destruct (setdefault kwargs "ties" (VStr "ceiling")) as [t kw'].
  destruct (Ranking_normalize_spec p t) as (pn & HRp & _ & Hlp & _).
  destruct (Ranking_normalize_spec o t) as (on & HRo & _ & Hlo & _).
  rewrite HRp, !bind_Ok, HRo, !bind_Ok. cbn [ranks].
  split.
  - intros Ho. rewrite Ho in Hlo. apply nil_length_inv in Hlo. subst on.
    reflexivity.
  - intros Hp Ho. rewrite Hp in Hlp. apply nil_length_inv in Hlp. subst pn.
    assert (Hon : on <> []).
    { intros ->. cbn in Hlo. destruct (ranks o); [congruence | discriminate]. }
    destruct (py_min_nonempty on Hon) as [best Hbest]. rewrite Hbest, bind_Ok.
    apply py_min_spec in Hbest as [Hbin _].
    apply In_elem, list_elem_of_lookup in Hbin as [i Hi].
    unfold Ranking_indexes. cbn [ranks].
    assert (Hidx : In i (indexes on best)).
    { apply indexes_spec. exists best. split; [exact Hi|].
      apply Qeq_bool_iff. reflexivity. }
    destruct (indexes on best) as [|j js]; [destruct Hidx|].
    cbn [for_each]. reflexivity.
Qed.

Lemma reciprocal_rank_errors_witness :
  segment.reciprocal_rank (Ranking_init [1; 2] ∅) (Ranking_init [] ∅) ∅
  = Raise ValueError
  /\ segment.reciprocal_rank (Ranking_init [] ∅) (Ranking_init [2; 1] ∅) ∅
     = Raise IndexError.
Proof.
  split.
  - apply (reciprocal_rank_errors (Ranking_init [1; 2] ∅) (Ranking_init [] ∅) ∅).
    reflexivity.
  - apply (reciprocal_rank_errors (Ranking_init [] ∅) (Ranking_init [2; 1] ∅) ∅);
      [reflexivity | discriminate].
Defined.

(** ** [indexes] *)

Lemma indexes_from_sorted l x : forall s a b u v,
  indexes_from s l x !! a = Some u -> indexes_from s l x !! b = Some v ->
  (a < b)%nat -> (u < v)%nat.
Proof.
  induction l as [|r rest IH]; intros s a b u v Ha Hb Hab; cbn [indexes_from] in *.
  - discriminate.
  - destruct (Qeq_bool x r).
    + destruct b as [|b]; [lia|]. cbn in Hb. destruct a as [|a].
      * cbn in Ha. injection Ha as <-.
        apply list_elem_of_lookup_2, elem_In, indexes_from_spec in Hb
          as (k & y & -> & _). lia.
      * cbn in Ha. eapply (IH (S s) a b); [exact Ha | exact Hb | lia].
    + eapply IH; eassumption.
Qed.

Lemma indexes_from_length l x : forall s,
  length (indexes_from s l x) = count l x.
Proof.
  induction l as [|r rest IH]; intros s; cbn [indexes_from count]; [reflexivity|].
  rewrite (Qeq_bool_sym r x). destruct (Qeq_bool x r); cbn [length]; rewrite IH;
    reflexivity.
Qed.

(** X22: [indexes] returns exactly the positions that hold the needed
    rank, each once and in increasing order; their number is what
    [ranking_list.count] gives for that rank in [_handle_tie]. *)
Theorem indexes_exact :
  forall (ranking_list : list Q) (neededrank : Q),
    (forall i, In i (indexes ranking_list neededrank)
               <-> exists rank, ranking_list !! i = Some rank /\ rank == neededrank)
    /\ (forall a b u v,
          indexes ranking_list neededrank !! a = Some u ->
          indexes ranking_list neededrank !! b = Some v ->
          (a < b)%nat -> (u < v)%nat)
    /\ length (indexes ranking_list neededrank) = count ranking_list neededrank.
Proof.
  intros l x. split; [|split].
  - intros i. rewrite indexes_spec. split; intros (y & Hy & He); exists y;
      (split; [exact Hy|]).
    + apply Qeq_bool_iff in He. symmetry. exact He.
    + apply Qeq_bool_iff. symmetry. exact He.
  - apply indexes_from_sorted.
  - apply indexes_from_length.
Qed.

(** ** [kendall_tau] and the order of the values *)

Lemma Qeq_bool_proper2 x x' y y' :
  x == x' -> y == y' -> Qeq_bool x y = Qeq_bool x' y'.
Proof.
  intros Hx Hy. rewrite (Qeq_bool_proper x y y' Hy).
  rewrite (Qeq_bool_sym x y'), (Qeq_bool_proper y' x x' Hx). apply Qeq_bool_sym.
Qed.

Lemma combinations2_Forall2 l l' :
  Forall2 Qeq l l' ->
  Forall2 (fun a b : Q * Q => fst a == fst b /\ snd a == snd b)
          (combinations2 l) (combinations2 l').
Proof.
  induction 1 as [|x x' xs xs' Hx Hxs IH]; cbn [combinations2]; [constructor|].
  apply Forall2_app; [|exact IH].
  apply Forall2_fmap. eapply Forall2_impl; [exact Hxs|].
  intros y y' Hy. cbn [fst snd]. split; assumption.
Qed.

Lemma Forall2_zip_pair {A B : Type} (RA : A -> A -> Prop) (RB : B -> B -> Prop)
    l l' k k' :
  Forall2 RA l l' -> Forall2 RB k k' ->
  Forall2 (fun a b => RA (fst a) (fst b) /\ RB (snd a) (snd b))
          (zip l k) (zip l' k').
Proof.
  intros H. revert k k'.
  induction H; intros k k' Hk; destruct Hk; cbn; constructor; auto.
Qed.

Lemma pair_step_proper e pen st (pp pp' : (Q * Q) * (Q * Q)) :
  (fst (fst pp) == fst (fst pp') /\ snd (fst pp) == snd (fst pp'))
  /\ (fst (snd pp) == fst (snd pp') /\ snd (snd pp) == snd (snd pp')) ->
  segment.pair_step e pen st pp = segment.pair_step e pen st pp'.
Proof.
  destruct pp as [[oi oj] [pi pj]], pp' as [[oi' oj'] [pi' pj']].
  cbn [fst snd]. intros [[H1 H2] [H3 H4]].
  assert (Hm : (-1) == (-1)) by reflexivity.
  unfold segment.pair_step.
  rewrite (Qeq_bool_proper2 oi oi' oj oj' H1 H2),
          (Qeq_bool_proper2 pi pi' pj pj' H3 H4),
          (Qeq_bool_proper2 oi oi' (-1) (-1) H1 Hm),
          (Qeq_bool_proper2 oj oj' (-1) (-1) H2 Hm),
          (Qltb_proper oj oj' oi oi' H2 H1), (Qltb_proper oi oi' oj oj' H1 H2),
          (Qltb_proper pj pj' pi pi' H4 H3), (Qltb_proper pi pi' pj pj' H3 H4).
  reflexivity.
Qed.

Lemma pair_loop_proper e pen : forall pps pps' st,
  Forall2 (fun pp pp' : (Q * Q) * (Q * Q) =>
             (fst (fst pp) == fst (fst pp') /\ snd (fst pp) == snd (fst pp'))
             /\ (fst (snd pp) == fst (snd pp') /\ snd (snd pp) == snd (snd pp')))
          pps pps' ->
  foldl (segment.pair_step e pen) st pps = foldl (segment.pair_step e pen) st pps'.
Proof.
  intros pps pps' st H. revert st.
  induction H as [|pp pp' pps pps' Hpp _ IH]; intros st; cbn [foldl]; [reflexivity|].
  rewrite (pair_step_proper e pen st pp pp' Hpp). apply IH.
Qed.

Lemma tau_counters_proper kwargs pn pn' on on' :
  Forall2 Qeq pn pn' -> Forall2 Qeq on on' ->
  tau_counters kwargs pn on = tau_counters kwargs pn' on'.
Proof.
  intros Hp Ho. unfold tau_counters, tau_pairs. apply pair_loop_proper.
  apply (Forall2_zip_pair
           (fun a b : Q * Q => fst a == fst b /\ snd a == snd b)
           (fun a b : Q * Q => fst a == fst b /\ snd a == snd b));
    [|apply combinations2_Forall2, Hp].
  apply Forall2_fmap. eapply Forall2_impl; [apply combinations2_Forall2, Ho|].
  intros [a b] [a' b'] [Ha Hb]. cbn [fst snd] in *. rewrite Ha, Hb. split; reflexivity.
Qed.

(** X23: [kendall_tau] depends on the order of the values only: replacing
    the predicted and the gold vector by vectors that order their items the
    same way changes nothing in the result. *)
Theorem kendall_tau_depends_on_order_only :
  forall (sqrt erfc : Q -> Q)
         (predicted_rank_vector predicted_rank_vector'
          original_rank_vector original_rank_vector' : Ranking)
         (kwargs : gmap string pyval),
    same_order (ranks predicted_rank_vector) (ranks predicted_rank_vector') ->
    same_order (ranks original_rank_vector) (ranks original_rank_vector') ->
    segment.kendall_tau sqrt erfc predicted_rank_vector original_rank_vector kwargs
    = segment.kendall_tau sqrt erfc predicted_rank_vector' original_rank_vector' kwargs.
Proof.
  intros sqrt erfc p p' o o' kwargs Hp Ho.
  destruct (kendall_tau_eval sqrt erfc p o kwargs) as (pn & on & Hpn & Hon & Hk).
  destruct (kendall_tau_eval sqrt erfc p' o' kwargs) as (pn' & on' & Hpn' & Hon' & Hk').
  rewrite Hk, Hk'.
  rewrite (tau_counters_proper kwargs pn pn' on on'); [reflexivity| |].
  - exact (normalize_same_order_pointwise _ _ _ _ _ Hp Hpn Hpn').
  - exact (normalize_same_order_pointwise _ _ _ _ _ Ho Hon Hon').
Qed.

Lemma kendall_tau_depends_on_order_only_witness :
  same_order (ranks (Ranking_init [1; 2; 2] ∅)) (ranks (Ranking_init [10; 30; 30] ∅))
  /\ same_order (ranks (Ranking_init [3; 1; 2] ∅)) (ranks (Ranking_init [9; 5; 7] ∅))
  /\ segment.kendall_tau (fun x => x) (fun x => x)
       (Ranking_init [1; 2; 2] ∅) (Ranking_init [3; 1; 2] ∅) ∅
     = segment.kendall_tau (fun x => x) (fun x => x)
         (Ranking_init [10; 30; 30] ∅) (Ranking_init [9; 5; 7] ∅) ∅.
Proof.
  assert (H1 : same_order (ranks (Ranking_init [1; 2; 2] ∅))
                          (ranks (Ranking_init [10; 30; 30] ∅))).
  { split; [reflexivity|]. intros i j x y x' y' Hx Hy Hx' Hy'.
    destruct i as [|[|[|i]]], j as [|[|[|j]]]; cbn in Hx, Hy, Hx', Hy';
      try discriminate;
      injection Hx as <-; injection Hy as <-; injection Hx' as <-; injection Hy' as <-;
      split; intros H; try reflexivity; discriminate H. }
  assert (H2 : same_order (ranks (Ranking_init [3; 1; 2] ∅))
                          (ranks (Ranking_init [9; 5; 7] ∅))).
  { split; [reflexivity|]. intros i j x y x' y' Hx Hy Hx' Hy'.
    destruct i as [|[|[|i]]], j as [|[|[|j]]]; cbn in Hx, Hy, Hx', Hy';
      try discriminate;
      injection Hx as <-; injection Hy as <-; injection Hx' as <-; injection Hy' as <-;
      split; intros H; try reflexivity; discriminate H. }
  split; [exact H1|]. split; [exact H2|].
  apply (kendall_tau_depends_on_order_only (fun x => x) (fun x => x)
           (Ranking_init [1; 2; 2] ∅) (Ranking_init [10; 30; 30] ∅)
           (Ranking_init [3; 1; 2] ∅) (Ranking_init [9; 5; 7] ∅) ∅ H1 H2).
Defined.

(** ** Perfect agreement and perfect disagreement *)

Lemma Qeq_bool_false x y : ~ x == y -> Qeq_bool x y = false.
Proof.
  intros H. destruct (Qeq_bool x y) eqn:E; [|reflexivity].
  apply Qeq_bool_iff in E. contradiction.
Qed.

Lemma pair_step_concordant e pen st pp :
  concordant_pair pp ->
  segment.c_concordant (segment.pair_step e pen st pp)
  = (segment.c_concordant st + 1)%Z
  /\ segment.c_discordant (segment.pair_step e pen st pp)
     = segment.c_discordant st.
Proof.
  destruct pp as [[oi oj] [pi pj]]. intros (Hi & Hj & Hne & H1 & H2).
  unfold segment.pair_step.
  rewrite (Qeq_bool_false oi (-1) Hi), (Qeq_bool_false oj (-1) Hj),
          (Qeq_bool_false oi oj Hne).
  cbn [orb andb].
  destruct (Q_dec oi oj) as [[Hlt|Hgt]|Heq]; [| |contradiction].
  - rewrite (proj2 (Qltb_lt oi oj) Hlt), (proj2 (Qltb_lt pi pj) (proj1 H1 Hlt)).
    cbn [andb orb]. rewrite !orb_true_r. cbn. split; reflexivity.
  - rewrite (proj2 (Qltb_lt oj oi) Hgt), (proj2 (Qltb_lt pj pi) (proj1 H2 Hgt)).
    cbn. split; reflexivity.
Qed.

Lemma pair_step_discordant e pen st pp :
  discordant_pair pp ->
  segment.c_concordant (segment.pair_step e pen st pp)
  = segment.c_concordant st
  /\ segment.c_discordant (segment.pair_step e pen st pp)
     = (segment.c_discordant st + 1)%Z.
Proof.
  destruct pp as [[oi oj] [pi pj]]. intros (Hi & Hj & Hne & H1 & H2).
  unfold segment.pair_step.
  rewrite (Qeq_bool_false oi (-1) Hi), (Qeq_bool_false oj (-1) Hj),
          (Qeq_bool_false oi oj Hne).
  cbn [orb andb].
  assert (Hp : ~ pi == pj).
  { intros Hp. destruct (Q_dec oi oj) as [[Hlt|Hgt]|Heq]; [| |contradiction].
    - apply H1 in Hlt. lra.
    - apply H2 in Hgt. lra. }
  rewrite (Qeq_bool_false pi pj Hp). cbn [andb].
  destruct (Q_dec oi oj) as [[Hlt|Hgt]|Heq]; [| |contradiction].
  - assert (E1 : Qltb oj oi = false) by (apply Qltb_false; lra).
    assert (E2 : Qltb pi pj = false) by (apply Qltb_false; apply H1 in Hlt; lra).
    rewrite E1, E2. cbn [andb orb]. rewrite !andb_false_r. cbn. split; reflexivity.
  - assert (E1 : Qltb oi oj = false) by (apply Qltb_false; lra).
    assert (E2 : Qltb pj pi = false) by (apply Qltb_false; apply H2 in Hgt; lra).
    rewrite E1, E2. cbn [andb orb]. rewrite !andb_false_r. cbn. split; reflexivity.
Qed.

Lemma pair_loop_concordant e pen : forall pps st,
  Forall concordant_pair pps ->
  segment.c_concordant (foldl (segment.pair_step e pen) st pps)
  = (segment.c_concordant st + Z.of_nat (length pps))%Z
  /\ segment.c_discordant (foldl (segment.pair_step e pen) st pps)
     = segment.c_discordant st.
Proof.
  induction pps as [|pp pps IH]; intros st Hall; cbn [foldl length].
  - split; [lia | reflexivity].
  - apply Forall_cons in Hall as [Hpp Hall].
    destruct (IH (segment.pair_step e pen st pp) Hall) as [Hc Hd].
    destruct (pair_step_concordant e pen st pp Hpp) as [Hc1 Hd1].
    rewrite Hc, Hd, Hc1, Hd1. split; [lia | reflexivity].
Qed.

Lemma pair_loop_discordant e pen : forall pps st,
  Forall discordant_pair pps ->
  segment.c_concordant (foldl (segment.pair_step e pen) st pps)
  = segment.c_concordant st
  /\ segment.c_discordant (foldl (segment.pair_step e pen) st pps)
     = (segment.c_discordant st + Z.of_nat (length pps))%Z.
Proof.
  induction pps as [|pp pps IH]; intros st Hall; cbn [foldl length].
  - split; [reflexivity | lia].
  - apply Forall_cons in Hall as [Hpp Hall].
    destruct (IH (segment.pair_step e pen st pp) Hall) as [Hc Hd].
    destruct (pair_step_discordant e pen st pp Hpp) as [Hc1 Hd1].
    rewrite Hc, Hd, Hc1, Hd1. split; [reflexivity | lia].
Qed.

(** The pairs that [zip] forms from the combinations of two vectors of the
    same length are the pairs of items at positions [i < j]. *)
Lemma combinations2_zip_Forall (P : (Q * Q) * (Q * Q) -> Prop) : forall a b,
  length a = length b ->
  (forall i j ai aj bi bj,
     (i < j)%nat -> a !! i = Some ai -> a !! j = Some aj ->
     b !! i = Some bi -> b !! j = Some bj -> P ((ai, aj), (bi, bj))) ->
  Forall P (zip (combinations2 a) (combinations2 b)).
Proof.
  induction a as [|x xs IH]; intros [|y ys] Hlen HP; try discriminate;
    cbn [combinations2]; [constructor|].
  injection Hlen as Hlen.
  rewrite zip_with_app by (rewrite !length_map; exact Hlen).
  apply Forall_app. split.
  - apply Forall_forall. intros z Hz.
    apply elem_of_lookup_zip_with in Hz as (k & u & v & -> & Hu & Hv).
    apply list_lookup_fmap_Some in Hu as (xk & -> & Hxk).
    apply list_lookup_fmap_Some in Hv as (yk & -> & Hyk).
    apply (HP 0%nat (S k)); [lia | reflexivity | exact Hxk | reflexivity | exact Hyk].
  - apply IH; [exact Hlen|]. intros i j ai aj bi bj Hij Hai Haj Hbi Hbj.
    apply (HP (S i) (S j)); [lia | assumption..].
Qed.

Lemma Forall_zip_map_l {A B C : Type} (f : A -> C) (P : C * B -> Prop) :
  forall (l : list A) (k : list B),
    Forall (fun ab => P (f (fst ab), snd ab)) (zip l k) ->
    Forall P (zip (map f l) k).
Proof.
  induction l as [|x l IH]; intros [|y k] H; cbn; try constructor.
  - apply Forall_cons in H as [H _]. exact H.
  - apply Forall_cons in H as [_ H]. apply IH, H.
Qed.

Lemma tie_free_lookup : forall l,
  tie_free l ->
  forall i j x y, i <> j -> l !! i = Some x -> l !! j = Some y -> ~ x == y.
Proof.
  induction l as [|a l IH]; intros Hfree i j x y Hij Hx Hy; [discriminate|].
  destruct Hfree as [Ha Hfree]. rewrite Forall_forall in Ha.
  destruct i as [|i], j as [|j]; cbn in Hx, Hy.
  - lia.
  - injection Hx as <-. apply Ha. eapply list_elem_of_lookup_2, Hy.
  - injection Hy as <-. intros H. apply (Ha x).
    + eapply list_elem_of_lookup_2, Hx.
    + symmetry. exact H.
  - apply (IH Hfree i j); [lia | assumption..].
Qed.

Lemma pair_count_pos n : (2 <= n)%nat -> (0 < pair_count n)%nat.
Proof.
  intros Hn. unfold pair_count. apply Nat.div_str_pos. nia.
Qed.

(** The facts about two normalised vectors that the pair loop works on. *)
Lemma normalized_pairs p o kwargs pn on :
  length p = length o -> tie_free o ->
  normalize p kwargs = Ok pn -> normalize o kwargs = Ok on ->
  length on = length pn
  /\ forall i j oi oj pi pj,
       (i < j)%nat -> on !! i = Some oi -> on !! j = Some oj ->
       pn !! i = Some pi -> pn !! j = Some pj ->
       exists xi xj yi yj,
         p !! i = Some xi /\ p !! j = Some xj
         /\ o !! i = Some yi /\ o !! j = Some yj
         /\ 1 <= oi /\ 1 <= oj /\ ~ oi == oj
         /\ (oi < oj <-> yi < yj) /\ (oj < oi <-> yj < yi)
         /\ (pi < pj <-> xi < xj) /\ (pj < pi <-> xj < xi).
Proof.
  intros Hlen Hfree Hp Ho.
  destruct (normalize_keeps_order p kwargs pn Hp) as [Hlp Hop].
  destruct (normalize_keeps_order o kwargs on Ho) as [Hlo Hoo].
  pose proof (normalize_ranks_at_least_one o kwargs on Ho) as Hpos.
  rewrite Forall_lookup in Hpos.
  split; [lia|].
  intros i j oi oj pi pj Hij Hoi Hoj Hpi Hpj.
  assert (Hi : (i < length p)%nat).
  { apply lookup_lt_Some in Hpi. lia. }
  assert (Hj : (j < length p)%nat).
  { apply lookup_lt_Some in Hpj. lia. }
  destruct (lookup_lt_is_Some_2 p i Hi) as [xi Hxi].
  destruct (lookup_lt_is_Some_2 p j Hj) as [xj Hxj].
  destruct (lookup_lt_is_Some_2 o i ltac:(lia)) as [yi Hyi].
  destruct (lookup_lt_is_Some_2 o j ltac:(lia)) as [yj Hyj].
  exists xi, xj, yi, yj.
  pose proof (Hoo i j oi oj yi yj Hoi Hoj Hyi Hyj) as O1.
  pose proof (Hoo j i oj oi yj yi Hoj Hoi Hyj Hyi) as O2.
  pose proof (Hop i j pi pj xi xj Hpi Hpj Hxi Hxj) as P1.
  pose proof (Hop j i pj pi xj xi Hpj Hpi Hxj Hxi) as P2.
  assert (Hy : ~ yi == yj).
  { apply (tie_free_lookup o Hfree i j); [lia | assumption..]. }
  repeat split; try tauto; try (apply (Hpos _ _ Hoi)); try (apply (Hpos _ _ Hoj)).
  intros He. destruct (Q_dec yi yj) as [[Hlt|Hgt]|Heq]; [| |contradiction].
  - apply O1 in Hlt. lra.
  - apply O2 in Hgt. lra.
Qed.

(** X24: perfect agreement and perfect disagreement.  With [invert_ranks]
    unset and a gold vector of at least two items without ties, a predicted
    vector in the same order gives tau 1 with every pair concordant, and a
    predicted vector in the opposite order gives tau -1 with every pair
    discordant, whatever the tie policy and the other options. *)
Theorem kendall_tau_extremes :
  forall (sqrt erfc : Q -> Q) (predicted_rank_vector original_rank_vector : Ranking)
         (kwargs : gmap string pyval),
    truthy (option_of kwargs "invert_ranks" (VBool false)) = false ->
    tie_free (ranks original_rank_vector) ->
    (2 <= length (ranks original_rank_vector))%nat ->
    (same_order (ranks predicted_rank_vector) (ranks original_rank_vector) ->
     exists res t,
       segment.kendall_tau sqrt erfc predicted_rank_vector original_rank_vector kwargs
       = Ok res
       /\ segment.tau res = Some t /\ t == 1
       /\ segment.concordant_count res
          = Z.of_nat (pair_count (length (ranks original_rank_vector)))
       /\ segment.discordant_count res = 0%Z)
    /\ (reversed_order (ranks predicted_rank_vector) (ranks original_rank_vector) ->
        exists res t,
          segment.kendall_tau sqrt erfc predicted_rank_vector original_rank_vector kwargs
          = Ok res
          /\ segment.tau res = Some t /\ t == -1
          /\ segment.concordant_count res = 0%Z
          /\ segment.discordant_count res
             = Z.of_nat (pair_count (length (ranks original_rank_vector)))).
Proof.
  intros sqrt erfc p o kwargs Hinv Hfree Hn.
  destruct (kendall_tau_eval sqrt erfc p o kwargs) as (pn & on & Hp & Ho & Hk).
  assert (Hpairs : forall P : (Q * Q) * (Q * Q) -> Prop,
             length (ranks p) = length (ranks o) ->
             (forall oi oj pi pj xi xj yi yj,
                1 <= oi -> 1 <= oj -> ~ oi == oj ->
                (oi < oj <-> yi < yj) -> (oj < oi <-> yj < yi) ->
                (pi < pj <-> xi < xj) -> (pj < pi <-> xj < xi) ->
                (forall i j, (i < j)%nat ->
                   ranks p !! i = Some xi -> ranks p !! j = Some xj ->
                   ranks o !! i = Some yi -> ranks o !! j = Some yj ->
                   P ((1 * oi, 1 * oj), (pi, pj)))) ->
             Forall P (tau_pairs kwargs pn on)
             /\ length (tau_pairs kwargs pn on)
                = pair_count (length (ranks o))).
  { intros P Hlen HP.
    destruct (normalized_pairs _ _ _ pn on Hlen Hfree Hp Ho) as [Hl Hfacts].
    unfold tau_pairs. rewrite Hinv. split.
    - apply Forall_zip_map_l. apply combinations2_zip_Forall; [exact Hl|].
      intros i j oi oj pi pj Hij Hoi Hoj Hpi Hpj. cbn [fst snd].
      destruct (Hfacts i j oi oj pi pj Hij Hoi Hoj Hpi Hpj)
        as (xi & xj & yi & yj & Hxi & Hxj & Hyi & Hyj & F1 & F2 & F3 & F4 & F5 & F6 & F7).
      apply (HP oi oj pi pj xi xj yi yj F1 F2 F3 F4 F5 F6 F7 i j Hij Hxi Hxj Hyi Hyj).
    - rewrite length_zip, length_map, !combinations2_length, Hl, Nat.min_id.
      destruct (normalize_spec (ranks p) {[ "ties" := segment_ties_of kwargs ]})
        as (pn' & Hp' & Hlp & _).
      assert (pn' = pn) by congruence. subst pn'. rewrite Hlp, Hlen. reflexivity. }
  pose proof (pair_count_pos _ Hn) as Hpos.
  split.
  - intros [Hlen Hord].
    destruct (Hpairs concordant_pair Hlen) as [Hall Hcount].
    { intros oi oj pi pj xi xj yi yj F1 F2 F3 F4 F5 F6 F7 i j Hij Hxi Hxj Hyi Hyj.
      pose proof (Hord i j xi xj yi yj Hxi Hxj Hyi Hyj) as S1.
      pose proof (Hord j i xj xi yj yi Hxj Hxi Hyj Hyi) as S2.
      unfold concordant_pair.
      split; [intros H; lra|]. split; [intros H; lra|].
      split; [intros H; apply F3; lra|]. split; split; intros H.
      - apply F6, S1, F4. lra.
      - assert (pi < pj -> oi < oj) by tauto. lra.
      - apply F7, S2, F5. lra.
      - assert (pj < pi -> oj < oi) by tauto. lra. }
    destruct (pair_loop_concordant
                (option_of kwargs "exclude_ties" (VBool true))
                (option_of kwargs "penalize_predicted_ties" (VBool true))
                _ (segment.mkCounters 0 0 0 0 0) Hall) as [Hc Hd].
    fold (tau_counters kwargs pn on) in Hc, Hd.
    cbn [segment.c_concordant segment.c_discordant] in Hc, Hd.
    rewrite Hcount in Hc. rewrite Hk. cbn zeta. rewrite Hc, Hd.
    set (c := Z.of_nat (pair_count (length (ranks o)))) in *.
    destruct (py_div (1 * inject_Z (0 + c - 0)) (inject_Z (0 + c + 0)))
      as [t|ex] eqn:Hdiv.
    + eexists _, t. split; [reflexivity|]. cbn [segment.tau
        segment.concordant_count segment.discordant_count].
      split; [reflexivity|]. split; [|split; [lia | reflexivity]].
      apply py_div_value in Hdiv as [Ht _].
      destruct (tau_value (0 + c) 0 t) as (_ & _ & _ & Hone & _);
        [lia | lia | lia | exact Ht |].
      apply Hone. reflexivity.
    + exfalso. rewrite py_div_ok in Hdiv; [discriminate|].
      apply inject_Z_nonzero. lia.
  - intros [Hlen Hord].
    destruct (Hpairs discordant_pair Hlen) as [Hall Hcount].
    { intros oi oj pi pj xi xj yi yj F1 F2 F3 F4 F5 F6 F7 i j Hij Hxi Hxj Hyi Hyj.
      pose proof (Hord i j xi xj yi yj Hxi Hxj Hyi Hyj) as S1.
      pose proof (Hord j i xj xi yj yi Hxj Hxi Hyj Hyi) as S2.
      unfold discordant_pair.
      split; [intros H; lra|]. split; [intros H; lra|].
      split; [intros H; apply F3; lra|]. split; split; intros H.
      - apply F7, S2, F4. lra.
      - assert (pj < pi -> oi < oj) by tauto. lra.
      - apply F6, S1, F5. lra.
      - assert (pi < pj -> oj < oi) by tauto. lra. }
    destruct (pair_loop_discordant
                (option_of kwargs "exclude_ties" (VBool true))
                (option_of kwargs "penalize_predicted_ties" (VBool true))
                _ (segment.mkCounters 0 0 0 0 0) Hall) as [Hc Hd].
    fold (tau_counters kwargs pn on) in Hc, Hd.
    cbn [segment.c_concordant segment.c_discordant] in Hc, Hd.
    rewrite Hcount in Hd. rewrite Hk. cbn zeta. rewrite Hc, Hd.
    set (c := Z.of_nat (pair_count (length (ranks o)))) in *.
    destruct (py_div (1 * inject_Z (0 - (0 + c))) (inject_Z (0 + (0 + c))))
      as [t|ex] eqn:Hdiv.
    + eexists _, t. split; [reflexivity|]. cbn [segment.tau
        segment.concordant_count segment.discordant_count].
      split; [reflexivity|]. split; [|split; [reflexivity | lia]].
      apply py_div_value in Hdiv as [Ht _].
      destruct (tau_value 0 (0 + c) t) as (_ & _ & _ & _ & Hone);
        [lia | lia | lia | exact Ht |].
      apply Hone. reflexivity.
    + exfalso. rewrite py_div_ok in Hdiv; [discriminate|].
      apply inject_Z_nonzero. lia.
Qed.

Lemma kendall_tau_extremes_witness :
  truthy (option_of (ties "floor") "invert_ranks" (VBool false)) = false
  /\ tie_free (ranks (mkRanking [10; 30; 20]%Q (VStr "unknown")))
  /\ (2 <= length (ranks (mkRanking [10; 30; 20]%Q (VStr "unknown"))))%nat
  /\ same_order (ranks (mkRanking [1; 3; 2] (VStr "unknown")))
                (ranks (mkRanking [10; 30; 20]%Q (VStr "unknown")))
  /\ exists res t,
       segment.kendall_tau (fun x => x) (fun x => x)
         (mkRanking [1; 3; 2] (VStr "unknown"))
         (mkRanking [10; 30; 20]%Q (VStr "unknown")) (ties "floor")
       = Ok res
       /\ segment.tau res = Some t /\ t == 1
       /\ segment.concordant_count res
          = Z.of_nat (pair_count
                        (length (ranks (mkRanking [10; 30; 20]%Q (VStr "unknown")))))
       /\ segment.discordant_count res = 0%Z.
Proof.
  assert (Hfree : tie_free (ranks (mkRanking [10; 30; 20]%Q (VStr "unknown")))).
  { cbn [ranks tie_free]. repeat split; repeat constructor;
      intros H; vm_compute in H; discriminate H. }
  assert (Hlen : (2 <= length (ranks (mkRanking [10; 30; 20]%Q (VStr "unknown"))))%nat).
  { cbn [ranks length]. lia. }
  assert (Hsame : same_order (ranks (mkRanking [1; 3; 2] (VStr "unknown")))
                             (ranks (mkRanking [10; 30; 20]%Q (VStr "unknown")))).
  { split; [reflexivity|]. intros i j x y x' y' Hx Hy Hx' Hy'.
    destruct i as [|[|[|i]]], j as [|[|[|j]]]; cbn in Hx, Hy, Hx', Hy';
      try discriminate;
      injection Hx as <-; injection Hy as <-; injection Hx' as <-; injection Hy' as <-;
      split; intros H; try reflexivity; discriminate H. }
  split; [reflexivity|]. split; [exact Hfree|]. split; [exact Hlen|].
  split; [exact Hsame|].
  apply (kendall_tau_extremes (fun x => x) (fun x => x)
           (mkRanking [1; 3; 2] (VStr "unknown"))
           (mkRanking [10; 30; 20]%Q (VStr "unknown")) (ties "floor")
           eq_refl Hfree Hlen).
  exact Hsame.
Defined.

(** ** [ndgc_err] and the order of the values *)

Lemma py_round_proper x y : x == y -> py_round x = py_round y.
Proof.
  intros Hxy. unfold py_round.
  rewrite (Qleb_comp 0 0 (Qeq_refl 0) x y Hxy).
  destruct (Qle_bool 0 y).
  - apply Qfloor_comp. rewrite Hxy. reflexivity.
  - apply Qceiling_comp. rewrite Hxy. reflexivity.
Qed.

Lemma integers_proper l l' :
  Forall2 Qeq l l' -> map py_round l = map py_round l'.
Proof.
  induction 1 as [|x x' l l' Hx _ IH]; cbn [map]; [reflexivity|].
  rewrite (py_round_proper x x' Hx), IH. reflexivity.
Qed.

Lemma normalized_integers_same p p' t r r' :
  same_order (ranks p) (ranks p') ->
  Ranking_normalize p {[ "ties" := t ]} = Ok r ->
  Ranking_normalize p' {[ "ties" := t ]} = Ok r' ->
  Ranking_integers r = Ranking_integers r'.
Proof.
  intros Hord Hr Hr'.
  destruct (Ranking_normalize_spec p t) as (out & Hp & Hn & _).
  destruct (Ranking_normalize_spec p' t) as (out' & Hp' & Hn' & _).
  assert (r = mkRanking out t) by congruence.
  assert (r' = mkRanking out' t) by congruence. subst r r'.
  unfold Ranking_integers. cbn [ranks]. apply integers_proper.
  exact (normalize_same_order_pointwise _ _ _ _ _ Hord Hn Hn').
Qed.

(** X25: [ndgc_err] depends on the order of the values only: replacing the
    predicted and the gold vector by vectors that order their items the same
    way changes nothing in the result, a raised error included. *)
Theorem ndgc_err_depends_on_order_only :
  forall (log : Q -> Q)
         (predicted_rank_vector predicted_rank_vector'
          original_rank_vector original_rank_vector' : Ranking) (k : pyval),
    same_order (ranks predicted_rank_vector) (ranks predicted_rank_vector') ->
    same_order (ranks original_rank_vector) (ranks original_rank_vector') ->
    segment.ndgc_err log predicted_rank_vector original_rank_vector k
    = segment.ndgc_err log predicted_rank_vector' original_rank_vector' k.
Proof.
  intros log p p' o o' k Hp Ho.
  destruct (Ranking_normalize_spec p (VStr "ceiling")) as (pn & HRp & _).
  destruct (Ranking_normalize_spec p' (VStr "ceiling")) as (pn' & HRp' & _).
  destruct (Ranking_normalize_spec o (VStr "ceiling")) as (on & HRo & _).
  destruct (Ranking_normalize_spec o' (VStr "ceiling")) as (on' & HRo' & _).
  unfold segment.ndgc_err.
  rewrite HRp, HRp', !bind_Ok, HRo, HRo', !bind_Ok.
  rewrite (normalized_integers_same p p' _ _ _ Hp HRp HRp').
  rewrite (normalized_integers_same o o' _ _ _ Ho HRo HRo').
  reflexivity.
Qed.

Lemma ndgc_err_depends_on_order_only_witness :
  same_order (ranks (mkRanking [1; 2; 2] (VStr "unknown")))
             (ranks (mkRanking [10; 30; 30] (VStr "unknown")))
  /\ same_order (ranks (mkRanking [3; 1; 2] (VStr "unknown")))
                (ranks (mkRanking [9; 5; 7] (VStr "unknown")))
  /\ segment.ndgc_err (fun x => x)
       (mkRanking [1; 2; 2] (VStr "unknown")) (mkRanking [3; 1; 2] (VStr "unknown"))
       (VInt 2)
     = segment.ndgc_err (fun x => x)
         (mkRanking [10; 30; 30] (VStr "unknown")) (mkRanking [9; 5; 7] (VStr "unknown"))
         (VInt 2).
Proof.
  assert (H1 : same_order (ranks (mkRanking [1; 2; 2] (VStr "unknown")))
                          (ranks (mkRanking [10; 30; 30] (VStr "unknown")))).
  { split; [reflexivity|]. intros i j x y x' y' Hx Hy Hx' Hy'.
    destruct i as [|[|[|i]]], j as [|[|[|j]]]; cbn in Hx, Hy, Hx', Hy';
      try discriminate;
      injection Hx as <-; injection Hy as <-; injection Hx' as <-; injection Hy' as <-;
      split; intros H; try reflexivity; discriminate H. }
  assert (H2 : same_order (ranks (mkRanking [3; 1; 2] (VStr "unknown")))
                          (ranks (mkRanking [9; 5; 7] (VStr "unknown")))).
  { split; [reflexivity|]. intros i j x y x' y' Hx Hy Hx' Hy'.
    destruct i as [|[|[|i]]], j as [|[|[|j]]]; cbn in Hx, Hy, Hx', Hy';
      try discriminate;
      injection Hx as <-; injection Hy as <-; injection Hx' as <-; injection Hy' as <-;
      split; intros H; try reflexivity; discriminate H. }
  split; [exact H1|]. split; [exact H2|].
  apply (ndgc_err_depends_on_order_only (fun x => x)
           (mkRanking [1; 2; 2] (VStr "unknown")) (mkRanking [10; 30; 30] (VStr "unknown"))
           (mkRanking [3; 1; 2] (VStr "unknown")) (mkRanking [9; 5; 7] (VStr "unknown"))
           (VInt 2) H1 H2).
Defined.

(** ** A perfect prediction *)











(** ** The four policies compared *)

Lemma distinct_lt_rec_le l x : (distinct_lt_rec l x <= lt_count l x)%nat.
Proof.
  induction l as [|a l IH]; cbn [distinct_lt_rec lt_count]; [lia|].
  destruct (Qltb a x); cbn [andb]; [|lia].
  destruct (negb (existsb (Qeq_bool a) l)); lia.
Qed.

Lemma ties_of_ties t : ties_of {[ "ties" := t ]} = t.
Proof. unfold ties_of, setdefault. rewrite lookup_singleton_eq. reflexivity. Qed.

(** X27: the four tie policies order the rank of every item the same way:
    the rank under [minimize] is at most the rank under [floor], which is at
    most the rank under [middle], which is at most the rank under
    [ceiling]. *)
Theorem normalize_policy_order :
  forall (ranking_list minimize floor middle ceiling : list Q) (i : nat)
         (a b c d : Q),
    normalize ranking_list (ties "minimize") = Ok minimize ->
    normalize ranking_list (ties "floor") = Ok floor ->
    normalize ranking_list (ties "middle") = Ok middle ->
    normalize ranking_list (ties "ceiling") = Ok ceiling ->
    minimize !! i = Some a -> floor !! i = Some b ->
    middle !! i = Some c -> ceiling !! i = Some d ->
    a <= b /\ b <= c /\ c <= d.
Proof.
  intros l mi fl md ce i a b c d Hmi Hfl Hmd Hce Ha Hb Hc Hd.
  destruct (normalize_lookup_raw l _ mi i a Hmi Ha) as (x & Hx & Hin).
  destruct (normalize_rank l _ mi i x a Hmi Hx Ha) as [_ Ea].
  destruct (normalize_rank l _ fl i x b Hfl Hx Hb) as [Eb _].
  destruct (normalize_rank l _ md i x c Hmd Hx Hc) as [Ec _].
  destruct (normalize_rank l _ ce i x d Hce Hx Hd) as [Ed _].
  unfold ties in *. rewrite ties_of_ties in Ea, Eb, Ec, Ed.
  specialize (Ea eq_refl). specialize (Eb eq_refl).
  specialize (Ec eq_refl). specialize (Ed eq_refl).
  unfold slot_rank in Eb, Ec, Ed.
  cbn [is_str String.eqb Ascii.eqb Bool.eqb] in Eb, Ec, Ed.
  pose proof (distinct_lt_rec_le l x) as Hdl. rewrite <- distinct_lt_unfold in Hdl.
  apply of_nat_le in Hdl.
  pose proof (of_nat_le _ _ (count_In_pos l x Hin)) as Hk.
  change (of_nat 1) with 1 in Hk.
  revert Ea Eb Ec Ed Hdl Hk.
  generalize (of_nat (distinct_lt l x)), (of_nat (lt_count l x)), (of_nat (count l x)).
  intros dl lt k Ea Eb Ec Ed Hdl Hk.
  assert (Hhalf : (k + 1) / 2 == (k + 1) * (1 # 2)) by reflexivity.
  rewrite Hhalf in Ec. rewrite Ea, Eb, Ec, Ed. repeat split; lra.
Qed.

Lemma normalize_policy_order_witness :
  normalize [3; 1; 1; 2] (ties "minimize") = Ok [3; 1; 1; 2]
  /\ normalize [3; 1; 1; 2] (ties "floor") = Ok [4; 1; 1; 3]
  /\ normalize [3; 1; 1; 2] (ties "middle") = Ok [4; 3 # 2; 3 # 2; 3]
  /\ normalize [3; 1; 1; 2] (ties "ceiling") = Ok [4; 2; 2; 3]
  /\ 1 <= 1 /\ 1 <= 3 # 2 /\ 3 # 2 <= 2.
Proof.
  split; [vm_compute; reflexivity|]. split; [vm_compute; reflexivity|].
  split; [vm_compute; reflexivity|]. split; [vm_compute; reflexivity|].
  apply (normalize_policy_order [3; 1; 1; 2] [3; 1; 1; 2] [4; 1; 1; 3]
           [4; 3 # 2; 3 # 2; 3] [4; 2; 2; 3] 1 1 1 (3 # 2) 2);
    vm_compute; reflexivity.
Defined.

(** ** The ideal DCG *)

Lemma top_prefix_perm gains reordered i :
  reordered ≡ₚ gains ->
  py_sum (take i reordered) <= py_sum (take i (rev (py_sort gains))).
Proof.
  intros Hperm.
  pose proof (top_prefix (py_sort gains) (take i reordered)
                (py_sort_nondecreasing gains)) as H.
  assert (Hsub : take i reordered ⊆+ py_sort gains).
  { rewrite py_sort_perm, <- Hperm. apply submseteq_take. }
  specialize (H Hsub). rewrite length_take in H.
  pose proof (Permutation_length Hperm) as Hl.
  pose proof (sorted_gains_length gains) as Hlen.
  destruct (decide (i <= length reordered)%nat) as [Hle|Hgt].
  - rewrite Nat.min_l in H by exact Hle. exact H.
  - rewrite Nat.min_r in H by lia.
    rewrite (take_ge (rev _) i) by lia.
    rewrite (take_ge (rev _)) in H by lia. exact H.
Qed.

Lemma slice_raw (k : pyval) (n : nat) :
  is_index k = true ->
  exists m, forall l : list Q, length l = n -> py_slice_to l k = Ok (take m l).
Proof.
  intros Hk. destruct k as [|b|z|q|s]; try discriminate.
  - exists n. intros l Hl. cbn [py_slice_to]. rewrite take_ge by lia. reflexivity.
  - exists (if b then 1%nat else 0%nat). intros l _. destruct b; reflexivity.
  - exists (if (0 <=? z)%Z then Z.to_nat z else Z.to_nat (Z.of_nat n + z)).
    intros l Hl. unfold py_slice_to. rewrite Hl. destruct (0 <=? z)%Z; reflexivity.
Qed.

(** X28: [idcg] is an upper bound of the DCG of every ordering of the
    gains: for a cut-off that is [None], a [bool] or an [int], the
    discounted sum of the cut of any permutation of the gain array is at most
    the value [idcg] returns (for a logarithm that is positive and does not
    decrease above 1). *)
Theorem idcg_dominates :
  forall (log : Q -> Q) (gains reordered : list Q) (k : pyval),
    (forall x, 1 < x -> 0 < log x) ->
    (forall x y, 1 < x -> x <= y -> log x <= log y) ->
    reordered ≡ₚ gains ->
    is_index k = true ->
    exists ideal_dcg cut,
      segment.idcg log gains k = Ok ideal_dcg
      /\ py_slice_to reordered k = Ok cut
      /\ py_sum (discount_terms log 0 cut) <= ideal_dcg.
Proof.
  intros log gains reordered k log_pos log_mono Hperm Hk.
  destruct (slice_raw k (length gains) Hk) as [m Hm].
  exists (py_sum (discount_terms log 0 (take m (rev (py_sort gains))))),
         (take m reordered).
  split; [|split].
  - unfold segment.idcg.
    rewrite (Hm _ (sorted_gains_length gains)), bind_Ok.
    rewrite (discounted_from_ok log log_pos), bind_Ok. reflexivity.
  - apply Hm. apply Permutation_length, Hperm.
  - pose proof (weighted_dominance log log_pos log_mono
                  (take m reordered) (take m (rev (py_sort gains))) 0 0) as H.
    rewrite !length_take, sorted_gains_length, (Permutation_length Hperm) in H.
    specialize (H eq_refl).
    assert (Hpre : forall i, py_sum (take i (take m reordered))
                             <= 0 + py_sum (take i (take m (rev (py_sort gains))))).
    { intros i. rewrite !take_take.
      pose proof (top_prefix_perm gains reordered (i `min` m) Hperm). lra. }
    specialize (H Hpre). lra.
Qed.

Lemma idcg_dominates_witness :
  (forall x, 1 < x -> 0 < x - 1)
  /\ (forall x y, 1 < x -> x <= y -> x - 1 <= y - 1)
  /\ [1 # 4; 3 # 4; 0] ≡ₚ [0; 1 # 4; 3 # 4]
  /\ is_index (VInt 2) = true
  /\ exists ideal_dcg cut,
       segment.idcg (fun x => x - 1) [0; 1 # 4; 3 # 4] (VInt 2) = Ok ideal_dcg
       /\ py_slice_to [1 # 4; 3 # 4; 0] (VInt 2) = Ok cut
       /\ py_sum (discount_terms (fun x => x - 1) 0 cut) <= ideal_dcg.
Proof.
  assert (Hperm : [1 # 4; 3 # 4; 0] ≡ₚ [0; 1 # 4; 3 # 4]).
  { symmetry. etransitivity; [apply perm_swap|].
    apply perm_skip. apply perm_swap. }
  split; [intros x Hx; lra|]. split; [intros x y Hx Hxy; lra|].
  split; [exact Hperm|]. split; [reflexivity|].
  apply (idcg_dominates (fun x => x - 1) [0; 1 # 4; 3 # 4] [1 # 4; 3 # 4; 0] (VInt 2)).
  - intros x Hx. lra.
  - intros x y Hx Hxy. lra.
  - exact Hperm.
  - reflexivity.
Defined.

(** ** [kendall_tau_set] on a single segment *)

(** X29: on a single segment with at least one valid pair and a non-empty
    predicted vector, [kendall_tau_set] reports the tau, the probability and
    the counts of [kendall_tau] on that segment. *)
Theorem kendall_tau_set_single :
  forall (sqrt erfc : Q -> Q) (predicted_rank_vector original_rank_vector : Ranking)
         (kwargs : gmap string pyval) (res : segment.Result),
    segment.kendall_tau sqrt erfc predicted_rank_vector original_rank_vector kwargs
    = Ok res ->
    segment.all_pairs_count res <> 0%Z ->
    ranks predicted_rank_vector <> [] ->
    exists stats,
      set.kendall_tau_set sqrt erfc [predicted_rank_vector] [original_rank_vector]
                          kwargs = Ok stats
      /\ Some (set.tau stats) = segment.tau res
      /\ Some (set.tau_prob stats) = segment.prob res
      /\ set.tau_concordant stats = segment.concordant_count res
      /\ set.tau_discordant stats = segment.discordant_count res
      /\ set.tau_valid_pairs stats = segment.all_pairs_count res
      /\ set.tau_all_pairs stats = segment.pairs res
      /\ set.tau_original_ties stats = segment.original_ties res
      /\ set.tau_predicted_ties stats = segment.predicted_ties res.
Proof.
  intros sqrt erfc p o kwargs res Hres Hvalid Hne.
  destruct (kendall_tau_eval sqrt erfc p o kwargs) as (pn & on & _ & _ & Hk).
  pose proof (tau_counters_facts kwargs pn on) as (_ & Hc & Hd & Hle & _ & Hpt).
  rewrite Hk in Hres. injection Hres as Hres. cbn zeta in Hres.
  set (c := segment.c_concordant (tau_counters kwargs pn on)) in *.
  set (d := segment.c_discordant (tau_counters kwargs pn on)) in *.
  assert (Hnz : (c + d <> 0)%Z).
  { intros Hz. apply Hvalid. rewrite <- Hres.
    destruct (py_div _ _); cbn [segment.all_pairs_count]; exact Hz. }
  rewrite py_div_ok in Hres by (apply inject_Z_nonzero, Hnz).
  unfold set.kendall_tau_set. change (zip [p] [o]) with [(p, o)]. cbn [for_each].
  unfold set.tau_set_step. rewrite Hk, !bind_Ok. cbn zeta.
  rewrite py_div_ok by (apply inject_Z_nonzero, Hnz).
  cbn [segment.tau segment.prob segment.concordant_count segment.discordant_count
       segment.all_pairs_count segment.original_ties segment.predicted_ties
       segment.pairs set.concordant set.discordant set.valid_pairs
       set.pairs_overall set.predicted_ties set.predicted_rank_vector
       set.sentences_with_ties set.segtaus set.segprobs
       set.original_ties_overall set.predicted_ties_overall].
  rewrite !Z.add_0_l.
  rewrite py_div_ok by (apply inject_Z_nonzero, Hnz). rewrite bind_Ok.
  rewrite (bind_Ok (segment.c_predicted_ties (tau_counters kwargs pn on))).
  rewrite py_div_ok by (apply inject_Z_nonzero; lia). rewrite bind_Ok.
  rewrite (bind_Ok p).
  rewrite py_div_ok.
  2: { apply inject_Z_nonzero. destruct (ranks p); [congruence|]. cbn [length]. lia. }
  rewrite bind_Ok. eexists. split; [reflexivity|].
  rewrite <- Hres. cbn. repeat split; reflexivity.
Qed.

Lemma kendall_tau_set_single_witness :
  exists res,
    segment.kendall_tau (fun x => x) (fun x => x)
      (Ranking_init [1; 3; 2] ∅) (Ranking_init [1; 2; 3] ∅) ∅ = Ok res
    /\ segment.all_pairs_count res <> 0%Z
    /\ ranks (Ranking_init [1; 3; 2] ∅) <> []
    /\ exists stats,
         set.kendall_tau_set (fun x => x) (fun x => x)
           [Ranking_init [1; 3; 2] ∅] [Ranking_init [1; 2; 3] ∅] ∅ = Ok stats
         /\ Some (set.tau stats) = segment.tau res
         /\ Some (set.tau_prob stats) = segment.prob res
         /\ set.tau_concordant stats = segment.concordant_count res
         /\ set.tau_discordant stats = segment.discordant_count res
         /\ set.tau_valid_pairs stats = segment.all_pairs_count res
         /\ set.tau_all_pairs stats = segment.pairs res
         /\ set.tau_original_ties stats = segment.original_ties res
         /\ set.tau_predicted_ties stats = segment.predicted_ties res.
Proof.
  eexists. split; [vm_compute; reflexivity|].
  split; [discriminate|]. split; [discriminate|].
  apply (kendall_tau_set_single (fun x => x) (fun x => x)
           (Ranking_init [1; 3; 2] ∅) (Ranking_init [1; 2; 3] ∅) ∅).
  - vm_compute. reflexivity.
  - discriminate.
  - discriminate.
Defined.

(** ** The value of [reciprocal_rank] *)

(** X30: on non-empty vectors of equal length [reciprocal_rank] returns the
    reciprocal of a normalised predicted rank: that of an item holding the
    best gold rank, and the best (smallest) one among all such items when
    several are tied for the best gold rank. *)
Theorem reciprocal_rank_closed_form :
  forall (predicted_rank_vector original_rank_vector : Ranking)
         (kwargs : gmap string pyval),
    ranks predicted_rank_vector <> [] ->
    length (ranks predicted_rank_vector) = length (ranks original_rank_vector) ->
    exists rr predicted original i r,
      segment.reciprocal_rank predicted_rank_vector original_rank_vector kwargs = Ok rr
      /\ normalize (ranks predicted_rank_vector)
                   {[ "ties" := segment_ties_of kwargs ]} = Ok predicted
      /\ normalize (ranks original_rank_vector)
                   {[ "ties" := segment_ties_of kwargs ]} = Ok original
      /\ is_top original i /\ predicted !! i = Some r /\ rr == 1 / r
      /\ (forall j r', is_top original j -> predicted !! j = Some r' -> r <= r').
Proof.
  intros p o kwargs Hne Hlen.
  unfold segment.reciprocal_rank, segment_ties_of.
  destruct (setdefault kwargs "ties" (VStr "ceiling")) as [t kw']. cbn [fst].
  destruct (Ranking_normalize_spec p t) as (pn & HRp & Hnp & Hlp & Hposp).
  destruct (Ranking_normalize_spec o t) as (on & HRo & Hno & Hlo & Hposo).
  rewrite HRp, !bind_Ok, HRo, !bind_Ok. cbn [ranks].
  assert (Hon : on <> []).
  { intros ->. cbn in Hlo. rewrite <- Hlen in Hlo.
    destruct (ranks p); [congruence | discriminate]. }
  destruct (py_min_nonempty on Hon) as [best Hbest]. rewrite Hbest, bind_Ok.
  apply py_min_spec in Hbest as [Hbin Hbmin].
  unfold Ranking_indexes. cbn [ranks].
  assert (Hrange : Forall (fun i => (i < length pn)%nat) (indexes on best)).
  { apply Forall_forall. intros i Hi. apply elem_In, indexes_spec in Hi.
    destruct Hi as (y & Hy & _). apply lookup_lt_Some in Hy. lia. }
  destruct (collect_in_range pn (indexes on best) [] Hrange) as (vals & Hrun & Hvals).
  rewrite Hrun, bind_Ok. cbn [app].
  assert (Hvne : vals <> []).
  { apply In_elem, list_elem_of_lookup in Hbin as [k Hk].
    assert (Hkin : In k (indexes on best)).
    { apply indexes_spec. exists best. split; [exact Hk|].
      apply Qeq_bool_iff. reflexivity. }
    intros ->. inversion Hvals as [Hnil|]. rewrite <- Hnil in Hkin. exact Hkin. }
  destruct (py_min_nonempty vals Hvne) as [bp Hbp]. rewrite Hbp, bind_Ok.
  apply py_min_spec in Hbp as [Hpin Hpmin].
  destruct (Forall2_lookup_value pn _ _ bp Hvals Hpin) as (ib & Hib & Hpb).
  assert (Hbp1 : 1 <= bp).
  { rewrite Forall_lookup in Hposp. exact (Hposp ib bp Hpb). }
  destruct (reciprocal_of_rank bp Hbp1) as (Hdiv & _).
  exists (1 / bp), pn, on, ib, bp. rewrite Hdiv.
  split; [reflexivity|]. split; [exact Hnp|]. split; [exact Hno|].
  apply indexes_spec in Hib as (y & Hy & Hby). apply Qeq_bool_iff in Hby.
  split; [|split; [exact Hpb|split; [reflexivity|]]].
  - exists y. split; [exact Hy|].
    eapply Forall_impl; [exact Hbmin|]. intros w Hw. cbn beta in Hw. lra.
  - intros j r' (yj & Hyj & Hmin) Hr'.
    assert (Hyb : best == yj).
    { rewrite Forall_forall in Hmin, Hbmin.
      pose proof (Hmin best (In_elem _ _ Hbin)) as H1.
      pose proof (Hbmin yj (list_elem_of_lookup_2 _ _ _ Hyj)) as H2.
      cbn beta in H1, H2. lra. }
    assert (Hjin : In j (indexes on best)).
    { apply indexes_spec. exists yj. split; [exact Hyj|].
      apply Qeq_bool_iff. exact Hyb. }
    pose proof (Forall2_value_lookup pn _ _ j r' Hvals Hjin Hr') as Hin.
    rewrite Forall_forall in Hpmin. exact (Hpmin r' (In_elem _ _ Hin)).
Qed.

Lemma reciprocal_rank_closed_form_witness :
  ranks (Ranking_init [3; 2; 1] ∅) <> []
  /\ length (ranks (Ranking_init [3; 2; 1] ∅))
     = length (ranks (Ranking_init [1; 1; 2] ∅))
  /\ exists rr predicted original i r,
       segment.reciprocal_rank (Ranking_init [3; 2; 1] ∅) (Ranking_init [1; 1; 2] ∅) ∅
       = Ok rr
       /\ normalize (ranks (Ranking_init [3; 2; 1] ∅))
                    {[ "ties" := segment_ties_of ∅ ]} = Ok predicted
       /\ normalize (ranks (Ranking_init [1; 1; 2] ∅))
                    {[ "ties" := segment_ties_of ∅ ]} = Ok original
       /\ is_top original i /\ predicted !! i = Some r /\ rr == 1 / r
       /\ (forall j r', is_top original j -> predicted !! j = Some r' -> r <= r').
Proof.
  split; [discriminate|]. split; [reflexivity|].
  apply (reciprocal_rank_closed_form (Ranking_init [3; 2; 1] ∅)
           (Ranking_init [1; 1; 2] ∅) ∅); [discriminate | reflexivity].
Defined.
